(** * image_optimizer: a shallow embedding of the batch image converter

    Two revisions of the script are embedded side by side:
    - [Legacy]: [src/imageOptimizer.js], with its hand-written argument loop;
    - [Commander]: the revision that declares its options with the
      [commander] package and wraps the pipeline in [main].

    What is modelled and how.
    - Paths are lists of segments of a normalised absolute POSIX path
      (the root is [[]]); Node's [path] functions act on them.
    - The input directory is a snapshot tree of directory entries; the
      output tree is a finite map from paths to nodes.  The two trees are
      taken to be disjoint.
    - The image codec ([sharp]) is an external collaborator: reading the
      metadata of a file and encoding to a destination may each throw; an
      encoded file is described by its source and the settings handed to
      the codec.
    - Exceptions are explicit: a computation ends in [Ok] or in [Throw],
      and a throw keeps the effects performed before it. *)

From Stdlib Require Import Ascii String QArith.
From stdpp Require Import gmap strings list fin_maps pretty.

Set Warnings "-register-all".

Local Open Scope string_scope.
Local Open Scope list_scope.

(* ===================================================================== *)
(** ** Strings *)
(* ===================================================================== *)

Module Str.

(** [String.prototype.toLowerCase] on the letters A-Z.  Other code units
    are kept; no code unit outside A-Z lowercases to a letter that occurs
    in the extensions compared below, so every comparison made by the
    program agrees with JavaScript's. *)
Definition lower_ascii (c : ascii) : ascii :=
  let n := nat_of_ascii c in
  if (65 <=? n)%nat && (n <=? 90)%nat then ascii_of_nat (n + 32) else c.

Fixpoint toLowerCase (s : string) : string :=
  match s with
  | EmptyString => EmptyString
  | String c r => String (lower_ascii c) (toLowerCase r)
  end.

(** [s.startsWith(p)] *)
Fixpoint startsWith (p s : string) : bool :=
  match p, s with
  | EmptyString, _ => true
  | String a p', String b s' => if decide (a = b) then startsWith p' s' else false
  | String _ _, EmptyString => false
  end.

(** [s.endsWith(p)]: [p] is [s] or ends the rest of [s]. *)
Fixpoint endsWith (p s : string) : bool :=
  bool_decide (p = s) ||
  match s with
  | EmptyString => false
  | String _ s' => endsWith p s'
  end.

Definition is_dot (c : ascii) : bool := bool_decide (c = "."%char).

(** Splits a name at its last dot: [Some (before, from_dot)]. *)
Fixpoint split_last_dot (s : string) : option (string * string) :=
  match s with
  | EmptyString => None
  | String c r =>
      match split_last_dot r with
      | Some (b, e) => Some (String c b, e)
      | None => if is_dot c then Some (EmptyString, s) else None
      end
  end.

End Str.

(* ===================================================================== *)
(** ** Node's [path] module on segment lists *)
(* ===================================================================== *)

Module Path.

Abbreviation path := (list string).

(** [path.extname] of a single path portion: from the last dot to the
    end; empty when there is no dot, when the last dot is the first
    character, and for the portion [..]. *)
Definition extname_name (name : string) : string :=
  match Str.split_last_dot name with
  | None => ""
  | Some (b, e) =>
      if decide (b = "") then ""
      else if decide (name = "..") then ""
      else e
  end.

(** [path.basename(p, suffix)] on the last portion [name] of a longer
    path [p]: the suffix is cut when it is not empty, ends the name and
    is not the whole name. *)
Definition basename_name (name suffix : string) : string :=
  if decide (suffix = "") then name
  else if decide (suffix = name) then name
  else if Str.endsWith suffix name
       then String.substring 0 (String.length name - String.length suffix) name
       else name.

(** The last portion of a path; the root has none. *)
Definition last_portion (p : path) : string := List.last p "".

Definition extname (p : path) : string := extname_name (last_portion p).

Definition basename (p : path) : string := last_portion p.

Definition basename_ext (p : path) (suffix : string) : string :=
  basename_name (last_portion p) suffix.

Definition dirname (p : path) : path := removelast p.

(** Normalisation as done by [path.join] and [path.resolve] on an
    absolute path: [.] and empty portions vanish, [..] drops the portion
    before it and stays at the root. *)
Fixpoint normalize_onto (acc : list string) (segs : list string) : list string :=
  match segs with
  | [] => acc
  | s :: rest =>
      if decide (s = "") then normalize_onto acc rest
      else if decide (s = ".") then normalize_onto acc rest
      else if decide (s = "..") then normalize_onto (removelast acc) rest
      else normalize_onto (acc ++ [s]) rest
  end.

(** [path.join(base, ...rel)] for a normalised absolute [base]. *)
Definition join (base : path) (rel : list string) : path :=
  normalize_onto base rel.

Fixpoint strip_common (from to : list string) : list string * list string :=
  match from, to with
  | a :: from', b :: to' =>
      if decide (a = b) then strip_common from' to' else (from, to)
  | _, _ => (from, to)
  end.

(** [path.relative(from, to)] between normalised absolute paths, as the
    list of portions of the result (empty for the empty string). *)
Definition relative (from to : path) : list string :=
  let '(f, t) := strip_common from to in
  ((λ _, "..") <$> f) ++ t.

(** [rel.split(path.sep).filter(Boolean)] on a relative path. *)
Definition split_filter (rel : list string) : list string :=
  filter (λ s, s ≠ "") rel.

(** Splits a string at every [/]. *)
Fixpoint split_sep_go (cur : string) (s : string) : list string :=
  match s with
  | EmptyString => [String.rev cur]
  | String c r =>
      if decide (c = "/"%char) then String.rev cur :: split_sep_go "" r
      else split_sep_go (String c cur) r
  end.
Definition split_sep (s : string) : list string := split_sep_go "" s.

(** [path.resolve(s)] with the working directory [cwd]. *)
Definition resolve (cwd : path) (s : string) : path :=
  if Str.startsWith "/" s then normalize_onto [] (split_sep s)
  else normalize_onto cwd (split_sep s).

(** A name returned by [readdir]: not empty, not [.] or [..]. *)
Definition valid_name (s : string) : Prop := s ≠ "" ∧ s ≠ "." ∧ s ≠ "..".

Global Instance valid_name_dec s : Decision (valid_name s) :=
  (_ : Decision (s ≠ "" ∧ s ≠ "." ∧ s ≠ "..")).

End Path.

(* ===================================================================== *)
(** ** JavaScript numbers *)
(* ===================================================================== *)

Module Js.

(** A Number: not-a-number, an infinity, or a finite value (every finite
    double is a rational). *)
Inductive number :=
| NaN
| Infinity (negative : bool)
| Finite (q : Q).

Definition of_Z (z : Z) : number := Finite (inject_Z z).

(** [Number.isFinite] *)
Definition isFinite (v : number) : bool :=
  match v with Finite _ => true | _ => false end.

(** [Number.isInteger] *)
Definition isInteger (v : number) : bool :=
  match v with
  | Finite q => (Z.pos (Qden (Qred q)) =? 1)%Z
  | _ => false
  end.

Definition Qltb (x y : Q) : bool :=
  (Qnum x * Z.pos (Qden y) <? Qnum y * Z.pos (Qden x))%Z.

(** [a < b]; any comparison with NaN is false. *)
Definition lt (a b : number) : bool :=
  match a, b with
  | NaN, _ | _, NaN => false
  | Finite x, Finite y => Qltb x y
  | Infinity true, Infinity true => false
  | Infinity true, _ => true
  | _, Infinity true => false
  | Infinity false, _ => false
  | Finite _, Infinity false => true
  end.

(** [a > b] *)
Definition gt (a b : number) : bool := lt b a.

(** The value lies in the closed range from 1 to 100. *)
Definition in_1_100 (v : number) : Prop :=
  ∃ q, v = Finite q ∧ (1 <= q)%Q ∧ (q <= 100)%Q.

End Js.

(* ===================================================================== *)
(** ** The codec, the output tree and the effects of a run *)
(* ===================================================================== *)

Module Rt.
Import Path.

(** [await image.metadata()]: the width may be undefined. *)
Record Metadata := { width : option N }.

(** The options object given to [image.resize]. *)
Record ResizeOptions := { resize_width : option N }.

(** The options objects given to [pipeline.png] and [pipeline.jpeg]; a
    key that is not written is [None]. *)
Record PngOptions := {
  png_quality : option Js.number;
  png_palette : option bool;
  png_compressionLevel : option N;
  png_adaptiveFiltering : option bool }.

Record JpegOptions := {
  jpeg_quality : option Js.number;
  jpeg_mozjpeg : option bool }.

Inductive Encoder :=
| ToPng (o : PngOptions)
| ToJpeg (o : JpegOptions).

(** A codec pipeline: [sharp(source).resize(r)] followed by one encoder. *)
Record Pipeline := {
  source : path;
  resize : ResizeOptions;
  encoder : option Encoder }.


(** What a file of the output tree holds: something that was there
    before the run, or the result of a pipeline. *)
Inductive Content :=
| Blob (id : N)
| Rendered (p : Pipeline).

Inductive Node :=
| Dir
| File (c : Content).

Inductive Error :=
| ENOENT (p : path)
| ENOTDIR (p : path)
| EEXIST (p : path)
| EISDIR (p : path)
| CodecError (message : string)
| TypeError (message : string)
| JsError (message : string).

(** The calls that reach the file system or the codec, in order. *)
Inductive Event :=
| EvReaddir (p : path)
| EvRm (p : path)
| EvMkdir (p : path)
| EvMetadata (src : path)
| EvToFile (pl : Pipeline) (dest : path).

Inductive Status :=
| StatusPng (q : Js.number)
| StatusPngLossless (text : string)
| StatusJpeg (q : Js.number).

(** Lines written with [console.log] and [console.error]: the report
    of a file that was written, the report of a failure, the message
    for a missing input directory, the message of [main().catch], the
    last line of the script, and fixed texts. *)
Inductive LogLine :=
| LogDone (src dest : list string) (status : Status) (renameNote : string)
| LogFailed (filePath : path) (e : Error)
| LogInputMissing (srcDir : path)
| LogFatal (e : Error)
| LogFinished (text : string) (destDir : path)
| LogOut (text : string)
| LogErr (text : string).

Record State := {
  out : gmap path Node;
  counters : gmap string N;
  console : list LogLine;
  trace : list Event }.

Definition set_out (f : gmap path Node → gmap path Node) (st : State) : State :=
  {| out := f (out st); counters := counters st;
     console := console st; trace := trace st |}.
Definition set_counters (c : gmap string N) (st : State) : State :=
  {| out := out st; counters := c; console := console st; trace := trace st |}.
Definition emit (e : Event) (st : State) : State :=
  {| out := out st; counters := counters st;
     console := console st; trace := trace st ++ [e] |}.
Definition print (l : LogLine) (st : State) : State :=
  {| out := out st; counters := counters st;
     console := console st ++ [l]; trace := trace st |}.

(** An entry of the input snapshot, as [readdir] with [withFileTypes]
    reports it: a regular file, a directory, or anything else (a
    symbolic link, a socket, ...). *)
Inductive Entry :=
| EntFile (name : string)
| EntDir (name : string) (entries : list Entry)
| EntOther (name : string).

Definition entry_name (e : Entry) : string :=
  match e with
  | EntFile n | EntDir n _ | EntOther n => n
  end.

(** What is found at the input directory. *)
Inductive SrcNode :=
| SrcMissing
| SrcNotDir
| SrcDir (entries : list Entry).

(** Everything the run reads from outside. *)
Record World := {
  cwd : path;
  input : SrcNode;
  metadata_of : path → Error + Metadata;
  encode_error : Pipeline → option Error;
  confirm : bool;
  initial_out : gmap path Node }.

Definition initial_state (w : World) : State :=
  {| out := initial_out w; counters := ∅; console := []; trace := [] |}.

(** The module-level variables that the argument parser sets. *)
Record Flags := {
  jpegQuality : Js.number;
  compressPNG : bool;
  pngQuality : Js.number;
  renameFiles : bool;
  forceDelete : bool }.

Record Config := {
  flags : Flags;
  srcDir : path;
  destDir : path }.

(** How the process ends: [process.exit(code)], an exception that
    nothing catches, or the end of the script. *)
Inductive Ending :=
| Exited (code : Z)
| Crashed (e : Error)
| Finished.

Record Run := { ending : Ending; final : State }.

(** *** Computations with state and exceptions *)

Inductive Outcome (A : Type) :=
| Ok (a : A) (st : State)
| Throw (e : Error) (st : State).
Arguments Ok {A} a st.
Arguments Throw {A} e st.

Definition M (A : Type) := State → Outcome A.

Definition ret {A} (a : A) : M A := λ st, Ok a st.
Definition bind {A B} (m : M A) (k : A → M B) : M B :=
  λ st, match m st with
        | Ok a st' => k a st'
        | Throw e st' => Throw e st'
        end.
Definition throw {A} (e : Error) : M A := λ st, Throw e st.
Definition modify (f : State → State) : M unit := λ st, Ok tt (f st).
Definition get : M State := λ st, Ok st st.

(** [try { body } catch (err) { handler(err) }] *)
Definition try_catch {A} (body : M A) (handler : Error → M A) : M A :=
  λ st, match body st with
        | Ok a st' => Ok a st'
        | Throw e st' => handler e st'
        end.

(** [for (const x of l) await f(x)] *)
Definition forEach {A} (f : A → M unit) : list A → M unit :=
  fix go (l : list A) : M unit :=
    match l with
    | [] => ret tt
    | x :: l' => bind (f x) (λ _, go l')
    end.

Definition final_state {A} (o : Outcome A) : State :=
  match o with Ok _ st | Throw _ st => st end.

(** *** [fs] and [sharp] calls *)

Fixpoint prefixes (p : path) : list path :=
  [] :: match p with
        | [] => []
        | s :: r => (cons s) <$> prefixes r
        end.

Definition is_file (m : gmap path Node) (p : path) : bool :=
  match m !! p with Some (File _) => true | _ => false end.

Definition is_dir (m : gmap path Node) (p : path) : bool :=
  match m !! p with Some Dir => true | _ => false end.

(** [existsSync(p)] *)
Definition existsSync (m : gmap path Node) (p : path) : bool :=
  bool_decide (is_Some (m !! p)).

Definition mkdirs (p : path) (m : gmap path Node) : gmap path Node :=
  foldr (λ q acc, <[q := Dir]> acc) m (prefixes p).

(** [fs.mkdir(p, { recursive: true })]: creates [p] and the missing
    directories above it; throws when a regular file is in the way, at
    [p] itself ([EEXIST]) or above it ([ENOTDIR]). *)
Definition fs_mkdir (p : path) : M unit :=
  λ st,
    let st := emit (EvMkdir p) st in
    match List.find (is_file (out st)) (prefixes p) with
    | Some q => Throw (if decide (q = p) then EEXIST p else ENOTDIR q) st
    | None => Ok tt (set_out (mkdirs p) st)
    end.

(** The names [fs.readdir(p)] returns for the output tree. *)
Definition child_names (m : gmap path Node) (p : path) : list string :=
  omap (λ kv, if decide (kv.1 ≠ [] ∧ dirname kv.1 = p)
              then Some (last_portion kv.1) else None)
       (map_to_list m).

Definition fs_readdir_out (p : path) : M (list string) :=
  λ st,
    let st := emit (EvReaddir p) st in
    match out st !! p with
    | Some Dir => Ok (child_names (out st) p) st
    | Some (File _) => Throw (ENOTDIR p) st
    | None => Throw (ENOENT p) st
    end.

Definition remove_tree (p : path) (m : gmap path Node) : gmap path Node :=
  filter (λ kv, ¬ p `prefix_of` kv.1) m.

(** [fs.rm(p, { recursive: true, force: true })] *)
Definition fs_rm (p : path) : M unit :=
  modify (λ st, set_out (remove_tree p) (emit (EvRm p) st)).

(** [await image.metadata()] *)
Definition sharp_metadata (w : World) (src : path) : M Metadata :=
  λ st,
    let st := emit (EvMetadata src) st in
    match metadata_of w src with
    | inl e => Throw e st
    | inr meta => Ok meta st
    end.

(** [await pipeline.toFile(dest)]: the destination must not be a
    directory and must lie in an existing directory; the codec either
    fails, leaving the tree as it is, or writes the whole file. *)
Definition sharp_toFile (w : World) (pl : Pipeline) (dest : path) : M unit :=
  λ st,
    let st := emit (EvToFile pl dest) st in
    if is_dir (out st) dest then Throw (EISDIR dest) st
    else if negb (is_dir (out st) (dirname dest)) then Throw (ENOENT dest) st
    else match encode_error w pl with
         | Some e => Throw e st
         | None => Ok tt (set_out (insert dest (File (Rendered pl))) st)
         end.

(** [fs.readdir(dir, { withFileTypes: true })] on the input snapshot:
    the call is recorded, the entries are those of the snapshot. *)
Definition fs_readdir_in (dir : path) : M unit :=
  modify (emit (EvReaddir dir)).

(** The template literal [`${idx}`] of an index, [null] included. *)
Definition render_index (idx : option N) : string :=
  match idx with
  | Some n => pretty n
  | None => "null"
  end.

Definition SUPPORTED_EXT : gset string :=
  {[ ".jpg"; ".jpeg"; ".png"; ".webp"; ".tiff"; ".gif"; ".avif"; ".bmp" ]}.

(** [counters.get(folder) || 1] *)
Definition counter_or_1 (c : gmap string N) (folder : string) : N :=
  match c !! folder with
  | Some n => if (n =? 0)%N then 1%N else n
  | None => 1%N
  end.

End Rt.

Notation "'let!' x ':=' m 'in' k" := (Rt.bind m (λ x, k))
  (at level 10, x name, m at level 100, k at level 200).
Notation "m >>> k" := (Rt.bind m (λ _, k))
  (at level 90, right associativity).

(* ===================================================================== *)
(** ** [src/imageOptimizer.js] *)
(* ===================================================================== *)

Module Legacy.
Import Path Rt.

Inductive Parsed :=
| Proceed (f : Flags) (posArgs : list string)
| Exit (code : Z) (lines : list LogLine).

Definition defaults : Flags :=
  {| jpegQuality := Js.of_Z 75; compressPNG := false;
     pngQuality := Js.of_Z 80; renameFiles := false; forceDelete := false |}.

Definition usage : string :=
  "Usage: node imageOptimizer.js [inputDir] [outputDir] [options]".

(** [showHelp()]: prints the usage and calls [process.exit()]. *)
Definition showHelp (before : list LogLine) : Parsed :=
  Exit 0 (before ++ [LogOut usage]).

Section Parsing.
(** The conversion of a string to a Number, with its rounding to a
    double, belongs to the language. *)
Variable StringToNumber : string → Js.number.

(** [Number(argv[++i])]; past the end the element is undefined. *)
Definition Number (v : option string) : Js.number :=
  match v with
  | Some s => StringToNumber s
  | None => Js.NaN
  end.

(** [!Number.isFinite(val) || val < 1 || val > 100] *)
Definition rejected (val : Js.number) : bool :=
  negb (Js.isFinite val) || Js.lt val (Js.of_Z 1) || Js.gt val (Js.of_Z 100).

Definition set_jpegQuality (val : Js.number) (f : Flags) : Flags :=
  {| jpegQuality := val; compressPNG := compressPNG f;
     pngQuality := pngQuality f; renameFiles := renameFiles f;
     forceDelete := forceDelete f |}.
Definition set_pngQuality (val : Js.number) (f : Flags) : Flags :=
  {| jpegQuality := jpegQuality f; compressPNG := true;
     pngQuality := val; renameFiles := renameFiles f;
     forceDelete := forceDelete f |}.
Definition set_compressPNG (f : Flags) : Flags :=
  {| jpegQuality := jpegQuality f; compressPNG := true;
     pngQuality := pngQuality f; renameFiles := renameFiles f;
     forceDelete := forceDelete f |}.
Definition set_renameFiles (f : Flags) : Flags :=
  {| jpegQuality := jpegQuality f; compressPNG := compressPNG f;
     pngQuality := pngQuality f; renameFiles := true;
     forceDelete := forceDelete f |}.
Definition set_forceDelete (f : Flags) : Flags :=
  {| jpegQuality := jpegQuality f; compressPNG := compressPNG f;
     pngQuality := pngQuality f; renameFiles := renameFiles f;
     forceDelete := true |}.

(** The body of the case of [-q] and [--quality]. *)
Definition case_quality (val : Js.number) (f : Flags)
    (continue : Flags → Parsed) : Parsed :=
  if rejected val then Exit 1 [LogErr "JPEG quality must be 1–100"]
  else continue (set_jpegQuality val f).

(** The body of the case of [-P] and [--png-quality]. *)
Definition case_png_quality (val : Js.number) (f : Flags)
    (continue : Flags → Parsed) : Parsed :=
  if rejected val then Exit 1 [LogErr "PNG quality must be 1–100"]
  else continue (set_pngQuality val f).

(** The loop over [argv]. *)
Fixpoint parseArgs (argv : list string) (f : Flags) (posArgs : list string)
    : Parsed :=
  match argv with
  | [] => Proceed f posArgs
  | arg :: rest =>
      if Str.startsWith "-" arg then
        if decide (arg = "-q" ∨ arg = "--quality") then
          match rest with
          | [] => case_quality (Number None) f (λ f', Proceed f' posArgs)
          | v :: rest' =>
              case_quality (Number (Some v)) f (λ f', parseArgs rest' f' posArgs)
          end
        else if decide (arg = "-P" ∨ arg = "--png-quality") then
          match rest with
          | [] => case_png_quality (Number None) f (λ f', Proceed f' posArgs)
          | v :: rest' =>
              case_png_quality (Number (Some v)) f
                (λ f', parseArgs rest' f' posArgs)
          end
        else if decide (arg = "--compress-png") then
          parseArgs rest (set_compressPNG f) posArgs
        else if decide (arg = "--rename") then
          parseArgs rest (set_renameFiles f) posArgs
        else if decide (arg = "--force-delete") then
          parseArgs rest (set_forceDelete f) posArgs
        else if decide (arg = "-h" ∨ arg = "--help") then
          showHelp []
        else
          showHelp [LogErr ("Unknown option: " +:+ arg)]
      else parseArgs rest f (posArgs ++ [arg])
  end.

End Parsing.

(** [path.resolve(posArgs[i] ?? fallback)] *)
Definition resolve_arg (cwd : path) (posArgs : list string) (i : nat)
    (fallback : string) : path :=
  resolve cwd (default fallback (posArgs !! i)).

Definition config (cwd : path) (f : Flags) (posArgs : list string) : Config :=
  {| flags := f;
     srcDir := resolve_arg cwd posArgs 0 "input";
     destDir := resolve_arg cwd posArgs 1 "output" |}.

(** [meta.width && meta.width > 1920 ? 1920 : undefined] *)
Definition resize_target (meta : Metadata) : option N :=
  match width meta with
  | Some wd => if (wd =? 0)%N then None
               else if (1920 <? wd)%N then Some 1920%N else None
  | None => None
  end.

Section Pipeline.
Variable w : World.
Variable cfg : Config.

(** [askYesNo(question)]: the answer of the user. *)
Definition askYesNo : M bool := ret (confirm w).

(** "Handle existing output dir", up to [fs.mkdir(destDir)]. *)
Definition prepareOutput : M unit :=
  (let! st := get in
   if existsSync (out st) (destDir cfg) then
     let! files := fs_readdir_out (destDir cfg) in
     if (0 <? length files)%nat then
       let! doDelete :=
         (if forceDelete (flags cfg) then ret (forceDelete (flags cfg))
          else askYesNo) in
       if doDelete then
         fs_rm (destDir cfg) >>>
         modify (print (LogOut "Previous optimised images deleted."))
       else ret tt
     else ret tt
   else ret tt) >>>
  fs_mkdir (destDir cfg).

Definition nextIndex (folder : string) : M N :=
  λ st,
    let n := counter_or_1 (counters st) folder in
    Ok n (set_counters (<[folder := (n + 1)%N]> (counters st)) st).

(** The values [optimiseImage] computes before it touches the codec. *)
Definition relDir_of (filePath : path) : list string :=
  relative (srcDir cfg) (dirname filePath).

Definition top_of (filePath : path) : string :=
  match split_filter (relDir_of filePath) with
  | [] => basename (srcDir cfg)
  | t :: _ => t
  end.

Definition baseName_of (filePath : path) : string :=
  basename_ext filePath (extname filePath).

Definition newBase_of (filePath : path) (idx : option N) : string :=
  if renameFiles (flags cfg)
  then top_of filePath +:+ "-" +:+ render_index idx
  else baseName_of filePath.

Definition destExt_of (ext : string) : string :=
  if decide (ext = ".png") then ".png" else ".jpg".

Definition destPath_of (filePath : path) (ext : string) (idx : option N) : path :=
  join (destDir cfg)
       (relDir_of filePath ++ [newBase_of filePath idx +:+ destExt_of ext]).

Definition encoder_of (ext : string) : Encoder :=
  if decide (ext = ".png") then
    if compressPNG (flags cfg)
    then ToPng {| png_quality := Some (pngQuality (flags cfg));
                  png_palette := Some true;
                  png_compressionLevel := Some 9%N;
                  png_adaptiveFiltering := None |}
    else ToPng {| png_quality := None;
                  png_palette := None;
                  png_compressionLevel := Some 9%N;
                  png_adaptiveFiltering := Some true |}
  else ToJpeg {| jpeg_quality := Some (jpegQuality (flags cfg));
                 jpeg_mozjpeg := Some true |}.

Definition pipeline_of (filePath : path) (ext : string) (meta : Metadata)
    : Pipeline :=
  {| source := filePath;
     resize := {| resize_width := resize_target meta |};
     encoder := Some (encoder_of ext) |}.

Definition status_of (ext : string) : Status :=
  if decide (ext = ".png") then
    if compressPNG (flags cfg) then StatusPng (pngQuality (flags cfg))
    else StatusPngLossless "PNG lossless"
  else StatusJpeg (jpegQuality (flags cfg)).

(** The body of the [try] block of [optimiseImage]. *)
Definition optimiseImage_body (filePath : path) (ext : string) : M unit :=
  let! idx :=
    (if renameFiles (flags cfg)
     then (let! n := nextIndex (top_of filePath) in ret (Some n))
     else ret None) in
  let destPath := destPath_of filePath ext idx in
  let! meta := sharp_metadata w filePath in
  let pipeline := pipeline_of filePath ext meta in
  fs_mkdir (dirname destPath) >>>
  sharp_toFile w pipeline destPath >>>
  modify (print (LogDone (relative (srcDir cfg) filePath)
                         (relative (destDir cfg) destPath)
                         (status_of ext)
                         (if renameFiles (flags cfg) then ", renamed" else ""))).

Definition optimiseImage (filePath : path) (ext : string) : M unit :=
  try_catch (optimiseImage_body filePath ext)
            (λ err, modify (print (LogFailed filePath err))).

(** The body of the [for] loop of [processDir], for one entry of
    [dir]; the recursive call of [processDir] on a subdirectory reads
    its entries and runs the loop on them. *)
Fixpoint processEntry (dir : path) (entry : Entry) {struct entry} : M unit :=
  let fullPath := join dir [entry_name entry] in
  match entry with
  | EntDir _ sub =>
      let rel := relative (srcDir cfg) fullPath in
      fs_mkdir (join (destDir cfg) rel) >>>
      (fs_readdir_in fullPath >>> forEach (processEntry fullPath) sub)
  | EntFile name =>
      let ext := Str.toLowerCase (extname_name name) in
      if decide (ext ∈ SUPPORTED_EXT) then optimiseImage fullPath ext
      else ret tt
  | EntOther _ => ret tt
  end.

(** [processDir(dir)], with the entries [readdir] finds in [dir]. *)
Definition processDir (dir : path) (entries : list Entry) : M unit :=
  fs_readdir_in dir >>> forEach (processEntry dir) entries.

(** The script from "Handle existing output dir" to its last line. *)
Definition pipeline : M unit :=
  prepareOutput >>>
  match input w with
  | SrcDir entries => processDir (srcDir cfg) entries
  | _ => (fs_readdir_in (srcDir cfg) >>> throw (ENOTDIR (srcDir cfg)))
  end >>>
  modify (print (LogFinished "Done! Optimised images are in:" (destDir cfg))).

End Pipeline.

(** The whole script. *)
Definition program (StringToNumber : string → Js.number) (w : World)
    (argv : list string) : Run :=
  let st0 := initial_state w in
  match parseArgs StringToNumber argv defaults [] with
  | Exit code lines =>
      {| ending := Exited code; final := foldl (λ st l, print l st) st0 lines |}
  | Proceed f posArgs =>
      let cfg := config (cwd w) f posArgs in
      match input w with
      | SrcMissing =>
          {| ending := Exited 1;
             final := print (LogInputMissing (srcDir cfg)) st0 |}
      | _ =>
          match pipeline w cfg st0 with
          | Ok _ st => {| ending := Finished; final := st |}
          | Throw e st => {| ending := Crashed e; final := st |}
          end
      end
  end.

End Legacy.

(* ===================================================================== *)
(** ** The revision built on [commander] *)
(* ===================================================================== *)

Module Commander.
Import Path Rt.

(** [program.opts()] *)
Module Opts.
Record Options := {
  quality : Js.number;
  compressPng : bool;
  pngQuality : Js.number;
  rename : bool;
  forceDelete : bool }.
End Opts.
Export Opts (Options).

(** One option found on the command line by [commander], with the raw
    text of its value.  How the library cuts [process.argv] into options
    and operands is its own business; the script declares what each
    option does. *)
Inductive Occurrence :=
| OptQuality (raw : string)
| OptCompressPng
| OptPngQuality (raw : string)
| OptRename
| OptForceDelete.

(** The command line as [commander] reads it: the options in order, and
    [program.args], the operands that are left. *)
Record CommandLine := {
  occurrences : list Occurrence;
  args : list string }.

(** The defaults declared with [.option(...)]. *)
Definition declared_defaults : Options :=
  {| Opts.quality := Js.of_Z 75; Opts.compressPng := false;
     Opts.pngQuality := Js.of_Z 80; Opts.rename := false; Opts.forceDelete := false |}.

Section Parsing.
Variable StringToNumber : string → Js.number.

(** [parseIntegerInRange(min, max)(value)] *)
Definition parseIntegerInRange (min max : Z) (value : string)
    : Error + Js.number :=
  let parsed := StringToNumber value in
  if negb (Js.isInteger parsed) || Js.lt parsed (Js.of_Z min)
     || Js.gt parsed (Js.of_Z max)
  then inl (JsError ("Value must be an integer between " +:+ pretty min
                     +:+ " and " +:+ pretty max))
  else inr parsed.

(** What [program.parse] does with one option: the custom parser of a
    value option is run on the raw text and its result stored under
    the key of that option; a boolean option stores [true]. *)
Definition apply_occurrence (o : Occurrence) (opts : Options)
    : Error + Options :=
  match o with
  | OptQuality raw =>
      match parseIntegerInRange 1 100 raw with
      | inl e => inl e
      | inr v => inr {| Opts.quality := v; Opts.compressPng := Opts.compressPng opts;
                        Opts.pngQuality := Opts.pngQuality opts;
                        Opts.rename := Opts.rename opts;
                        Opts.forceDelete := Opts.forceDelete opts |}
      end
  | OptCompressPng =>
      inr {| Opts.quality := Opts.quality opts; Opts.compressPng := true;
             Opts.pngQuality := Opts.pngQuality opts;
             Opts.rename := Opts.rename opts;
             Opts.forceDelete := Opts.forceDelete opts |}
  | OptPngQuality raw =>
      match parseIntegerInRange 1 100 raw with
      | inl e => inl e
      | inr v => inr {| Opts.quality := Opts.quality opts;
                        Opts.compressPng := Opts.compressPng opts;
                        Opts.pngQuality := v;
                        Opts.rename := Opts.rename opts;
                        Opts.forceDelete := Opts.forceDelete opts |}
      end
  | OptRename =>
      inr {| Opts.quality := Opts.quality opts; Opts.compressPng := Opts.compressPng opts;
             Opts.pngQuality := Opts.pngQuality opts;
             Opts.rename := true;
             Opts.forceDelete := Opts.forceDelete opts |}
  | OptForceDelete =>
      inr {| Opts.quality := Opts.quality opts; Opts.compressPng := Opts.compressPng opts;
             Opts.pngQuality := Opts.pngQuality opts;
             Opts.rename := Opts.rename opts;
             Opts.forceDelete := true |}
  end.

(** [program.parse(process.argv)] followed by [program.opts()] *)
Fixpoint parse_options (os : list Occurrence) (opts : Options)
    : Error + Options :=
  match os with
  | [] => inr opts
  | o :: rest =>
      match apply_occurrence o opts with
      | inl e => inl e
      | inr opts' => parse_options rest opts'
      end
  end.

End Parsing.

(** The assignments to [jpegQuality], [compressPNG], [pngQuality],
    [renameFiles] and [forceDelete]. *)
Definition flags_of (options : Options) : Flags :=
  {| jpegQuality := Opts.quality options;
     compressPNG := Opts.compressPng options || false;
     pngQuality := Opts.pngQuality options;
     renameFiles := Opts.rename options;
     forceDelete := Opts.forceDelete options |}.

(** [path.resolve(raw)] where [raw] is an element of [program.args]:
    an undefined argument is a type error. *)
Definition resolve_raw (cwd : path) (raw : option string) : Error + path :=
  match raw with
  | Some s => inr (resolve cwd s)
  | None => inl (TypeError "The paths[0] argument must be of type string")
  end.

Section Pipeline.
Variable w : World.
Variable cfg : Config.

Definition askYesNo : M bool := ret (confirm w).

Definition getNextIndex (folder : string) : M N :=
  λ st,
    let current := counter_or_1 (counters st) folder in
    Ok current (set_counters (<[folder := (current + 1)%N]> (counters st)) st).

Definition relativeDir_of (filePath : path) : list string :=
  relative (srcDir cfg) (dirname filePath).

Definition topFolder_of (filePath : path) : string :=
  match split_filter (relativeDir_of filePath) with
  | [] => basename (srcDir cfg)
  | t :: _ => t
  end.

Definition originalName_of (filePath : path) : string :=
  basename_ext filePath (extname filePath).

Definition baseName_of (filePath : path) (index : option N) : string :=
  if renameFiles (flags cfg)
  then topFolder_of filePath +:+ "-" +:+ render_index index
  else originalName_of filePath.

Definition sourceExt_of (filePath : path) : string :=
  Str.toLowerCase (extname filePath).

Definition targetExt_of (filePath : path) : string :=
  if decide (sourceExt_of filePath = ".png") then ".png" else ".jpg".

Definition destinationPath_of (filePath : path) (index : option N) : path :=
  join (destDir cfg)
       (relativeDir_of filePath
          ++ [baseName_of filePath index +:+ targetExt_of filePath]).

(** [resizeOptions]: the width is set only above 1920. *)
Definition resizeOptions_of (metadata : Metadata) : ResizeOptions :=
  let resizeOptions := {| resize_width := None |} in
  match width metadata with
  | Some wd =>
      if negb (wd =? 0)%N && (1920 <? wd)%N
      then {| resize_width := Some 1920%N |}
      else resizeOptions
  | None => resizeOptions
  end.

Definition encoder_of (filePath : path) : Encoder :=
  if decide (sourceExt_of filePath = ".png") then
    if compressPNG (flags cfg)
    then ToPng {| png_quality := Some (pngQuality (flags cfg));
                  png_palette := Some true;
                  png_compressionLevel := Some 9%N;
                  png_adaptiveFiltering := None |}
    else ToPng {| png_quality := None;
                  png_palette := None;
                  png_compressionLevel := Some 9%N;
                  png_adaptiveFiltering := Some true |}
  else ToJpeg {| jpeg_quality := Some (jpegQuality (flags cfg));
                 jpeg_mozjpeg := Some true |}.

Definition pipeline_of (filePath : path) (metadata : Metadata) : Pipeline :=
  {| source := filePath;
     resize := resizeOptions_of metadata;
     encoder := Some (encoder_of filePath) |}.

Definition status_of (filePath : path) : Status :=
  if decide (sourceExt_of filePath = ".png") then
    if compressPNG (flags cfg) then StatusPng (pngQuality (flags cfg))
    else StatusPngLossless "PNG (lossless)"
  else StatusJpeg (jpegQuality (flags cfg)).

(** The body of the [try] block of [optimiseImage]. *)
Definition optimiseImage_body (filePath : path) : M unit :=
  let! index :=
    (if renameFiles (flags cfg)
     then (let! n := getNextIndex (topFolder_of filePath) in ret (Some n))
     else ret None) in
  let destinationPath := destinationPath_of filePath index in
  fs_mkdir (dirname destinationPath) >>>
  let! metadata := sharp_metadata w filePath in
  let pipeline := pipeline_of filePath metadata in
  sharp_toFile w pipeline destinationPath >>>
  modify (print (LogDone (relative (srcDir cfg) filePath)
                         (relative (destDir cfg) destinationPath)
                         (status_of filePath)
                         (if renameFiles (flags cfg) then ", renamed" else ""))).

Definition optimiseImage (filePath : path) : M unit :=
  try_catch (optimiseImage_body filePath)
            (λ err, modify (print (LogFailed filePath err))).

(** The body of the [for] loop of [processDirectory]. *)
Fixpoint processEntry (directory : path) (entry : Entry) {struct entry}
    : M unit :=
  let fullPath := join directory [entry_name entry] in
  match entry with
  | EntDir _ sub =>
      let relSubdir := relative (srcDir cfg) fullPath in
      fs_mkdir (join (destDir cfg) relSubdir) >>>
      (fs_readdir_in fullPath >>> forEach (processEntry fullPath) sub)
  | EntFile name =>
      let ext := Str.toLowerCase (extname_name name) in
      if decide (ext ∈ SUPPORTED_EXT) then optimiseImage fullPath
      else ret tt
  | EntOther _ => ret tt
  end.

Definition processDirectory (directory : path) (entries : list Entry) : M unit :=
  fs_readdir_in directory >>> forEach (processEntry directory) entries.

(** "Handle existing output directory" and "Create (or re-create) the
    output directory" in [main]. *)
Definition prepareOutput : M unit :=
  (let! st := get in
   if existsSync (out st) (destDir cfg) then
     let! existingFiles := fs_readdir_out (destDir cfg) in
     if (0 <? length existingFiles)%nat then
       let! shouldDelete :=
         (if forceDelete (flags cfg) then ret (forceDelete (flags cfg))
          else askYesNo) in
       if shouldDelete then
         fs_rm (destDir cfg) >>>
         modify (print (LogOut "Previous optimized images deleted."))
       else ret tt
     else ret tt
   else ret tt) >>>
  fs_mkdir (destDir cfg).

(** [main()] once the input directory is known to exist. *)
Definition main_body : M unit :=
  prepareOutput >>>
  match input w with
  | SrcDir entries => processDirectory (srcDir cfg) entries
  | _ => (fs_readdir_in (srcDir cfg) >>> throw (ENOTDIR (srcDir cfg)))
  end >>>
  modify (print (LogFinished "✅ Done! Optimized images are in:" (destDir cfg))).

(** [main().catch(...)] *)
Definition main (st0 : State) : Run :=
  match input w with
  | SrcMissing =>
      {| ending := Exited 1;
         final := print (LogInputMissing (srcDir cfg)) st0 |}
  | _ =>
      match main_body st0 with
      | Ok _ st => {| ending := Finished; final := st |}
      | Throw e st =>
          {| ending := Exited 1; final := print (LogFatal e) st |}
      end
  end.

End Pipeline.

(** The whole script. *)
Definition program (StringToNumber : string → Js.number) (w : World)
    (cl : CommandLine) : Run :=
  let st0 := initial_state w in
  match parse_options StringToNumber (occurrences cl) declared_defaults with
  | inl e => {| ending := Crashed e; final := st0 |}
  | inr options =>
      match resolve_raw (cwd w) (args cl !! 0%nat) with
      | inl e => {| ending := Crashed e; final := st0 |}
      | inr src =>
          match resolve_raw (cwd w) (args cl !! 1%nat) with
          | inl e => {| ending := Crashed e; final := st0 |}
          | inr dest =>
              main w {| flags := flags_of options; srcDir := src; destDir := dest |}
                   st0
          end
      end
  end.

End Commander.

(* ===================================================================== *)
(** ** Notions used to state the properties *)
(* ===================================================================== *)

Module Spec.
Import Path Rt.

(** The entry [e] lies in the snapshot at the relative directory [r]. *)
Inductive occurs : list Entry → list string → Entry → Prop :=
| occurs_here (es : list Entry) (e : Entry) :
    e ∈ es → occurs es [] e
| occurs_below (es : list Entry) (name : string) (sub : list Entry)
      (r : list string) (e : Entry) :
    EntDir name sub ∈ es → occurs sub r e → occurs es (name :: r) e.

(** Every name of the snapshot is one that [readdir] can return. *)
Fixpoint valid_entry (e : Entry) : bool :=
  bool_decide (valid_name (entry_name e)) &&
  match e with
  | EntDir _ sub => forallb valid_entry sub
  | _ => true
  end.

Definition valid_tree (es : list Entry) : bool := forallb valid_entry es.

(** The extension of [name], lowercased, is one of the supported ones. *)
Definition supported (name : string) : Prop :=
  Str.toLowerCase (extname_name name) ∈ SUPPORTED_EXT.

(** The supported regular files below [rel], as relative paths, in the
    order of the walk. *)
Fixpoint files_of_entry (rel : list string) (e : Entry) : list (list string) :=
  match e with
  | EntFile name => if decide (supported name) then [rel ++ [name]] else []
  | EntDir name sub => flat_map (files_of_entry (rel ++ [name])) sub
  | EntOther _ => []
  end.

Definition files_of (rel : list string) (es : list Entry) : list (list string) :=
  flat_map (files_of_entry rel) es.

(** The index [optimiseImage] draws in state [st], and the counters it
    leaves. *)
Definition drawn (cfg : Config) (filePath : path) (c : gmap string N) : option N :=
  if renameFiles (flags cfg)
  then Some (counter_or_1 c (Legacy.top_of cfg filePath))
  else None.

Definition bumped (cfg : Config) (filePath : path) (c : gmap string N)
    : gmap string N :=
  if renameFiles (flags cfg)
  then <[Legacy.top_of cfg filePath :=
           (counter_or_1 c (Legacy.top_of cfg filePath) + 1)%N]> c
  else c.

(** The events [optimiseImage] may leave for the file [filePath]. *)
Definition step_event (w : World) (cfg : Config) (filePath : path)
    (ext : string) (dest : path) (ev : Event) : Prop :=
  match ev with
  | EvMetadata s => s = filePath
  | EvMkdir p => p = dirname dest
  | EvToFile pl d =>
      d = dest ∧ ∃ meta, metadata_of w filePath = inr meta
                         ∧ pl = Legacy.pipeline_of cfg filePath ext meta
  | _ => False
  end.

(** One call of the per-file transcoder, seen from outside: it returns,
    prints one line, and either fails without touching a file or writes
    the destination. *)
Definition FileStep (w : World) (cfg : Config) (filePath : path)
    (ext : string) (st : State) (o : Outcome unit) : Prop :=
  let dest := Legacy.destPath_of cfg filePath ext (drawn cfg filePath (counters st)) in
  ∃ st' line evs,
    o = Ok tt st' ∧
    counters st' = bumped cfg filePath (counters st) ∧
    console st' = console st ++ [line] ∧
    trace st' = trace st ++ evs ∧
    Forall (step_event w cfg filePath ext dest) evs ∧
    (∀ k, out st !! k = Some Dir → out st' !! k = Some Dir) ∧
    ((∃ e, line = LogFailed filePath e ∧
           ∀ k c, out st' !! k = Some (File c) ↔ out st !! k = Some (File c))
     ∨ (∃ meta status note,
           metadata_of w filePath = inr meta ∧
           line = LogDone (relative (srcDir cfg) filePath)
                          (relative (destDir cfg) dest) status note ∧
           out st' = <[dest := File (Rendered (Legacy.pipeline_of cfg filePath ext meta))]>
                       (mkdirs (dirname dest) (out st)))).

(** The subdirectories below [rel], as relative paths, in the order of
    the walk. *)
Fixpoint dirs_of_entry (rel : list string) (e : Entry) : list (list string) :=
  match e with
  | EntDir name sub =>
      (rel ++ [name]) :: flat_map (dirs_of_entry (rel ++ [name])) sub
  | _ => []
  end.

Definition dirs_of (rel : list string) (es : list Entry) : list (list string) :=
  flat_map (dirs_of_entry rel) es.

(** The extension the walker hands over for the file at relative path
    [f]. *)
Definition ext_of (f : list string) : string :=
  Str.toLowerCase (extname_name (last_portion f)).

(** The line printed for the file at relative path [f] when it draws
    the index [idx]. *)
Definition report_with (cfg : Config) (idx : option N) (f : list string)
    (line : LogLine) : Prop :=
  let filePath := srcDir cfg ++ f in
  let dest := Legacy.destPath_of cfg filePath (ext_of f) idx in
  (∃ e, line = LogFailed filePath e)
  ∨ (∃ status note,
       line = LogDone (relative (srcDir cfg) filePath)
                      (relative (destDir cfg) dest) status note).

(** The line printed for the file at relative path [f] when the
    counters are [c]. *)
Definition report_line (cfg : Config) (c : gmap string N) (f : list string)
    (line : LogLine) : Prop :=
  report_with cfg (drawn cfg (srcDir cfg ++ f) c) f line.

(** The lines printed for a list of files, one each, with the counters
    before and after. *)
Inductive Reports (cfg : Config)
    : gmap string N → list (list string) → list LogLine → gmap string N → Prop :=
| Reports_nil (c : gmap string N) : Reports cfg c [] [] c
| Reports_cons (c : gmap string N) (f : list string) (line : LogLine)
      (files : list (list string)) (lines : list LogLine) (c' : gmap string N) :
    report_line cfg c f line →
    Reports cfg (bumped cfg (srcDir cfg ++ f) c) files lines c' →
    Reports cfg c (f :: files) (line :: lines) c'.

(** A part of the walk that returned: the files it handed to the
    transcoder and the directories it entered. *)
Definition Walked (cfg : Config) (files dirs : list (list string))
    (st st' : State) : Prop :=
  ∃ lines evs,
    console st' = console st ++ lines ∧
    Reports cfg (counters st) files lines (counters st') ∧
    trace st' = trace st ++ evs ∧
    (∀ d, d ∈ dirs →
          EvMkdir (destDir cfg ++ d) ∈ evs ∧ EvReaddir (srcDir cfg ++ d) ∈ evs ∧
          out st' !! (destDir cfg ++ d) = Some Dir) ∧
    (∀ k, out st !! k = Some Dir → out st' !! k = Some Dir) ∧
    (∀ k c, out st' !! k = Some (File c) →
            out st !! k = Some (File c)
            ∨ ∃ f pl, f ∈ files ∧ c = Rendered pl ∧ source pl = srcDir cfg ++ f).



(** The calls made while the output directory is prepared. *)
Definition is_prep_event (cfg : Config) (ev : Event) : Prop :=
  ev = EvReaddir (destDir cfg) ∨ ev = EvRm (destDir cfg) ∨ ev = EvMkdir (destDir cfg).

(** The calls that hand an image to the codec. *)
Definition is_transcode_event (ev : Event) : Prop :=
  (∃ src, ev = EvMetadata src) ∨ (∃ pl d, ev = EvToFile pl d).

(** The two ways a walk of the input directory is run. *)
Definition walk_of (w : World) (cfg : Config) (es : list Entry) (st : State)
    (o : Outcome unit) : Prop :=
  o = Legacy.processDir w cfg (srcDir cfg) es st
  ∨ o = Commander.processDirectory w cfg (srcDir cfg) es st.

(** The two ways the output directory is prepared. *)
Definition prepare_of (w : World) (cfg : Config) (st : State)
    (o : Outcome unit) : Prop :=
  o = Legacy.prepareOutput w cfg st ∨ o = Commander.prepareOutput w cfg st.

(** The output directory holds at least one entry. *)
Definition has_entries (m : gmap path Node) (d : path) : Prop :=
  ∃ k, is_Some (m !! k) ∧ k ≠ [] ∧ dirname k = d.

(** A run of either revision on a command line: [argv] as the
    hand-written loop reads it, [cl] as [commander] reads it. *)
Definition run_of (StringToNumber : string → Js.number) (w : World)
    (argv : list string) (cl : Commander.CommandLine) (run : Run) : Prop :=
  run = Legacy.program StringToNumber w argv
  ∨ run = Commander.program StringToNumber w cl.

(** The configuration the run resolved from the command line. *)
Definition resolved (StringToNumber : string → Js.number) (w : World)
    (argv : list string) (cl : Commander.CommandLine) (run : Run)
    (cfg : Config) : Prop :=
  (run = Legacy.program StringToNumber w argv ∧
   ∃ f posArgs,
     Legacy.parseArgs StringToNumber argv Legacy.defaults []
       = Legacy.Proceed f posArgs ∧
     cfg = Legacy.config (cwd w) f posArgs)
  ∨ (run = Commander.program StringToNumber w cl ∧
     ∃ options src dest,
       Commander.parse_options StringToNumber (Commander.occurrences cl)
         Commander.declared_defaults = inr options ∧
       Commander.resolve_raw (cwd w) (Commander.args cl !! 0%nat) = inr src ∧
       Commander.resolve_raw (cwd w) (Commander.args cl !! 1%nat) = inr dest ∧
       cfg = {| flags := Commander.flags_of options;
                srcDir := src; destDir := dest |}).

(** The output directory was prepared before the [i]-th call of the
    run: the preparation returned in a state whose trace is a prefix of
    the trace of the run that ends at or before [i], and the output
    directory exists in that state. *)
Definition prepared_before (w : World) (cfg : Config) (run : Run) (i : nat)
    : Prop :=
  ∃ st1 n,
    prepare_of w cfg (initial_state w) (Ok tt st1) ∧
    out st1 !! destDir cfg = Some Dir ∧
    trace st1 = take n (trace (final run)) ∧
    (n ≤ i)%nat.

(** Both quality settings lie in the range from 1 to 100. *)
Definition in_range (f : Flags) : Prop :=
  Js.in_1_100 (jpegQuality f) ∧ Js.in_1_100 (pngQuality f).

(** A conversion of strings to Numbers that reads unsigned decimal
    integers, the empty string as 0 and anything else as NaN, as
    [Number] does on such strings. *)
Definition digit_value (c : ascii) : option Z :=
  let n := nat_of_ascii c in
  if (48 <=? n)%nat && (n <=? 57)%nat then Some (Z.of_nat n - 48)%Z else None.

Fixpoint digits_value (acc : Z) (s : string) : option Z :=
  match s with
  | EmptyString => Some acc
  | String c r =>
      match digit_value c with
      | Some d => digits_value (10 * acc + d)%Z r
      | None => None
      end
  end.

Definition decimal_number (s : string) : Js.number :=
  match digits_value 0 s with
  | Some z => Js.of_Z z
  | None => Js.NaN
  end.






(** A computation only adds to the trace. *)
Definition grows (m : M unit) : Prop :=
  ∀ st, ∃ evs, trace (final_state (m st)) = trace st ++ evs.

(** The events added between two states of a run. *)
Definition new_events (st st' : State) : list Event :=
  drop (length (trace st)) (trace st').

(** The lines printed between two states of a run. *)
Definition new_lines (st st' : State) : list LogLine :=
  drop (length (console st)) (console st').

(** The exception of [fs.mkdir] when a regular file is in the way. *)
Definition mkdir_error (e : Error) : Prop :=
  ∃ q, e = EEXIST q ∨ e = ENOTDIR q.

(** Whatever a part of the walk does, it only adds to the trace, and the
    only exception that leaves it is that of a directory that cannot be
    created. *)
Definition Extends (st : State) (o : Outcome unit) : Prop :=
  (∃ evs, trace (final_state o) = trace st ++ evs) ∧
  (∀ e st', o = Throw e st' → mkdir_error e).

(** The top-level folder of the file at relative path [f]: the first
    directory of the path, or the name of the input directory itself for
    a file that lies directly in it. *)
Definition top_folder (cfg : Config) (f : list string) : string :=
  default (basename (srcDir cfg)) (head (dirname f)).

(** One plus the number of files among the first [i] of [files] that
    have the top-level folder of [f]. *)
Definition rank (cfg : Config) (files : list (list string)) (i : nat)
    (f : list string) : N :=
  N.of_nat (S (length (filter (λ g, top_folder cfg g = top_folder cfg f)
                              (take i files)))).


End Spec.

(** The preparation of the output directory of both revisions, with the
    text of the message left open. *)
Module Prepare.
Import Path Rt.

Definition prepare (w : World) (cfg : Config) (message : string) : M unit :=
  (let! st := get in
   if existsSync (out st) (destDir cfg) then
     let! files := fs_readdir_out (destDir cfg) in
     if (0 <? length files)%nat then
       let! doDelete :=
         (if forceDelete (flags cfg) then ret (forceDelete (flags cfg))
          else ret (confirm w)) in
       if doDelete then
         fs_rm (destDir cfg) >>> modify (print (LogOut message))
       else ret tt
     else ret tt
   else ret tt) >>>
  fs_mkdir (destDir cfg).
End Prepare.

(** The walk of both revisions, with the call of the transcoder left open. *)
Module Walk.
Import Path Rt.

Section Generic.
Variable cfg : Config.
Variable handler : path → string → M unit.

Fixpoint walkEntry (dir : path) (entry : Entry) {struct entry} : M unit :=
  let fullPath := join dir [entry_name entry] in
  match entry with
  | EntDir _ sub =>
      let rel := relative (srcDir cfg) fullPath in
      fs_mkdir (join (destDir cfg) rel) >>>
      (fs_readdir_in fullPath >>> forEach (walkEntry fullPath) sub)
  | EntFile name =>
      let ext := Str.toLowerCase (extname_name name) in
      if decide (ext ∈ SUPPORTED_EXT) then handler fullPath ext
      else ret tt
  | EntOther _ => ret tt
  end.

Definition walkDir (dir : path) (entries : list Entry) : M unit :=
  fs_readdir_in dir >>> forEach (walkEntry dir) entries.
End Generic.
End Walk.

(* ===================================================================== *)
(** ** A sample run *)
(* ===================================================================== *)

Module Sample.
Import Path Rt Spec.

(** [/home/input] holds [a.PNG], the directory [sub] with [b.webp],
    [notes.txt] and a symbolic link, and [c.jpeg], which the codec cannot
    read; [/home/output] exists and holds [old.jpg]. *)
Definition entries : list Entry :=
  [EntFile "a.PNG";
   EntDir "sub" [EntFile "b.webp"; EntFile "notes.txt"; EntOther "lnk.png"];
   EntFile "c.jpeg"].

Definition world : World :=
  {| cwd := ["home"];
     input := SrcDir entries;
     metadata_of := λ p, if decide (last_portion p = "c.jpeg")
                         then inl (CodecError "unsupported image format")
                         else inr {| width := Some 4000%N |};
     encode_error := λ _, None;
     confirm := false;
     initial_out := {[ [] := Dir; ["home"] := Dir; ["home"; "output"] := Dir;
                       ["home"; "output"; "old.jpg"] := File (Blob 1) ]} |}.

Definition config : Config :=
  {| flags := {| jpegQuality := Js.of_Z 75; compressPNG := true;
                 pngQuality := Js.of_Z 60; renameFiles := true;
                 forceDelete := true |};
     srcDir := ["home"; "input"];
     destDir := ["home"; "output"] |}.

Definition start : State := initial_state world.

(** The state after the preparation and after the walk of the
    hand-written revision. *)
Definition prepared : State :=
  final_state (Legacy.prepareOutput world config start).

Definition walked : State :=
  final_state (Legacy.processDir world config (srcDir config) entries prepared).

(** The run of the hand-written revision on
    [-P 60 --rename --force-delete]. *)
Definition argv : list string := ["-P"; "60"; "--rename"; "--force-delete"].

Definition command_line : Commander.CommandLine :=
  {| Commander.occurrences :=
       [Commander.OptPngQuality "60"; Commander.OptRename;
        Commander.OptForceDelete];
     Commander.args := ["input"; "output"] |}.

Definition run : Run := Legacy.program decimal_number world argv.

(** The pipeline handed to the codec for [a.PNG] in that run. *)
Definition pipeline : Pipeline :=
  {| source := ["home"; "input"; "a.PNG"];
     resize := {| resize_width := Some 1920%N |};
     encoder := Some (ToPng {| png_quality := Some (Js.of_Z 60);
                               png_palette := Some true;
                               png_compressionLevel := Some 9%N;
                               png_adaptiveFiltering := None |}) |}.

(** A second input directory [/home/input]: the file [b.jpg] lies
    directly in it, next to a directory that is called [input] too and
    holds [a.jpg]; [/home/output] exists and is empty. *)
Definition same_name_entries : list Entry :=
  [EntFile "b.jpg"; EntDir "input" [EntFile "a.jpg"]].

Definition same_name_world : World :=
  {| cwd := ["home"];
     input := SrcDir same_name_entries;
     metadata_of := λ _, inr {| width := Some 800%N |};
     encode_error := λ _, None;
     confirm := false;
     initial_out := {[ [] := Dir; ["home"] := Dir; ["home"; "output"] := Dir ]} |}.

Definition same_name_start : State := initial_state same_name_world.

Definition same_name_walked : State :=
  final_state (Legacy.processDir same_name_world config (srcDir config)
                 same_name_entries same_name_start).

End Sample.

(* ===================================================================== *)
(** ** The answer to the prompt *)
(* ===================================================================== *)

Module Prompt.

(** A regular expression, as far as the script writes one: a literal
    character, a sequence, [p?], [^] and [$]. *)
Inductive Pattern :=
| Chr (c : ascii)
| Seq (p q : Pattern)
| Opt (p : Pattern)
| AtStart
| AtEnd.

(** The canonical form of a code unit under the flag [i]: its upper
    case.  A code unit outside ASCII never becomes an ASCII one, so a
    byte of a longer UTF-8 sequence is left as it is. *)
Definition canonicalize (c : ascii) : ascii :=
  let n := nat_of_ascii c in
  if (97 <=? n)%nat && (n <=? 122)%nat then ascii_of_nat (n - 32) else c.

Definition same (ignoreCase : bool) (a c : ascii) : bool :=
  if ignoreCase then bool_decide (canonicalize a = canonicalize c)
  else bool_decide (a = c).

(** The positions at which a match of [p] that starts at [pos] may
    end, in the order the matcher tries them.  A position is what is
    left of the string, and whether it is still the start of it. *)
Fixpoint matches (ignoreCase : bool) (p : Pattern) (pos : bool * string)
    : list (bool * string) :=
  match p with
  | Chr c =>
      match pos.2 with
      | String a r => if same ignoreCase a c then [(false, r)] else []
      | EmptyString => []
      end
  | Seq p q => flat_map (matches ignoreCase q) (matches ignoreCase p pos)
  | Opt p => matches ignoreCase p pos ++ [pos]
  | AtStart => if pos.1 then [pos] else []
  | AtEnd => match pos.2 with EmptyString => [pos] | _ => [] end
  end.

(** [re.test(s)]: a match may start at any offset. *)
Fixpoint test_from (ignoreCase : bool) (p : Pattern) (start : bool) (s : string)
    : bool :=
  match matches ignoreCase p (start, s) with
  | _ :: _ => true
  | [] =>
      match s with
      | String _ r => test_from ignoreCase p false r
      | EmptyString => false
      end
  end.

Definition test (ignoreCase : bool) (p : Pattern) (s : string) : bool :=
  test_from ignoreCase p true s.

(** [/^y(es)?$/i] *)
Definition yes_pattern : Pattern :=
  Seq AtStart (Seq (Chr "y") (Seq (Opt (Seq (Chr "e") (Chr "s"))) AtEnd)).

Definition bytes (l : list nat) : string :=
  foldr (λ n s, String (ascii_of_nat n) s) EmptyString l.

(** The white space and the line terminators of the language, in
    UTF-8: U+0009 to U+000D, U+0020, U+00A0, U+1680, U+2000 to U+200A,
    U+2028, U+2029, U+202F, U+205F, U+3000 and U+FEFF. *)
Definition white_space : list string :=
  bytes <$> [ [9]; [10]; [11]; [12]; [13]; [32]; [194; 160]; [225; 154; 128];
              [226; 128; 128]; [226; 128; 129]; [226; 128; 130];
              [226; 128; 131]; [226; 128; 132]; [226; 128; 133];
              [226; 128; 134]; [226; 128; 135]; [226; 128; 136];
              [226; 128; 137]; [226; 128; 138]; [226; 128; 168];
              [226; 128; 169]; [226; 128; 175]; [226; 129; 159];
              [227; 128; 128]; [239; 187; 191] ].

Fixpoint drop_string (n : nat) (s : string) : string :=
  match n, s with
  | S n', String _ r => drop_string n' r
  | _, _ => s
  end.

(** Removes the white space at the start of [s]; [fuel] bounds the
    number of characters removed. *)
Fixpoint strip (spaces : list string) (fuel : nat) (s : string) : string :=
  match fuel with
  | O => s
  | S fuel' =>
      match List.find (λ ws, Str.startsWith ws s) spaces with
      | Some ws => strip spaces fuel' (drop_string (String.length ws) s)
      | None => s
      end
  end.

Definition trimStart (s : string) : string :=
  strip white_space (String.length s) s.

Definition trimEnd (s : string) : string :=
  String.rev (strip (String.rev <$> white_space) (String.length s) (String.rev s)).

(** [s.trim()] *)
Definition trim (s : string) : string := trimEnd (trimStart s).

(** What [askYesNo] returns when the user types [answer]:
    [/^y(es)?$/i.test(answer.trim())]. *)
Definition askYesNo (answer : string) : bool :=
  test true yes_pattern (trim answer).

(** The world in which the user types [answer] at the prompt. *)
Definition answering (w : Rt.World) (answer : string) : Rt.World :=
  {| Rt.cwd := Rt.cwd w; Rt.input := Rt.input w;
     Rt.metadata_of := Rt.metadata_of w; Rt.encode_error := Rt.encode_error w;
     Rt.confirm := askYesNo answer; Rt.initial_out := Rt.initial_out w |}.

End Prompt.

(* ===================================================================== *)
(** ** More notions used to state the properties *)
(* ===================================================================== *)

Module Frame.
Import Path Rt Spec.

(** Why the transcoder fails with [e] on [filePath], whose destination
    is [dest], in the state [st]: the codec cannot read the file, a
    regular file stands where the directory of the destination has to
    be, the destination is a directory, or the codec cannot write. *)
Definition failure_cause (w : World) (cfg : Config) (filePath : path)
    (ext : string) (dest : path) (st : State) (e : Error) : Prop :=
  metadata_of w filePath = inl e
  ∨ (mkdir_error e ∧
     ∃ q c, q `prefix_of` dirname dest ∧ out st !! q = Some (File c))
  ∨ (e = EISDIR dest ∧ out st !! dest = Some Dir)
  ∨ (∃ meta, metadata_of w filePath = inr meta ∧
             encode_error w (Legacy.pipeline_of cfg filePath ext meta) = Some e).

(** Nothing stands in the way of writing [filePath] to [dest]. *)
Definition writable (w : World) (cfg : Config) (filePath : path)
    (ext : string) (dest : path) (st : State) : Prop :=
  (∀ q c, q `prefix_of` dirname dest → out st !! q ≠ Some (File c)) ∧
  out st !! dest ≠ Some Dir ∧
  ∃ meta, metadata_of w filePath = inr meta ∧
          encode_error w (Legacy.pipeline_of cfg filePath ext meta) = None.

(** One call of the transcoder, with what it leaves in the tree: it
    returns and prints one line; a failure has a cause and leaves the
    tree as it was, or with the directory of the destination created;
    a success writes the destination. *)
Definition Attempt (w : World) (cfg : Config) (filePath : path)
    (ext : string) (st : State) (o : Outcome unit) : Prop :=
  let dest := Legacy.destPath_of cfg filePath ext (drawn cfg filePath (counters st)) in
  ∃ st' line,
    o = Ok tt st' ∧
    console st' = console st ++ [line] ∧
    counters st' = bumped cfg filePath (counters st) ∧
    ((∃ e, line = LogFailed filePath e ∧
           failure_cause w cfg filePath ext dest st e ∧
           (out st' = out st
            ∨ out st' = mkdirs (dirname dest) (out st) ∧
              ∀ q c, q `prefix_of` dirname dest → out st !! q ≠ Some (File c)))
     ∨ (∃ meta status note,
           line = LogDone (relative (srcDir cfg) filePath)
                          (relative (destDir cfg) dest) status note ∧
           writable w cfg filePath ext dest st ∧
           metadata_of w filePath = inr meta ∧
           out st' = <[dest := File (Rendered (Legacy.pipeline_of cfg filePath ext meta))]>
                       (mkdirs (dirname dest) (out st)))).

(** The output directory is there with at least one entry, and the
    flag or the user says to delete it. *)
Definition wipes (w : World) (cfg : Config) (st : State) : Prop :=
  is_Some (out st !! destDir cfg) ∧ has_entries (out st) (destDir cfg) ∧
  (forceDelete (flags cfg) = true ∨ confirm w = true).

(** The output directory and every directory above it are there. *)
Definition rooted (cfg : Config) (m : gmap path Node) : Prop :=
  ∀ q, q `prefix_of` destDir cfg → m !! q = Some Dir.

(** The outcome [o] of a computation started in [st] has left every
    path outside the output directory as it was, and every directory
    in place. *)
Definition Contained (cfg : Config) (st : State) (o : Outcome unit) : Prop :=
  (∀ k, ¬ destDir cfg `prefix_of` k → out (final_state o) !! k = out st !! k) ∧
  (∀ k, out st !! k = Some Dir → out (final_state o) !! k = Some Dir).

(** The directory of the output tree that mirrors the relative
    directory [r], and every directory above it, are there. *)
Definition ready (cfg : Config) (r : list string) (m : gmap path Node) : Prop :=
  ∀ q, q `prefix_of` destDir cfg ++ r → m !! q = Some Dir.

(** A line without the wording of its fixed text: the two revisions
    word the lossless status, the message after a deletion and the
    last line differently. *)
Definition wording (l : LogLine) : LogLine :=
  match l with
  | LogDone src dest (StatusPngLossless _) note =>
      LogDone src dest (StatusPngLossless "") note
  | LogFinished _ d => LogFinished "" d
  | LogOut _ => LogOut ""
  | _ => l
  end.

(** The exception an outcome ends with, if any. *)
Definition thrown {A} (o : Outcome A) : option Error :=
  match o with
  | Ok _ _ => None
  | Throw e _ => Some e
  end.

(** Two outcomes end the same way, with the same output tree and
    counters, and with the same lines up to their wording. *)
Definition Agree (o1 o2 : Outcome unit) : Prop :=
  out (final_state o1) = out (final_state o2) ∧
  counters (final_state o1) = counters (final_state o2) ∧
  wording <$> console (final_state o1) = wording <$> console (final_state o2) ∧
  thrown o1 = thrown o2.





End Frame.

(* ===================================================================== *)
(** ** More sample runs *)
(* ===================================================================== *)

Module Cases.
Import Path Rt Spec.

(** The world of the sample run without its input directory. *)
Definition no_input : World :=
  {| cwd := cwd Sample.world; input := SrcMissing;
     metadata_of := metadata_of Sample.world;
     encode_error := encode_error Sample.world;
     confirm := confirm Sample.world;
     initial_out := initial_out Sample.world |}.

(** The world of the sample run with a regular file at the input
    path. *)
Definition file_input : World :=
  {| cwd := cwd Sample.world; input := SrcNotDir;
     metadata_of := metadata_of Sample.world;
     encode_error := encode_error Sample.world;
     confirm := confirm Sample.world;
     initial_out := initial_out Sample.world |}.

(** The command line [--rename] with the single operand [input]. *)
Definition one_operand : Commander.CommandLine :=
  {| Commander.occurrences := [Commander.OptRename];
     Commander.args := ["input"] |}.

(** The configuration of the sample run without [--rename]. *)
Definition keep_names : Config :=
  {| flags := {| jpegQuality := Js.of_Z 75; compressPNG := true;
                 pngQuality := Js.of_Z 60; renameFiles := false;
                 forceDelete := true |};
     srcDir := ["home"; "input"];
     destDir := ["home"; "output"] |}.


(** The configuration of the sample run without [--force-delete]. *)
Definition ask_first : Config :=
  {| flags := {| jpegQuality := Js.of_Z 75; compressPNG := true;
                 pngQuality := Js.of_Z 60; renameFiles := true;
                 forceDelete := false |};
     srcDir := ["home"; "input"];
     destDir := ["home"; "output"] |}.

End Cases.

(* ===================================================================== *)
(** * Properties *)
(* ===================================================================== *)

Module Examples.

Example extname_ex1 : Path.extname_name "photo.final.PNG" = ".PNG".
Proof. reflexivity. Qed.
Example extname_ex2 : Path.extname_name ".png" = "".
Proof. reflexivity. Qed.
Example extname_ex3 : Path.extname_name ".." = "".
Proof. reflexivity. Qed.
Example extname_ex4 : Path.extname_name "..png" = ".png".
Proof. reflexivity. Qed.
Example extname_ex5 : Path.extname_name "a." = ".".
Proof. reflexivity. Qed.
Example basename_ex1 : Path.basename_name "photo.final.PNG" ".PNG" = "photo.final".
Proof. reflexivity. Qed.
Example relative_ex1 : Path.relative ["in"] ["in"; "a"; "b"] = ["a"; "b"].
Proof. reflexivity. Qed.
Example relative_ex2 : Path.relative ["in"; "x"] ["in"; "a"] = [".."; "a"].
Proof. reflexivity. Qed.
Example resolve_ex1 : Path.resolve ["home"; "u"] "./photos/../raw" = ["home"; "u"; "raw"].
Proof. reflexivity. Qed.
Example lower_ex1 : Str.toLowerCase ".JpEg" = ".jpeg".
Proof. reflexivity. Qed.

End Examples.
Module PathFacts.
Import Path.

Lemma strip_common_app (a b : list string) : strip_common a (a ++ b) = ([], b).
Proof.
  induction a as [|x a IH]; simpl.
  - by destruct b.
  - by rewrite decide_True.
Qed.

Lemma relative_app (a b : list string) : relative a (a ++ b) = b.
Proof. unfold relative. by rewrite strip_common_app. Qed.

Lemma relative_self (a : list string) : relative a a = [].
Proof. rewrite <- (app_nil_r a) at 2. apply relative_app. Qed.

Lemma normalize_onto_valid (acc segs : list string) :
  Forall valid_name segs → normalize_onto acc segs = acc ++ segs.
Proof.
  intros H. revert acc. induction H as [|s segs [H1 [H2 H3]] _ IH]; intros acc; simpl.
  - by rewrite app_nil_r.
  - rewrite !decide_False by done. rewrite IH. by rewrite <- app_assoc.
Qed.

Lemma join_valid (base rel : list string) :
  Forall valid_name rel → join base rel = base ++ rel.
Proof. apply normalize_onto_valid. Qed.

Lemma normalize_onto_snoc (acc segs : list string) (s : string) :
  valid_name s → normalize_onto acc (segs ++ [s]) = normalize_onto acc segs ++ [s].
Proof.
  intros (H1 & H2 & H3). revert acc. induction segs as [|x segs IH]; intros acc.
  - cbn. by rewrite !decide_False.
  - cbn [app normalize_onto]. repeat case_decide; apply IH.
Qed.

Lemma dirname_snoc (p : path) (s : string) : dirname (p ++ [s]) = p.
Proof. apply removelast_last. Qed.

Lemma last_portion_snoc (p : path) (s : string) : last_portion (p ++ [s]) = s.
Proof. apply last_last. Qed.

Lemma split_filter_valid (r : list string) :
  Forall valid_name r → split_filter r = r.
Proof.
  induction 1 as [|s r [H1 _] _ IH]; [done|].
  unfold split_filter in *. rewrite filter_cons_True by done. by rewrite IH.
Qed.
End PathFacts.

Module StrFacts.
Import Path.

Lemma length_app (a b : string) :
  String.length (a +:+ b) = (String.length a + String.length b)%nat.
Proof. induction a; simpl; [done|]. by rewrite IHa. Qed.

Lemma valid_name_long (s : string) : (3 ≤ String.length s)%nat → valid_name s.
Proof.
  intros H. repeat split; intros ->; simpl in H; lia.
Qed.





(** A name with an extension is a proper directory entry name. *)
Lemma extname_valid (name : string) : extname_name name ≠ "" → valid_name name.
Proof.
  intros H. repeat split; intros ->; by apply H.
Qed.

Lemma split_last_dot_app (name b e : string) :
  Str.split_last_dot name = Some (b, e) → name = b +:+ e.
Proof.
  revert b e. induction name as [|c r IH]; intros b e; cbn [Str.split_last_dot]; [done|].
  destruct (Str.split_last_dot r) as [[b' e']|].
  - intros [= <- <-]. change (String c r = String c (b' +:+ e')). f_equal. by apply IH.
  - destruct (Str.is_dot c); [|done]. by intros [= <- <-].
Qed.

Lemma extname_split (name : string) :
  extname_name name ≠ "" →
  ∃ b, b ≠ "" ∧ name = b +:+ extname_name name.
Proof.
  unfold extname_name.
  destruct (Str.split_last_dot name) as [[b e]|] eqn:E; [|done].
  destruct (decide (b = "")); [done|]. destruct (decide (name = "..")); [done|].
  intros _. exists b. split; [done|]. by apply split_last_dot_app.
Qed.

Lemma endsWith_app (b e : string) : Str.endsWith e (b +:+ e) = true.
Proof.
  induction b as [|c b IH].
  - change ("" +:+ e) with e.
    destruct e; [done|]. cbn [Str.endsWith]. apply orb_true_iff. left.
    by apply bool_decide_eq_true.
  - change (String c b +:+ e) with (String c (b +:+ e)).
    cbn [Str.endsWith]. rewrite IH. apply orb_true_r.
Qed.

Lemma substring_app (b e : string) :
  String.substring 0 (String.length b) (b +:+ e) = b.
Proof.
  induction b as [|c b IH].
  - by destruct e.
  - change (String c b +:+ e) with (String c (b +:+ e)).
    cbn [String.length String.substring]. f_equal. apply IH.
Qed.

Lemma basename_app (b e : string) :
  b ≠ "" → e ≠ "" → basename_name (b +:+ e) e = b.
Proof.
  intros Hb He. unfold basename_name.
  rewrite decide_False by done.
  rewrite decide_False.
  - rewrite endsWith_app, length_app.
    replace (String.length b + String.length e - String.length e)%nat
      with (String.length b) by lia.
    apply substring_app.
  - intros H. apply (f_equal String.length) in H. rewrite length_app in H.
    destruct b; [done|]. simpl in H. lia.
Qed.


(** The base name the transcoder keeps is the name without its
    extension. *)
Lemma basename_extname (name : string) :
  extname_name name ≠ "" →
  basename_name name (extname_name name) ≠ "" ∧
  name = basename_name name (extname_name name) +:+ extname_name name.
Proof.
  intros H. destruct (extname_split name H) as (b & Hb & Hn).
  assert (Hbase : basename_name name (extname_name name) = b).
  { rewrite Hn at 1. by apply basename_app. }
  rewrite Hbase. done.
Qed.

Lemma toLowerCase_empty (s : string) : Str.toLowerCase s = "" → s = "".
Proof. by destruct s. Qed.

Lemma supported_iff (ext : string) :
  ext ∈ Rt.SUPPORTED_EXT ↔
  ext ∈ [".jpg"; ".jpeg"; ".png"; ".webp"; ".tiff"; ".gif"; ".avif"; ".bmp"].
Proof.
  unfold Rt.SUPPORTED_EXT.
  rewrite !elem_of_union, !elem_of_singleton, !elem_of_cons, elem_of_nil.
  tauto.
Qed.

Lemma supported_nonempty (ext : string) : ext ∈ Rt.SUPPORTED_EXT → ext ≠ "".
Proof.
  rewrite supported_iff, !elem_of_cons, elem_of_nil. intros H ->.
  repeat destruct H as [H|H]; done.
Qed.

Lemma supported_valid (name : string) :
  Str.toLowerCase (extname_name name) ∈ Rt.SUPPORTED_EXT → valid_name name.
Proof.
  intros H. apply extname_valid. intros He. rewrite He in H.
  by apply supported_nonempty in H.
Qed.
End StrFacts.

Module FsFacts.
Import Path Rt.

Lemma prefixes_spec (p q : path) : q ∈ prefixes p ↔ q `prefix_of` p.
Proof.
  revert q. induction p as [|s p IH]; intros q; simpl.
  - rewrite list_elem_of_singleton. split.
    + intros ->. done.
    + intros H. by apply prefix_nil_inv in H.
  - rewrite elem_of_cons, list_elem_of_fmap. split.
    + intros [->|(r & -> & Hr)]; [apply prefix_nil|].
      apply prefix_cons, IH, Hr.
    + destruct q as [|t q]; [by left|]. intros H. right.
      exists q. pose proof (prefix_cons_inv_1 _ _ _ _ H) as ->.
      split; [done|]. apply IH. by apply prefix_cons_inv_2 in H.
Qed.

Lemma prefixes_self (p : path) : p ∈ prefixes p.
Proof. by apply prefixes_spec. Qed.

Lemma lookup_insert_all (l : list path) (m : gmap path Node) (k : path) :
  foldr (λ q acc, <[q := Dir]> acc) m l !! k
  = if decide (k ∈ l) then Some Dir else m !! k.
Proof.
  induction l as [|q l IH]; cbn [foldr].
  - destruct (decide (k ∈ [])) as [H|H]; [by apply elem_of_nil in H|done].
  - destruct (decide (q = k)) as [->|Hne].
    + rewrite lookup_insert_eq. rewrite decide_True; [done|]. by left.
    + rewrite lookup_insert_ne by done. rewrite IH.
      destruct (decide (k ∈ l)) as [H|H], (decide (k ∈ q :: l)) as [H'|H'];
        try done; exfalso.
      * apply H'. by right.
      * apply elem_of_cons in H' as [->|H']; done.
Qed.

Lemma lookup_mkdirs (p : path) (m : gmap path Node) (k : path) :
  mkdirs p m !! k = if decide (k `prefix_of` p) then Some Dir else m !! k.
Proof.
  unfold mkdirs. rewrite lookup_insert_all.
  destruct (decide (k ∈ prefixes p)) as [H|H]; rewrite prefixes_spec in H.
  - by rewrite decide_True.
  - by rewrite decide_False.
Qed.

Lemma find_is_file_None (m : gmap path Node) (p : path) :
  List.find (is_file m) (prefixes p) = None →
  ∀ q c, q `prefix_of` p → m !! q ≠ Some (File c).
Proof.
  intros H q c Hq Hm.
  assert (Hf : is_file m q = false).
  { apply (find_none _ _ H q). apply list_elem_of_In, prefixes_spec, Hq. }
  unfold is_file in Hf. by rewrite Hm in Hf.
Qed.

Lemma find_is_file_Some (m : gmap path Node) (p q : path) :
  List.find (is_file m) (prefixes p) = Some q →
  q `prefix_of` p ∧ ∃ c, m !! q = Some (File c).
Proof.
  intros H. apply find_some in H as [H1 H2]. split.
  - by apply prefixes_spec, list_elem_of_In.
  - unfold is_file in H2. destruct (m !! q) as [[|c]|]; try done. by exists c.
Qed.

Lemma find_is_file_complete (m : gmap path Node) (p : path) :
  (∀ q c, q `prefix_of` p → m !! q ≠ Some (File c)) →
  List.find (is_file m) (prefixes p) = None.
Proof.
  intros H. destruct (List.find _ _) as [q|] eqn:E; [|done].
  apply find_is_file_Some in E as (Hq & c & Hc). by destruct (H q c).
Qed.

Lemma mkdirs_dir (p : path) (m : gmap path Node) (k : path) :
  m !! k = Some Dir → mkdirs p m !! k = Some Dir.
Proof. intros H. rewrite lookup_mkdirs. by case_decide. Qed.

Lemma mkdirs_self (p : path) (m : gmap path Node) : mkdirs p m !! p = Some Dir.
Proof. rewrite lookup_mkdirs. by rewrite decide_True. Qed.

Lemma mkdirs_file (p : path) (m : gmap path Node) (k : path) (c : Content) :
  List.find (is_file m) (prefixes p) = None →
  mkdirs p m !! k = Some (File c) ↔ m !! k = Some (File c).
Proof.
  intros H. rewrite lookup_mkdirs. case_decide as Hk; [|done].
  split; [done|]. intros Hm. by destruct (find_is_file_None _ _ H k c).
Qed.

Lemma lookup_remove_tree (p : path) (m : gmap path Node) (k : path) :
  remove_tree p m !! k = if decide (p `prefix_of` k) then None else m !! k.
Proof.
  unfold remove_tree. case_decide as H.
  - apply map_lookup_filter_None. right. intros x _. simpl. tauto.
  - destruct (m !! k) as [x|] eqn:E.
    + apply map_lookup_filter_Some. done.
    + apply map_lookup_filter_None. by left.
Qed.

Lemma child_names_nil (m : gmap path Node) (p : path) :
  child_names m p = [] ↔ ∀ k, is_Some (m !! k) → k ≠ [] → dirname k ≠ p.
Proof.
  unfold child_names. split.
  - intros H k [x Hk] Hne Hd.
    assert (Hin : last_portion k ∈ @nil string); [|by apply elem_of_nil in Hin].
    rewrite <- H. apply list_elem_of_omap. exists (k, x). split.
    + by apply elem_of_map_to_list.
    + simpl. by rewrite decide_True.
  - intros H. destruct (omap _ _) as [|n l] eqn:E; [done|].
    assert (Hin : n ∈ n :: l) by left. rewrite <- E in Hin.
    apply list_elem_of_omap in Hin as ([k x] & Hk & Hs). simpl in Hs.
    case_decide as Hd; [|done]. destruct Hd as [Hne Hd].
    apply elem_of_map_to_list in Hk. destruct (H k); eauto.
Qed.
End FsFacts.

Module StepFacts.
Import Path Rt Spec FsFacts.

Ltac unfold_run :=
  unfold sharp_metadata, fs_mkdir, sharp_toFile, fs_rm, fs_readdir_in,
    try_catch, bind, ret, modify, throw, get in *.

Ltac state_simpl :=
  cbn [trace out counters console emit set_counters set_out print] in *.

Ltac step_events :=
  repeat (apply Forall_cons; split; [cbn [step_event]; eauto|]);
  try (by constructor).

Ltac step_skeleton :=
  eexists _, _, _; split; [reflexivity|]; state_simpl;
  split; [reflexivity|]; split; [reflexivity|];
  split; [rewrite <- ?app_assoc; reflexivity|];
  split; [cbn [app]; step_events|].

Lemma legacy_step w cfg filePath ext st :
  FileStep w cfg filePath ext st (Legacy.optimiseImage w cfg filePath ext st).
Proof.
  unfold FileStep, Legacy.optimiseImage, Legacy.optimiseImage_body, drawn, bumped,
    Legacy.nextIndex.
  unfold_run.
  destruct (renameFiles (flags cfg)) eqn:Hr; state_simpl.
  all: match goal with |- context [Legacy.destPath_of _ _ _ ?i] =>
         set (dest := Legacy.destPath_of cfg filePath ext i) end.
  all: destruct (metadata_of w filePath) as [e|meta] eqn:Hm; state_simpl.
  all: try (step_skeleton; split; [done|]; left; eexists; split; [reflexivity|done]).
  all: destruct (find (is_file (out st)) (prefixes (dirname dest))) as [q|] eqn:Hf;
    state_simpl.
  all: try (step_skeleton; split; [done|]; left; eexists; split; [reflexivity|done]).
  all: destruct (is_dir (mkdirs (dirname dest) (out st)) dest) eqn:Hd; state_simpl.
  all: try (step_skeleton; split; [apply mkdirs_dir|]; left; eexists;
            split; [reflexivity|]; intros k c; by apply mkdirs_file).
  all: destruct (is_dir (mkdirs (dirname dest) (out st)) (dirname dest)) eqn:Hp;
    cbn [negb]; state_simpl.
  all: try (step_skeleton; split; [apply mkdirs_dir|]; left; eexists;
            split; [reflexivity|]; intros k c; by apply mkdirs_file).
  all: destruct (encode_error w (Legacy.pipeline_of cfg filePath ext meta)) as [e|] eqn:He;
    state_simpl.
  all: try (step_skeleton; split; [apply mkdirs_dir|]; left; eexists;
            split; [reflexivity|]; intros k c; by apply mkdirs_file).
  all: step_skeleton.
  all: split; [|right; eexists _, _, _; split; [done|]; split; reflexivity].
  all: intros k Hk; destruct (decide (dest = k)) as [->|Hne];
    [ apply (mkdirs_dir (dirname k)) in Hk; unfold is_dir in Hd; by rewrite Hk in Hd
    | rewrite lookup_insert_ne by done; by apply mkdirs_dir ].
Qed.

(** The values computed by the two revisions coincide. *)
Lemma commander_top cfg filePath :
  Commander.topFolder_of cfg filePath = Legacy.top_of cfg filePath.
Proof. reflexivity. Qed.

Lemma commander_destination cfg filePath idx :
  Commander.destinationPath_of cfg filePath idx
  = Legacy.destPath_of cfg filePath (Commander.sourceExt_of filePath) idx.
Proof. reflexivity. Qed.

Lemma commander_resize meta :
  Commander.resizeOptions_of meta = {| resize_width := Legacy.resize_target meta |}.
Proof.
  unfold Commander.resizeOptions_of, Legacy.resize_target.
  destruct (width meta) as [wd|]; [|done].
  by destruct (wd =? 0)%N, (1920 <? wd)%N.
Qed.

Lemma commander_encoder cfg filePath :
  Commander.encoder_of cfg filePath
  = Legacy.encoder_of cfg (Commander.sourceExt_of filePath).
Proof. reflexivity. Qed.

Lemma commander_pipeline cfg filePath meta :
  Commander.pipeline_of cfg filePath meta
  = Legacy.pipeline_of cfg filePath (Commander.sourceExt_of filePath) meta.
Proof.
  unfold Commander.pipeline_of, Legacy.pipeline_of.
  by rewrite commander_resize, commander_encoder.
Qed.

Lemma commander_step w cfg filePath st :
  FileStep w cfg filePath (Commander.sourceExt_of filePath) st
           (Commander.optimiseImage w cfg filePath st).
Proof.
  unfold FileStep, Commander.optimiseImage, Commander.optimiseImage_body, drawn,
    bumped, Commander.getNextIndex.
  unfold_run. rewrite !commander_top.
  destruct (renameFiles (flags cfg)) eqn:Hr; state_simpl.
  all: rewrite !commander_destination.
  all: match goal with |- context [Legacy.destPath_of _ _ _ ?i] =>
         set (dest := Legacy.destPath_of cfg filePath
                        (Commander.sourceExt_of filePath) i) end.
  all: destruct (find (is_file (out st)) (prefixes (dirname dest))) as [q|] eqn:Hf;
    state_simpl.
  all: try (step_skeleton; split; [done|]; left; eexists; split; [reflexivity|done]).
  all: destruct (metadata_of w filePath) as [e|meta] eqn:Hm; state_simpl.
  all: try (step_skeleton; split; [apply mkdirs_dir|]; left; eexists;
            split; [reflexivity|]; intros k c; by apply mkdirs_file).
  all: rewrite !commander_pipeline.
  all: destruct (is_dir (mkdirs (dirname dest) (out st)) dest) eqn:Hd; state_simpl.
  all: try (step_skeleton; split; [apply mkdirs_dir|]; left; eexists;
            split; [reflexivity|]; intros k c; by apply mkdirs_file).
  all: destruct (is_dir (mkdirs (dirname dest) (out st)) (dirname dest)) eqn:Hp;
    cbn [negb]; state_simpl.
  all: try (step_skeleton; split; [apply mkdirs_dir|]; left; eexists;
            split; [reflexivity|]; intros k c; by apply mkdirs_file).
  all: destruct (encode_error w (Legacy.pipeline_of cfg filePath
                   (Commander.sourceExt_of filePath) meta)) as [e|] eqn:He;
    state_simpl.
  all: try (step_skeleton; split; [apply mkdirs_dir|]; left; eexists;
            split; [reflexivity|]; intros k c; by apply mkdirs_file).
  all: step_skeleton.
  all: split; [|right; eexists _, _, _; split; [done|]; split; reflexivity].
  all: intros k Hk; destruct (decide (dest = k)) as [->|Hne];
    [ apply (mkdirs_dir (dirname k)) in Hk; unfold is_dir in Hd; by rewrite Hk in Hd
    | rewrite lookup_insert_ne by done; by apply mkdirs_dir ].
Qed.
End StepFacts.

Module WalkFacts.
Import Path Rt Spec PathFacts StrFacts FsFacts StepFacts.

Lemma legacy_walk w cfg :
  Legacy.processEntry w cfg = Walk.walkEntry cfg (Legacy.optimiseImage w cfg).
Proof. reflexivity. Qed.

Lemma commander_walk w cfg :
  Commander.processEntry w cfg
  = Walk.walkEntry cfg (λ fullPath _, Commander.optimiseImage w cfg fullPath).
Proof. reflexivity. Qed.

Lemma legacy_walkDir w cfg dir es :
  Legacy.processDir w cfg dir es = Walk.walkDir cfg (Legacy.optimiseImage w cfg) dir es.
Proof. reflexivity. Qed.

Lemma commander_walkDir w cfg dir es :
  Commander.processDirectory w cfg dir es
  = Walk.walkDir cfg (λ fullPath _, Commander.optimiseImage w cfg fullPath) dir es.
Proof. reflexivity. Qed.

(** Induction on a snapshot entry, with the property for every sub-entry
    of a directory. *)
Lemma Entry_nested_ind (P : Entry → Prop) :
  (∀ name, P (EntFile name)) →
  (∀ name sub, Forall P sub → P (EntDir name sub)) →
  (∀ name, P (EntOther name)) →
  ∀ e, P e.
Proof.
  intros Hf Hd Ho. fix IH 1. intros [name|name sub|name].
  - apply Hf.
  - apply Hd. induction sub as [|e sub IHsub]; constructor; [apply IH|apply IHsub].
  - apply Ho.
Qed.

Lemma Reports_app cfg c f1 l1 c1 f2 l2 c2 :
  Reports cfg c f1 l1 c1 → Reports cfg c1 f2 l2 c2 →
  Reports cfg c (f1 ++ f2) (l1 ++ l2) c2.
Proof.
  induction 1 as [|c f line files lines c' Hl _ IH]; intros H2; [done|].
  cbn [app]. constructor; [done|]. by apply IH.
Qed.

Lemma Reports_length cfg c files lines c' :
  Reports cfg c files lines c' → length lines = length files.
Proof. induction 1; simpl; congruence. Qed.

Lemma Walked_refl cfg st : Walked cfg [] [] st st.
Proof.
  exists [], []. rewrite !app_nil_r. repeat split; try done.
  - constructor.
  - by apply elem_of_nil in H.
  - by apply elem_of_nil in H.
  - by apply elem_of_nil in H.
  - intros k c Hk. by left.
Qed.

Lemma Walked_trans cfg f1 d1 f2 d2 st st1 st2 :
  Walked cfg f1 d1 st st1 → Walked cfg f2 d2 st1 st2 →
  Walked cfg (f1 ++ f2) (d1 ++ d2) st st2.
Proof.
  intros (l1 & e1 & Hc1 & Hr1 & Ht1 & Hd1 & Hp1 & Hf1)
         (l2 & e2 & Hc2 & Hr2 & Ht2 & Hd2 & Hp2 & Hf2).
  exists (l1 ++ l2), (e1 ++ e2). split; [|split; [|split; [|split; [|split]]]].
  - by rewrite Hc2, Hc1, app_assoc.
  - by eapply Reports_app.
  - by rewrite Ht2, Ht1, app_assoc.
  - intros d Hd. apply elem_of_app in Hd as [Hd|Hd].
    + destruct (Hd1 d Hd) as (Ha & Hb & Hc).
      rewrite !elem_of_app. auto.
    + destruct (Hd2 d Hd) as (Ha & Hb & Hc).
      rewrite !elem_of_app. auto.
  - auto.
  - intros k c Hk. destruct (Hf2 k c Hk) as [Hk1|(f & pl & Hin & -> & Hs)].
    + destruct (Hf1 k c Hk1) as [Hk0|(f & pl & Hin & -> & Hs)]; [by left|].
      right. exists f, pl. rewrite elem_of_app. auto.
    + right. exists f, pl. rewrite elem_of_app. auto.
Qed.

Section Generic.
Variable w : World.
Variable cfg : Config.
Variable handler : path → string → M unit.
Variable handler_ext : path → string → string.
Hypothesis handler_step : ∀ filePath ext st,
  FileStep w cfg filePath (handler_ext filePath ext) st (handler filePath ext st).
Hypothesis handler_ext_ok : ∀ filePath,
  handler_ext filePath (Str.toLowerCase (extname filePath))
  = Str.toLowerCase (extname filePath).

Lemma file_walked rel name st st' :
  handler (srcDir cfg ++ rel ++ [name]) (Str.toLowerCase (extname_name name)) st
    = Ok tt st' →
  Walked cfg [rel ++ [name]] [] st st'.
Proof.
  intros H.
  pose proof (handler_step (srcDir cfg ++ rel ++ [name])
                (Str.toLowerCase (extname_name name)) st) as Hs.
  assert (He : extname (srcDir cfg ++ rel ++ [name]) = extname_name name).
  { unfold extname. by rewrite app_assoc, last_portion_snoc. }
  rewrite <- He, handler_ext_ok, He in Hs. rewrite H in Hs.
  destruct Hs as (st1 & line & evs & [= <-] & Hc & Hl & Ht & Hev & Hd & Hcase).
  exists [line], evs. split; [done|]. split; [|split; [done|split; [|split; [done|]]]].
  - constructor; [|rewrite Hc; constructor].
    unfold report_line, report_with, ext_of. rewrite last_portion_snoc.
    destruct Hcase as [(e & -> & _)|(meta & status & note & _ & -> & _)];
      [left|right]; eauto.
  - intros d Hin. by apply elem_of_nil in Hin.
  - intros k c Hk.
    destruct Hcase as [(e & _ & Hfiles)|(meta & status & note & Hm & _ & Ho)].
    + left. by apply Hfiles.
    + rewrite Ho in Hk. apply lookup_insert_Some in Hk as [[<- [= <-]]|[Hne Hk]].
      * right. exists (rel ++ [name]), (Legacy.pipeline_of cfg
          (srcDir cfg ++ rel ++ [name]) (Str.toLowerCase (extname_name name)) meta).
        split; [by apply list_elem_of_singleton|]. split; reflexivity.
      * left. rewrite lookup_mkdirs in Hk. by case_decide.
Qed.

Lemma walkEntry_dir dir name sub :
  Walk.walkEntry cfg handler dir (EntDir name sub)
  = (fs_mkdir (join (destDir cfg) (relative (srcDir cfg) (join dir [name]))) >>>
     (fs_readdir_in (join dir [name]) >>>
      forEach (Walk.walkEntry cfg handler (join dir [name])) sub)).
Proof. reflexivity. Qed.

Lemma walkEntry_file dir name :
  Walk.walkEntry cfg handler dir (EntFile name)
  = if decide (supported name)
    then handler (join dir [name]) (Str.toLowerCase (extname_name name))
    else ret tt.
Proof. reflexivity. Qed.

Lemma forEach_cons {A} (f : A → M unit) x l st :
  forEach f (x :: l) st
  = match f x st with
    | Ok _ st1 => forEach f l st1
    | Throw e st1 => Throw e st1
    end.
Proof. reflexivity. Qed.

Lemma forEach_walked dir rel es :
  Forall (λ e, ∀ st st',
            Walk.walkEntry cfg handler dir e st = Ok tt st' →
            Walked cfg (files_of_entry rel e) (dirs_of_entry rel e) st st') es →
  ∀ st st',
    forEach (Walk.walkEntry cfg handler dir) es st = Ok tt st' →
    Walked cfg (files_of rel es) (dirs_of rel es) st st'.
Proof.
  induction 1 as [|e es He _ IH]; intros st st' Hrun.
  - injection Hrun as <-. apply Walked_refl.
  - rewrite forEach_cons in Hrun.
    destruct (Walk.walkEntry cfg handler dir e st) as [[] st1|err st1] eqn:E;
      [|done].
    unfold files_of, dirs_of. cbn [flat_map].
    eapply Walked_trans; [by apply He|by apply IH].
Qed.

Lemma valid_entry_name e : valid_entry e = true → valid_name (entry_name e).
Proof.
  destruct e; cbn [valid_entry entry_name]; intros H;
    apply andb_prop in H as [H _]; by apply bool_decide_eq_true in H.
Qed.

Lemma valid_entry_sub name sub :
  valid_entry (EntDir name sub) = true → Forall (λ e, valid_entry e = true) sub.
Proof.
  cbn [valid_entry]. intros H. apply andb_prop in H as [_ H].
  apply Forall_forall. intros e He. rewrite forallb_forall in H.
  apply H. by apply list_elem_of_In.
Qed.

Lemma mkdir_walked d st st1 :
  Forall valid_name d →
  (fs_mkdir (destDir cfg ++ d) >>> fs_readdir_in (srcDir cfg ++ d)) st = Ok tt st1 →
  Walked cfg [] [d] st st1.
Proof.
  intros Hv. unfold_run. state_simpl.
  destruct (find (is_file (out st)) (prefixes (destDir cfg ++ d))) as [q|] eqn:Hf;
    [done|].
  intros [= <-]. state_simpl.
  exists [], [EvMkdir (destDir cfg ++ d); EvReaddir (srcDir cfg ++ d)].
  state_simpl.
  split; [by rewrite app_nil_r|]. split; [constructor|].
  split; [by rewrite <- app_assoc|]. split; [|split].
  - intros d' ->%list_elem_of_singleton. split; [by left|].
    split; [right; by left|]. apply mkdirs_self.
  - intros k. apply mkdirs_dir.
  - intros k c Hk. left. by apply mkdirs_file in Hk.
Qed.

Lemma walkEntry_walked e :
  ∀ rel st st',
    valid_entry e = true → Forall valid_name rel →
    Walk.walkEntry cfg handler (srcDir cfg ++ rel) e st = Ok tt st' →
    Walked cfg (files_of_entry rel e) (dirs_of_entry rel e) st st'.
Proof.
  induction e as [name|name sub IH|name] using Entry_nested_ind;
    intros rel st st' Hv Hrel Hrun.
  - rewrite walkEntry_file in Hrun. cbn [files_of_entry dirs_of_entry].
    pose proof (valid_entry_name _ Hv) as Hn. cbn [entry_name] in Hn.
    rewrite join_valid in Hrun by (by apply Forall_singleton).
    destruct (decide (supported name)).
    + rewrite <- app_assoc in Hrun. by apply file_walked.
    + injection Hrun as <-. apply Walked_refl.
  - rewrite walkEntry_dir in Hrun. cbn [files_of_entry dirs_of_entry].
    pose proof (valid_entry_name _ Hv) as Hn. cbn [entry_name] in Hn.
    assert (Hrel' : Forall valid_name (rel ++ [name])).
    { apply Forall_app. split; [done|]. by apply Forall_singleton. }
    rewrite !(join_valid (srcDir cfg ++ rel) [name]) in Hrun
      by (by apply Forall_singleton).
    rewrite <- app_assoc, relative_app in Hrun.
    rewrite join_valid in Hrun by done.
    unfold bind at 1 2 in Hrun.
    destruct (fs_mkdir (destDir cfg ++ rel ++ [name]) st) as [[] st1|err st1] eqn:E1;
      [|done].
    destruct (fs_readdir_in (srcDir cfg ++ rel ++ [name]) st1) as [[] st2|err st2] eqn:E2;
      [|done].
    assert (Hstep : Walked cfg [] [rel ++ [name]] st st2).
    { apply mkdir_walked; [done|]. unfold bind. by rewrite E1. }
    apply (Walked_trans cfg [] [rel ++ [name]]
             (files_of (rel ++ [name]) sub) (dirs_of (rel ++ [name]) sub)
             st st2 st'); [exact Hstep|].
    apply (forEach_walked (srcDir cfg ++ rel ++ [name])); [|done].
    pose proof (valid_entry_sub _ _ Hv) as Hsub.
    rewrite Forall_forall in IH, Hsub. apply Forall_forall.
    intros e He st3 st4 Hr. apply IH; auto.
  - injection Hrun as <-. apply Walked_refl.
Qed.

Lemma walkDir_walked es st st' :
  valid_tree es = true →
  Walk.walkDir cfg handler (srcDir cfg) es st = Ok tt st' →
  ∃ evs lines,
    trace st' = trace st ++ EvReaddir (srcDir cfg) :: evs ∧
    console st' = console st ++ lines ∧
    Walked cfg (files_of [] es) (dirs_of [] es)
           (emit (EvReaddir (srcDir cfg)) st) st'.
Proof.
  intros Hv Hrun. unfold Walk.walkDir in Hrun.
  unfold bind, fs_readdir_in, modify in Hrun.
  assert (Hw : Walked cfg (files_of [] es) (dirs_of [] es)
                 (emit (EvReaddir (srcDir cfg)) st) st').
  { apply (forEach_walked (srcDir cfg)); [|done].
    apply Forall_forall. intros e He st1 st2 Hr.
    apply walkEntry_walked; [|done|by rewrite app_nil_r].
    unfold valid_tree in Hv. rewrite forallb_forall in Hv.
    apply Hv. by apply list_elem_of_In. }
  destruct Hw as (lines & evs & Hc & Hr & Ht & Hrest) eqn:Hw'.
  exists evs, lines. state_simpl. split; [by rewrite Ht, <- app_assoc|].
  split; [done|]. clear Hw'. by exists lines, evs.
Qed.

Lemma Extends_bind (m : M unit) (k : M unit) st :
  Extends st (m st) →
  (∀ st1, Extends st1 (k st1)) →
  Extends st ((m >>> k) st).
Proof.
  intros [[e1 H1] He1] Hk. unfold bind.
  destruct (m st) as [[] st1|err st1] eqn:E.
  - destruct (Hk st1) as [[e2 H2] He2]. split; [|done].
    exists (e1 ++ e2). cbn [final_state] in H1. by rewrite H2, H1, app_assoc.
  - split; [by exists e1|]. intros e st' [= <- <-]. by eapply He1.
Qed.

Lemma Extends_mkdir p st : Extends st (fs_mkdir p st).
Proof.
  unfold fs_mkdir. destruct (find _ _) as [q|]; (split; [by eexists|]).
  - intros e st' [= <- _]. exists q. case_decide; subst; auto.
  - done.
Qed.

Lemma Extends_readdir p st : Extends st (fs_readdir_in p st).
Proof. split; [by eexists|done]. Qed.

Lemma Extends_handler filePath ext st : Extends st (handler filePath ext st).
Proof.
  destruct (handler_step filePath ext st) as (st' & line & evs & -> & _ & _ & Ht & _).
  split; [by exists evs|done].
Qed.

Lemma Extends_ret st : Extends st (ret tt st).
Proof. split; [exists []; by rewrite app_nil_r|done]. Qed.

Lemma Extends_forEach (f : Entry → M unit) es :
  Forall (λ e, ∀ st, Extends st (f e st)) es →
  ∀ st, Extends st (forEach f es st).
Proof.
  induction 1 as [|e es He _ IH]; intros st; [apply Extends_ret|].
  apply (Extends_bind (f e) (forEach f es)); auto.
Qed.

Lemma Extends_walkEntry e : ∀ dir st, Extends st (Walk.walkEntry cfg handler dir e st).
Proof.
  induction e as [name|name sub IH|name] using Entry_nested_ind; intros dir st.
  - rewrite walkEntry_file. destruct (decide _);
      [apply Extends_handler|apply Extends_ret].
  - rewrite walkEntry_dir. apply Extends_bind; [apply Extends_mkdir|].
    intros st1. apply Extends_bind; [apply Extends_readdir|].
    apply Extends_forEach. apply Forall_forall. rewrite Forall_forall in IH.
    intros e He st2. by apply IH.
  - apply Extends_ret.
Qed.

Lemma Extends_walkDir dir es st : Extends st (Walk.walkDir cfg handler dir es st).
Proof.
  unfold Walk.walkDir. apply Extends_bind; [apply Extends_readdir|].
  apply Extends_forEach, Forall_forall. intros e _ st1. apply Extends_walkEntry.
Qed.
End Generic.
End WalkFacts.

Module Claims.
Import Path Rt Spec PathFacts StrFacts FsFacts StepFacts WalkFacts.

Lemma new_events_app st st' evs :
  trace st' = trace st ++ evs → new_events st st' = evs.
Proof. intros H. unfold new_events. rewrite H. apply drop_app_length. Qed.

Lemma new_lines_app st st' lines :
  console st' = console st ++ lines → new_lines st st' = lines.
Proof. intros H. unfold new_lines. rewrite H. apply drop_app_length. Qed.

Lemma relDir_of_rel cfg r name :
  Legacy.relDir_of cfg (srcDir cfg ++ r ++ [name]) = r.
Proof.
  unfold Legacy.relDir_of. rewrite app_assoc, dirname_snoc. apply relative_app.
Qed.

Lemma file_name_valid (base ext : string) :
  valid_name (base +:+ Legacy.destExt_of ext).
Proof.
  apply valid_name_long. rewrite length_app.
  unfold Legacy.destExt_of. destruct (decide _); simpl; lia.
Qed.

Lemma destPath_shape cfg r name ext idx :
  Forall valid_name r →
  Legacy.destPath_of cfg (srcDir cfg ++ r ++ [name]) ext idx
  = destDir cfg ++ r
    ++ [Legacy.newBase_of cfg (srcDir cfg ++ r ++ [name]) idx +:+ Legacy.destExt_of ext].
Proof.
  intros Hr. unfold Legacy.destPath_of. rewrite relDir_of_rel.
  apply join_valid, Forall_app. split; [done|].
  apply Forall_singleton, file_name_valid.
Qed.

Lemma destPath_dirname cfg r name ext idx :
  Forall valid_name r →
  dirname (Legacy.destPath_of cfg (srcDir cfg ++ r ++ [name]) ext idx)
  = destDir cfg ++ r.
Proof.
  intros Hr. rewrite destPath_shape by done.
  by rewrite app_assoc, dirname_snoc.
Qed.





Lemma destPath_last cfg filePath ext idx :
  last_portion (Legacy.destPath_of cfg filePath ext idx)
  = Legacy.newBase_of cfg filePath idx +:+ Legacy.destExt_of ext.
Proof.
  unfold Legacy.destPath_of, join.
  rewrite normalize_onto_snoc by apply file_name_valid.
  apply last_portion_snoc.
Qed.





Ltac equiv_leaf :=
  eexists _, _; split; [reflexivity|]; split; [reflexivity|];
  unfold new_events, new_lines; state_simpl;
  rewrite <- ?app_assoc, ?drop_app_length; cbn [app].

Ltac ev_iff :=
  let H := fresh in
  intros ? ?; rewrite !elem_of_cons, ?elem_of_nil;
  split; intros H; repeat (destruct H as [H|H]);
  try discriminate H; try (exfalso; exact H); tauto.

Ltac both_failed :=
  right; split; eexists; reflexivity.

(** C10.  For every configuration, source file and state, the
    transcoders of the two revisions compute the same destination path
    and the same pipeline (resize options and encoder), draw the same
    index, hand the same pipeline and destination to the codec, succeed
    or fail together and leave the same files in the output tree. *)
Theorem transcoders_equivalent w cfg filePath st :
  (∀ idx, Commander.destinationPath_of cfg filePath idx
          = Legacy.destPath_of cfg filePath (Str.toLowerCase (extname filePath)) idx) ∧
  (∀ meta, Commander.pipeline_of cfg filePath meta
           = Legacy.pipeline_of cfg filePath (Str.toLowerCase (extname filePath)) meta) ∧
  ∃ sa sb,
    Legacy.optimiseImage w cfg filePath (Str.toLowerCase (extname filePath)) st
      = Ok tt sa ∧
    Commander.optimiseImage w cfg filePath st = Ok tt sb ∧
    counters sa = counters sb ∧
    (∀ pl d, EvToFile pl d ∈ new_events st sa ↔ EvToFile pl d ∈ new_events st sb) ∧
    (∀ k c, out sa !! k = Some (File c) ↔ out sb !! k = Some (File c)) ∧
    (out sa = out sb
     ∧ (∃ src dst s1 s2 note, new_lines st sa = [LogDone src dst s1 note]
                              ∧ new_lines st sb = [LogDone src dst s2 note])
     ∨ (∃ e, new_lines st sa = [LogFailed filePath e])
       ∧ (∃ e, new_lines st sb = [LogFailed filePath e])).
Proof.
  split; [intros idx; apply commander_destination|].
  split; [intros meta; apply commander_pipeline|].
  unfold Legacy.optimiseImage, Legacy.optimiseImage_body, Legacy.nextIndex,
    Commander.optimiseImage, Commander.optimiseImage_body, Commander.getNextIndex.
  unfold_run.
  change (Commander.topFolder_of cfg filePath) with (Legacy.top_of cfg filePath).
  set (ext := Str.toLowerCase (extname filePath)).
  destruct (renameFiles (flags cfg)) eqn:Hr; state_simpl.
  all: repeat match goal with
       | |- context [Commander.destinationPath_of _ _ ?i] =>
           change (Commander.destinationPath_of cfg filePath i)
             with (Legacy.destPath_of cfg filePath ext i)
       end.
  all: match goal with |- context [Legacy.destPath_of _ _ _ ?i] =>
         set (dest := Legacy.destPath_of cfg filePath ext i) end.
  all: destruct (metadata_of w filePath) as [e|meta] eqn:Hm; state_simpl.
  all: destruct (find (is_file (out st)) (prefixes (dirname dest))) as [q|] eqn:Hf;
    state_simpl.
  all: try rewrite !commander_pipeline;
    try change (Commander.sourceExt_of filePath) with ext.
  all: try (equiv_leaf; split; [done|]; split; [ev_iff|]; split; [done|]; both_failed).
  all: try (equiv_leaf; split; [done|]; split; [ev_iff|];
            split; [intros k c; symmetry; by apply mkdirs_file|]; both_failed).
  all: destruct (is_dir (mkdirs (dirname dest) (out st)) dest) eqn:Hd; state_simpl.
  all: try (equiv_leaf; split; [done|]; split;
            [ev_iff|];
            split; [done|]; both_failed).
  all: destruct (is_dir (mkdirs (dirname dest) (out st)) (dirname dest)) eqn:Hp;
    cbn [negb]; state_simpl.
  all: try (equiv_leaf; split; [done|]; split;
            [ev_iff|];
            split; [done|]; both_failed).
  all: destruct (encode_error w (Legacy.pipeline_of cfg filePath ext meta)) as [e|] eqn:He;
    state_simpl.
  all: try (equiv_leaf; split; [done|]; split;
            [ev_iff|];
            split; [done|]; both_failed).
  all: equiv_leaf; split; [done|]; split;
            [ev_iff|];
            split; [done|]; left.
  all: split; [done|].
  all: eexists _, _, _, _, _; split; reflexivity.
Qed.
End Claims.

Module TreeFacts.
Import Path Rt Spec PathFacts StrFacts FsFacts StepFacts WalkFacts.

Lemma elem_of_flat_map {A B} (f : A → list B) (l : list A) (y : B) :
  y ∈ flat_map f l ↔ ∃ x, x ∈ l ∧ y ∈ f x.
Proof.
  rewrite list_elem_of_In, in_flat_map. split.
  - intros (x & H1 & H2). exists x. by rewrite !list_elem_of_In.
  - intros (x & H1 & H2). exists x. by rewrite <- !list_elem_of_In.
Qed.

Lemma occurs_cons_entry e es r x :
  e ∈ es → occurs [e] r x → occurs es r x.
Proof.
  intros He H. inversion H as [? ? Hin|? name sub r' ? Hin Hsub]; subst.
  - apply list_elem_of_singleton in Hin as ->. by constructor.
  - apply list_elem_of_singleton in Hin as <-. by econstructor.
Qed.


Lemma files_of_entry_occurs e :
  ∀ rel f, f ∈ files_of_entry rel e →
           ∃ r name, f = rel ++ r ++ [name] ∧ occurs [e] r (EntFile name)
                     ∧ supported name.
Proof.
  induction e as [name|name sub IH|name] using Entry_nested_ind; intros rel f Hf;
    cbn [files_of_entry] in Hf; try by apply elem_of_nil in Hf.
  - destruct (decide (supported name)); [|by apply elem_of_nil in Hf].
    apply list_elem_of_singleton in Hf as ->.
    exists [], name. split; [done|]. split; [|done]. constructor. by left.
  - apply elem_of_flat_map in Hf as (e & He & Hf).
    rewrite Forall_forall in IH.
    destruct (IH e He _ _ Hf) as (r & n & -> & Hocc & Hs).
    exists (name :: r), n. split; [by rewrite <- app_assoc|]. split; [|done].
    econstructor; [by left|]. by eapply occurs_cons_entry.
Qed.


Lemma occurs_files_of es r name :
  occurs es r (EntFile name) → supported name →
  ∀ rel, rel ++ r ++ [name] ∈ files_of rel es.
Proof.
  remember (EntFile name) as x eqn:Hx.
  induction 1 as [es e He|es n s r e He Hocc IH]; intros Hs rel; subst.
  - apply elem_of_flat_map. eexists. split; [exact He|]. cbn [files_of_entry].
    rewrite decide_True by done. by left.
  - apply elem_of_flat_map. eexists. split; [exact He|].
    cbn [files_of_entry].
    specialize (IH eq_refl Hs (rel ++ [n])). by rewrite <- app_assoc in IH.
Qed.


Lemma files_of_spec es f :
  f ∈ files_of [] es
  ↔ ∃ r name, f = r ++ [name] ∧ occurs es r (EntFile name) ∧ supported name.
Proof.
  split.
  - intros H. apply elem_of_flat_map in H as (e & He & H).
    apply files_of_entry_occurs in H as (r & name & -> & Hocc & Hs).
    exists r, name. split; [done|]. split; [|done]. by eapply occurs_cons_entry.
  - intros (r & name & -> & Hocc & Hs). by apply (occurs_files_of _ _ _ Hocc Hs []).
Qed.

Lemma valid_tree_elem es e : valid_tree es = true → e ∈ es → valid_entry e = true.
Proof.
  unfold valid_tree. rewrite forallb_forall. intros H He.
  apply H. by apply list_elem_of_In.
Qed.

Lemma occurs_valid es r e :
  occurs es r e → valid_tree es = true → Forall valid_name r ∧ valid_entry e = true.
Proof.
  induction 1 as [es e He|es n s r e He Hocc IH]; intros Hv.
  - split; [constructor|]. by eapply valid_tree_elem.
  - pose proof (valid_tree_elem _ _ Hv He) as Hd.
    destruct IH as [Hr Hve].
    { cbn [valid_entry] in Hd. by apply andb_prop in Hd as [_ Hd]. }
    split; [|done]. constructor; [|done].
    by apply (valid_entry_name (EntDir n s)).
Qed.

Lemma files_of_valid es f :
  valid_tree es = true → f ∈ files_of [] es →
  ∃ r name, f = r ++ [name] ∧ Forall valid_name r ∧ supported name.
Proof.
  intros Hv Hf. apply files_of_spec in Hf as (r & name & -> & Hocc & Hs).
  exists r, name. split; [done|]. split; [|done].
  by apply (occurs_valid _ _ _ Hocc).
Qed.
End TreeFacts.

Module WalkClaims.
Import Path Rt Spec PathFacts StrFacts FsFacts StepFacts WalkFacts TreeFacts Claims.


Lemma walk_walked w cfg es st st' :
  valid_tree es = true →
  walk_of w cfg es st (Ok tt st') →
  ∃ lines evs,
    new_lines st st' = lines ∧
    new_events st st' = EvReaddir (srcDir cfg) :: evs ∧
    Reports cfg (counters st) (files_of [] es) lines (counters st') ∧
    (∀ d, d ∈ dirs_of [] es →
          EvMkdir (destDir cfg ++ d) ∈ evs ∧ EvReaddir (srcDir cfg ++ d) ∈ evs ∧
          out st' !! (destDir cfg ++ d) = Some Dir) ∧
    (∀ k, out st !! k = Some Dir → out st' !! k = Some Dir) ∧
    (∀ k c, out st' !! k = Some (File c) →
            out st !! k = Some (File c)
            ∨ ∃ f pl, f ∈ files_of [] es ∧ c = Rendered pl
                      ∧ source pl = srcDir cfg ++ f).
Proof.
  intros Hv Hw.
  assert (∃ evs lines,
      trace st' = trace st ++ EvReaddir (srcDir cfg) :: evs ∧
      console st' = console st ++ lines ∧
      Walked cfg (files_of [] es) (dirs_of [] es)
             (emit (EvReaddir (srcDir cfg)) st) st') as (evs0 & lines0 & Ht & Hc & H).
  { destruct Hw as [Hw|Hw]; symmetry in Hw.
    - rewrite legacy_walkDir in Hw.
      eapply (walkDir_walked w cfg _ (λ _ ext, ext)); eauto.
      intros. apply legacy_step.
    - rewrite commander_walkDir in Hw.
      eapply (walkDir_walked w cfg _ (λ fp _, Commander.sourceExt_of fp)); eauto.
      intros. apply commander_step. }
  destruct H as (lines & evs & Hc' & Hr & Ht' & Hd & Hp & Hf).
  cbn [console trace counters out emit] in *.
  exists lines, evs. split; [by apply new_lines_app|].
  split; [apply new_events_app; by rewrite Ht', <- app_assoc|]. done.
Qed.


Lemma counter_or_1_bumped cfg fp c t :
  renameFiles (flags cfg) = true →
  counter_or_1 (bumped cfg fp c) t
  = (counter_or_1 c t + if decide (Legacy.top_of cfg fp = t) then 1 else 0)%N.
Proof.
  intros Hr. unfold bumped. rewrite Hr. unfold counter_or_1 at 1.
  destruct (decide (Legacy.top_of cfg fp = t)) as [->|Hne].
  - rewrite lookup_insert_eq.
    destruct (N.eqb_spec (counter_or_1 c t + 1) 0); [lia|done].
  - rewrite lookup_insert_ne by done. unfold counter_or_1. lia.
Qed.

Lemma counter_or_1_empty t : counter_or_1 ∅ t = 1%N.
Proof. unfold counter_or_1. by rewrite lookup_empty. Qed.

(** The index drawn by the [i]-th file of a run of the transcoder. *)
Lemma Reports_index cfg c files lines c' :
  Reports cfg c files lines c' →
  ∀ i f line,
    files !! i = Some f → lines !! i = Some line →
    report_with cfg
      (if renameFiles (flags cfg)
       then Some (counter_or_1 c (Legacy.top_of cfg (srcDir cfg ++ f))
                  + N.of_nat (length (filter
                      (λ g, Legacy.top_of cfg (srcDir cfg ++ g)
                            = Legacy.top_of cfg (srcDir cfg ++ f))
                      (take i files))))%N
       else None) f line.
Proof.
  induction 1 as [|c f0 line0 files lines c' Hl _ IH]; intros i f line Hf Hline;
    [done|].
  destruct i as [|i].
  - injection Hf as <-. injection Hline as <-.
    unfold report_line, drawn in Hl. cbn [take filter length].
    destruct (renameFiles (flags cfg)); [|done].
    by rewrite N.add_0_r.
  - cbn [lookup] in Hf, Hline. specialize (IH i f line Hf Hline).
    destruct (renameFiles (flags cfg)) eqn:Hr; [|done].
    rewrite counter_or_1_bumped in IH by done.
    cbn [take]. rewrite filter_cons.
    destruct (decide (Legacy.top_of cfg (srcDir cfg ++ f0)
                      = Legacy.top_of cfg (srcDir cfg ++ f))) as [He|Hne].
    + cbn [length].
      replace (counter_or_1 c (Legacy.top_of cfg (srcDir cfg ++ f))
               + N.of_nat (S (length (filter _ (take i files)))))%N
        with (counter_or_1 c (Legacy.top_of cfg (srcDir cfg ++ f)) + 1
              + N.of_nat (length (filter (λ g, Legacy.top_of cfg (srcDir cfg ++ g)
                            = Legacy.top_of cfg (srcDir cfg ++ f)) (take i files))))%N
        by lia.
      done.
    + by rewrite N.add_0_r in IH.
Qed.

Lemma top_of_rel cfg r name :
  Forall valid_name r →
  Legacy.top_of cfg (srcDir cfg ++ r ++ [name]) = top_folder cfg (r ++ [name]).
Proof.
  intros Hr. unfold Legacy.top_of, top_folder.
  rewrite relDir_of_rel, split_filter_valid, dirname_snoc by done.
  by destruct r.
Qed.

Lemma filter_length_ext {A} (P Q : A → Prop) `{!∀ x, Decision (P x)}
    `{!∀ x, Decision (Q x)} (l : list A) :
  (∀ x, x ∈ l → P x ↔ Q x) → length (filter P l) = length (filter Q l).
Proof.
  induction l as [|x l IH]; intros Hext; [done|].
  rewrite !filter_cons.
  assert (HPQ : P x ↔ Q x) by (apply Hext; by left).
  assert (Hl : length (filter P l) = length (filter Q l)).
  { apply IH. intros y Hy. apply Hext. by right. }
  destruct (decide (P x)), (decide (Q x)); cbn [length]; try tauto; by rewrite Hl.
Qed.

(** C7, amended.  When the walk starts with fresh counters and returns,
    the line printed for the [i]-th supported file reports either a
    failure or a destination in the mirrored directory whose base name
    is, with [--rename], [<top>-<n>]: [<top>] is the name of the first
    directory of the file's path below the input directory, or the name
    of the input directory itself for a file that lies directly in it,
    and [n] is one plus the number of supported files processed before
    it under the same name.  So [n] starts at 1 for each name and grows
    by one per file, and the files directly in the input directory share
    the numbers of a top-level folder that is called like the input
    directory.  Without [--rename] the base name is the original name
    without its extension.  Every supported file gets its line.  This
    holds in both revisions. *)
Theorem rename_indices w cfg es st st' :
  valid_tree es = true →
  counters st = ∅ →
  walk_of w cfg es st (Ok tt st') →
  length (new_lines st st') = length (files_of [] es) ∧
  ∀ i f line,
    files_of [] es !! i = Some f →
    new_lines st st' !! i = Some line →
    (∃ e, line = LogFailed (srcDir cfg ++ f) e)
    ∨ ∃ base status note,
        line = LogDone f (dirname f ++ [base +:+ Legacy.destExt_of (ext_of f)])
                       status note ∧
        if renameFiles (flags cfg)
        then base = top_folder cfg f +:+ "-" +:+ pretty (rank cfg (files_of [] es) i f)
        else last_portion f = base +:+ extname_name (last_portion f).
Proof.
  intros Hv Hc Hw.
  destruct (walk_walked _ _ _ _ _ Hv Hw) as (lines & evs & Hl & _ & Hr & _).
  rewrite Hl. split; [by eapply Reports_length|].
  intros i f line Hf Hline.
  pose proof (Reports_index _ _ _ _ _ Hr i f line Hf Hline) as Hrep.
  assert (Hin : f ∈ files_of [] es) by (by eapply list_elem_of_lookup_2).
  destruct (files_of_valid _ _ Hv Hin) as (r & name & -> & Hrv & Hs).
  destruct Hrep as [?|(status & note & ->)]; [by left|right].
  rewrite relative_app, destPath_shape, relative_app by done.
  rewrite dirname_snoc. eexists _, status, note. split; [reflexivity|].
  unfold Legacy.newBase_of.
  destruct (renameFiles (flags cfg)) eqn:Hren.
  - cbn [render_index]. rewrite Hc, counter_or_1_empty.
    rewrite top_of_rel by done. do 3 f_equal.
    unfold rank. rewrite Nat2N.inj_succ, <- N.add_1_l. f_equal. f_equal.
    apply filter_length_ext. intros g Hg.
    assert (Hgin : g ∈ files_of [] es).
    { by eapply subseteq_take. }
    destruct (files_of_valid _ _ Hv Hgin) as (r' & name' & -> & Hrv' & _).
    by rewrite top_of_rel.
  - rewrite last_portion_snoc. unfold Legacy.baseName_of, basename_ext, extname.
    rewrite app_assoc, last_portion_snoc.
    apply basename_extname. intros He. unfold supported in Hs. rewrite He in Hs.
    by apply supported_nonempty in Hs.
Qed.
End WalkClaims.

Module PrepFacts.
Import Path Rt Spec PathFacts StrFacts FsFacts StepFacts WalkFacts TreeFacts Claims.

Lemma prefix_antisym (a b : path) : a `prefix_of` b → b `prefix_of` a → a = b.
Proof.
  intros H1 H2. apply prefix_length_eq; [done|]. by apply prefix_length.
Qed.

Lemma has_entries_names m d : has_entries m d ↔ child_names m d ≠ [].
Proof.
  unfold has_entries. split.
  - intros (k & Hk & Hne & Hd) H. rewrite child_names_nil in H. by apply (H k).
  - intros H. destruct (child_names m d) as [|n l] eqn:E; [done|]. clear H.
    assert (Hin : n ∈ child_names m d) by (rewrite E; by left).
    unfold child_names in Hin.
    apply list_elem_of_omap in Hin as ([k x] & Hk & Hs). cbn [fst] in Hs.
    destruct (decide (k ≠ [] ∧ dirname k = d)) as [[Hne Hd]|]; [|done].
    apply elem_of_map_to_list in Hk. exists k. eauto.
Qed.

Lemma legacy_prepare w cfg :
  Legacy.prepareOutput w cfg
  = Prepare.prepare w cfg "Previous optimised images deleted.".
Proof. reflexivity. Qed.

Lemma commander_prepare w cfg :
  Commander.prepareOutput w cfg
  = Prepare.prepare w cfg "Previous optimized images deleted.".
Proof. reflexivity. Qed.

Lemma prepare_of_generic w cfg st o :
  prepare_of w cfg st o → ∃ msg, o = Prepare.prepare w cfg msg st.
Proof. intros [->| ->]; eexists; reflexivity. Qed.

Ltac case_find :=
  lazymatch goal with
  | |- context [find ?f ?l] => destruct (find f l) eqn:Hf
  end.

Ltac prep_events :=
  repeat (apply Forall_cons; split; [unfold is_prep_event; auto|]);
  try (by constructor).

(** Whatever the preparation does, it makes only its own calls, and when
    it returns the output directory exists. *)
Lemma prepare_trace w cfg msg st :
  ∃ evs,
    trace (final_state (Prepare.prepare w cfg msg st)) = trace st ++ evs ∧
    Forall (is_prep_event cfg) evs ∧
    ∀ st1, Prepare.prepare w cfg msg st = Ok tt st1 →
           out st1 !! destDir cfg = Some Dir.
Proof.
  unfold Prepare.prepare, fs_readdir_out. unfold_run.
  destruct (existsSync (out st) (destDir cfg)); state_simpl.
  2: { destruct (List.find (is_file (out st)) (prefixes (destDir cfg))) eqn:Hf; cbn [final_state]; state_simpl;
       eexists; (split; [reflexivity|]); (split; [prep_events|]); [done|].
       intros st1 [= <-]. apply mkdirs_self. }
  destruct (out st !! destDir cfg) as [[|c]|]; state_simpl.
  2,3: eexists; (split; [reflexivity|]); (split; [prep_events|]); done.
  destruct (0 <? length (child_names (out st) (destDir cfg)))%nat; state_simpl.
  2: { case_find; cbn [final_state]; state_simpl;
       rewrite <- ?app_assoc;
       eexists; (split; [reflexivity|]); (split; [cbn [app]; prep_events|]); [done|].
       intros st1 [= <-]. apply mkdirs_self. }
  destruct (forceDelete (flags cfg)); [|destruct (confirm w)]; state_simpl.
  all: case_find; cbn [final_state]; state_simpl;
       rewrite <- ?app_assoc;
       eexists; (split; [reflexivity|]); (split; [cbn [app]; prep_events|]); [done|..].
  all: intros st1 [= <-]; apply mkdirs_self.
Qed.

(** The output tree after the preparation, when nothing is deleted and
    when the directory is wiped. *)
Lemma mkdirs_keeps (d : path) (m : gmap path Node) :
  (∀ q c, q `prefix_of` d → m !! q ≠ Some (File c)) →
  ∀ k n, m !! k = Some n → mkdirs d m !! k = Some n.
Proof.
  intros H k n Hk. rewrite lookup_mkdirs. case_decide as Hp; [|done].
  destruct n as [|c]; [done|]. by destruct (H k c).
Qed.

Lemma find_after_remove (d : path) (m : gmap path Node) :
  (∀ q c, q `prefix_of` d → m !! q ≠ Some (File c)) →
  find (is_file (remove_tree d m)) (prefixes d) = None.
Proof.
  intros H. apply find_is_file_complete. intros q c Hq.
  rewrite lookup_remove_tree. case_decide; [done|]. by apply H.
Qed.

Lemma wiped_below (d : path) (m : gmap path Node) (k : path) :
  d `prefix_of` k → k ≠ d → mkdirs d (remove_tree d m) !! k = None.
Proof.
  intros Hp Hne. rewrite lookup_mkdirs. case_decide as Hk.
  - destruct Hne. by apply prefix_antisym.
  - rewrite lookup_remove_tree. by rewrite decide_True.
Qed.



Ltac not_rm :=
  let H := fresh in
  intros H; rewrite ?elem_of_cons, ?elem_of_nil in H;
  repeat (destruct H as [H|H]); try discriminate H; try done.

End PrepFacts.

Module ProgramFacts.
Import Path Rt Spec PathFacts StrFacts FsFacts StepFacts WalkFacts TreeFacts Claims
  PrepFacts.

Lemma grows_bind (m k : M unit) : grows m → grows k → grows (m >>> k).
Proof.
  intros Hm Hk st. unfold bind. destruct (Hm st) as [e1 H1].
  destruct (m st) as [[] st1|err st1]; cbn [final_state] in *.
  - destruct (Hk st1) as [e2 H2]. exists (e1 ++ e2). by rewrite H2, H1, app_assoc.
  - by exists e1.
Qed.

Lemma grows_print l : grows (modify (print l)).
Proof. intros st. exists []. by rewrite app_nil_r. Qed.

Lemma grows_not_dir p : grows (fs_readdir_in p >>> throw (ENOTDIR p)).
Proof. intros st. by eexists. Qed.

Lemma grows_legacy_walk w cfg dir es : grows (Legacy.processDir w cfg dir es).
Proof.
  intros st. rewrite legacy_walkDir.
  eapply (Extends_walkDir w cfg _ (λ _ ext, ext)). intros. apply legacy_step.
Qed.

Lemma grows_commander_walk w cfg dir es :
  grows (Commander.processDirectory w cfg dir es).
Proof.
  intros st. rewrite commander_walkDir.
  eapply (Extends_walkDir w cfg _ (λ fp _, Commander.sourceExt_of fp)).
  intros. apply commander_step.
Qed.

Lemma prep_not_transcode cfg ev : is_prep_event cfg ev → ¬ is_transcode_event ev.
Proof.
  intros [->|[->| ->]] [[? ?]|(? & ? & ?)]; discriminate.
Qed.

(** The preparation followed by anything that only adds to the trace:
    a call that hands an image to the codec comes after the preparation
    has returned. *)
Lemma prepared_first w cfg msg (rest : M unit) st0 i ev :
  grows rest →
  trace st0 = [] →
  trace (final_state ((Prepare.prepare w cfg msg >>> rest) st0)) !! i = Some ev →
  is_transcode_event ev →
  ∃ st1 n,
    Prepare.prepare w cfg msg st0 = Ok tt st1 ∧
    out st1 !! destDir cfg = Some Dir ∧
    trace st1 = take n (trace (final_state ((Prepare.prepare w cfg msg >>> rest) st0))) ∧
    (n ≤ i)%nat.
Proof.
  intros Hrest Ht0 Hi Hev.
  destruct (prepare_trace w cfg msg st0) as (evs & Ht & Hprep & Hdir).
  unfold bind in *.
  destruct (Prepare.prepare w cfg msg st0) as [[] st1|err st1]; cbn [final_state] in *.
  - destruct (Hrest st1) as [evs2 H2]. rewrite H2 in Hi |- *.
    exists st1, (length (trace st1)). split; [done|]. split; [by apply Hdir|].
    split; [by rewrite take_app_length|].
    destruct (decide (length (trace st1) ≤ i)%nat) as [|Hlt]; [done|].
    rewrite lookup_app_l in Hi by lia. rewrite Ht, Ht0 in Hi. cbn [app] in Hi.
    rewrite Forall_forall in Hprep.
    destruct (prep_not_transcode cfg ev); [|done].
    apply Hprep. by eapply list_elem_of_lookup_2.
  - rewrite Ht, Ht0 in Hi. cbn [app] in Hi. rewrite Forall_forall in Hprep.
    destruct (prep_not_transcode cfg ev); [|done].
    apply Hprep. by eapply list_elem_of_lookup_2.
Qed.

Lemma trace_prints st lines : trace (foldl (λ st l, print l st) st lines) = trace st.
Proof.
  revert st. induction lines as [|l lines IH]; intros st; [done|].
  cbn [foldl]. by rewrite IH.
Qed.

(** C8.  In a run of either revision, a call that hands an image to the
    codec (reading its metadata or writing the result) happens only
    after the command line has been resolved into a configuration and
    after the preparation of the output directory has returned, leaving
    the directory in place. *)
Theorem pipeline_order StringToNumber w argv cl run i ev :
  run_of StringToNumber w argv cl run →
  trace (final run) !! i = Some ev →
  is_transcode_event ev →
  ∃ cfg,
    resolved StringToNumber w argv cl run cfg ∧
    prepared_before w cfg run i.
Proof.
  intros [->| ->] Hi Hev.
  - unfold Legacy.program in *.
    destruct (Legacy.parseArgs StringToNumber argv Legacy.defaults [])
      as [f posArgs|code lines] eqn:Hparse; cbn [final] in *.
    2: { by rewrite trace_prints in Hi. }
    exists (Legacy.config (cwd w) f posArgs).
    split; [left; split;
      [unfold Legacy.program; by rewrite Hparse|by exists f, posArgs]|].
    set (cfg := Legacy.config (cwd w) f posArgs) in *.
    assert (Hgrow : grows (match input w with
                           | SrcDir entries => Legacy.processDir w cfg (srcDir cfg) entries
                           | _ => (fs_readdir_in (srcDir cfg) >>> throw (ENOTDIR (srcDir cfg)))
                           end >>> modify (print (LogFinished "Done! Optimised images are in:" (destDir cfg))))).
    { apply grows_bind; [|apply grows_print].
      destruct (input w); try apply grows_not_dir. apply grows_legacy_walk. }
    assert (Hrun : ∀ o, o = Legacy.pipeline w cfg (initial_state w) →
               trace (final_state o) !! i = Some ev → prepared_before w cfg
                 {| ending := Finished; final := final_state o |} i).
    { intros o -> Hi'. unfold Legacy.pipeline in Hi'. rewrite legacy_prepare in Hi'.
      destruct (prepared_first w cfg _ _ (initial_state w) i ev Hgrow eq_refl Hi' Hev)
        as (st1 & n & Hp & Hd & Ht & Hn).
      exists st1, n. split; [left; by rewrite legacy_prepare|].
      split; [done|]. split; [|done]. cbn [final]. unfold Legacy.pipeline.
      by rewrite legacy_prepare. }
    destruct (input w) eqn:Hin; [done| |];
      destruct (Legacy.pipeline w cfg (initial_state w)) as [[] st|e st] eqn:Hp;
      cbn [final] in *;
      exact (Hrun _ eq_refl Hi).
  - unfold Commander.program in *.
    destruct (Commander.parse_options StringToNumber (Commander.occurrences cl)
                Commander.declared_defaults) as [e|options] eqn:Hparse;
      cbn [final] in *; [done|].
    destruct (Commander.resolve_raw (cwd w) (Commander.args cl !! 0%nat))
      as [e|src] eqn:Hsrc; cbn [final] in *; [done|].
    destruct (Commander.resolve_raw (cwd w) (Commander.args cl !! 1%nat))
      as [e|dest] eqn:Hdest; cbn [final] in *; [done|].
    set (cfg := {| flags := Commander.flags_of options; srcDir := src; destDir := dest |}) in *.
    exists cfg. split; [right; split;
      [unfold Commander.program; by rewrite Hparse, Hsrc, Hdest
      |by exists options, src, dest]|].
    assert (Hgrow : grows (match input w with
                           | SrcDir entries =>
                               Commander.processDirectory w cfg (srcDir cfg) entries
                           | _ => (fs_readdir_in (srcDir cfg) >>> throw (ENOTDIR (srcDir cfg)))
                           end >>> modify (print (LogFinished "✅ Done! Optimized images are in:" (destDir cfg))))).
    { apply grows_bind; [|apply grows_print].
      destruct (input w); try apply grows_not_dir. apply grows_commander_walk. }
    assert (Hrun : ∀ o, o = Commander.main_body w cfg (initial_state w) →
               trace (final_state o) !! i = Some ev → prepared_before w cfg
                 {| ending := Finished; final := final_state o |} i).
    { intros o -> Hi'. unfold Commander.main_body in Hi'.
      rewrite commander_prepare in Hi'.
      destruct (prepared_first w cfg _ _ (initial_state w) i ev Hgrow eq_refl Hi' Hev)
        as (st1 & n & Hp & Hd & Ht & Hn).
      exists st1, n. split; [right; by rewrite commander_prepare|].
      split; [done|]. split; [|done]. cbn [final]. unfold Commander.main_body.
      by rewrite commander_prepare. }
    unfold Commander.main in *.
    destruct (input w) eqn:Hin; [done| |];
      destruct (Commander.main_body w cfg (initial_state w)) as [[] st|e st] eqn:Hp;
      cbn [final trace print] in *;
      exact (Hrun _ eq_refl Hi).
Qed.
End ProgramFacts.

Module FailureFacts.
Import Path Rt Spec PathFacts StrFacts FsFacts StepFacts WalkFacts TreeFacts Claims
  PrepFacts ProgramFacts.


End FailureFacts.

Module CliFacts.
Import Path Rt Spec.

Lemma Qltb_spec (x y : Q) : Js.Qltb x y = true ↔ (x < y)%Q.
Proof. unfold Js.Qltb, Qlt. apply Z.ltb_lt. Qed.

Lemma Qltb_false (x y : Q) : Js.Qltb x y = false ↔ (y <= x)%Q.
Proof. unfold Js.Qltb, Qle. apply Z.ltb_ge. Qed.

Lemma in_1_100_iff (val : Js.number) :
  Js.in_1_100 val ↔
  Js.isFinite val = true ∧ Js.lt val (Js.of_Z 1) = false
  ∧ Js.gt val (Js.of_Z 100) = false.
Proof.
  unfold Js.in_1_100, Js.gt. split.
  - intros (q & -> & H1 & H2). cbn. by rewrite !Qltb_false.
  - destruct val as [|neg|q]; cbn; [by intros [? _]|by intros [? _]|].
    rewrite !Qltb_false. intros (_ & H1 & H2). by exists q.
Qed.

Section Legacy.
Variable StringToNumber : string → Js.number.

Lemma accepted_in_range (val : Js.number) :
  Legacy.rejected val = false ↔ Js.in_1_100 val.
Proof.
  rewrite in_1_100_iff. unfold Legacy.rejected.
  rewrite !orb_false_iff, negb_false_iff. tauto.
Qed.

Lemma defaults_in_range : in_range Legacy.defaults.
Proof.
  split; apply accepted_in_range; reflexivity.
Qed.

Lemma case_quality_Proceed val f k f' p' :
  Legacy.case_quality val f k = Legacy.Proceed f' p' →
  Js.in_1_100 val ∧ k (Legacy.set_jpegQuality val f) = Legacy.Proceed f' p'.
Proof.
  unfold Legacy.case_quality.
  destruct (Legacy.rejected val) eqn:E; [done|].
  by rewrite <- accepted_in_range.
Qed.

Lemma case_png_quality_Proceed val f k f' p' :
  Legacy.case_png_quality val f k = Legacy.Proceed f' p' →
  Js.in_1_100 val ∧ k (Legacy.set_pngQuality val f) = Legacy.Proceed f' p'.
Proof.
  unfold Legacy.case_png_quality.
  destruct (Legacy.rejected val) eqn:E; [done|].
  by rewrite <- accepted_in_range.
Qed.

(** The loop keeps both qualities in range and never clears
    [compressPNG]. *)
Lemma parse_invariant argv :
  ∀ f p f' p',
    Legacy.parseArgs StringToNumber argv f p = Legacy.Proceed f' p' →
    (in_range f → in_range f') ∧
    (compressPNG f = true → compressPNG f' = true).
Proof.
  induction argv as [argv IH] using (induction_ltof1 _ (@length string)).
  unfold ltof in IH. intros f p f' p'.
  destruct argv as [|arg rest]; cbn [Legacy.parseArgs]; [by intros [= <- <-]|].
  destruct (Str.startsWith "-" arg); [|apply IH; cbn; lia].
  repeat case_decide.
  - destruct rest as [|v rest'].
    + intros (Hv & [= <- <-])%case_quality_Proceed.
      split; [intros [_ ?]; by split|done].
    + intros (Hv & Hk)%case_quality_Proceed.
      apply IH in Hk as [Ha Hb]; [|cbn; lia].
      split; [intros [_ ?]; apply Ha; by split|exact Hb].
  - destruct rest as [|v rest'].
    + intros (Hv & [= <- <-])%case_png_quality_Proceed.
      split; [intros [? _]; by split|done].
    + intros (Hv & Hk)%case_png_quality_Proceed.
      apply IH in Hk as [Ha Hb]; [|cbn; lia].
      split; [intros [? _]; apply Ha; by split|intros _; by apply Hb].
  - intros Hk. apply IH in Hk as [Ha Hb]; [|cbn; lia].
    split; [exact Ha|intros _; by apply Hb].
  - intros Hk. apply IH in Hk as [Ha Hb]; [|cbn; lia]. by split.
  - intros Hk. apply IH in Hk as [Ha Hb]; [|cbn; lia]. by split.
  - done.
  - done.
Qed.

(** A value out of range, or none at all, ends the script with the
    exit code 1. *)
Lemma parse_rejects_quality flag rest f p :
  flag = "-q" ∨ flag = "--quality" →
  Legacy.rejected (Legacy.Number StringToNumber (head rest)) = true →
  Legacy.parseArgs StringToNumber (flag :: rest) f p
  = Legacy.Exit 1 [LogErr "JPEG quality must be 1–100"].
Proof.
  intros Hflag Hrej. cbn [Legacy.parseArgs].
  assert (Str.startsWith "-" flag = true) as -> by (by destruct Hflag as [->| ->]).
  rewrite decide_True by done.
  destruct rest; cbn [head] in Hrej; unfold Legacy.case_quality; by rewrite Hrej.
Qed.

Lemma parse_rejects_png_quality flag rest f p :
  flag = "-P" ∨ flag = "--png-quality" →
  Legacy.rejected (Legacy.Number StringToNumber (head rest)) = true →
  Legacy.parseArgs StringToNumber (flag :: rest) f p
  = Legacy.Exit 1 [LogErr "PNG quality must be 1–100"].
Proof.
  intros Hflag Hrej. cbn [Legacy.parseArgs].
  assert (Str.startsWith "-" flag = true) as -> by (by destruct Hflag as [->| ->]).
  rewrite decide_False by (by destruct Hflag as [->| ->]; intros [?|?]).
  rewrite decide_True by done.
  destruct rest; cbn [head] in Hrej; unfold Legacy.case_png_quality; by rewrite Hrej.
Qed.

(** [-P] and [--png-quality] set [compressPNG]. *)
Lemma parse_png_quality_sets flag rest f p f' p' :
  flag = "-P" ∨ flag = "--png-quality" →
  Legacy.parseArgs StringToNumber (flag :: rest) f p = Legacy.Proceed f' p' →
  compressPNG f' = true.
Proof.
  intros Hflag. cbn [Legacy.parseArgs].
  assert (Str.startsWith "-" flag = true) as -> by (by destruct Hflag as [->| ->]).
  rewrite decide_False by (by destruct Hflag as [->| ->]; intros [?|?]).
  rewrite decide_True by done.
  destruct rest as [|v rest'].
  - by intros (_ & [= <- _])%case_png_quality_Proceed.
  - intros (_ & Hk)%case_png_quality_Proceed.
    apply parse_invariant in Hk as [_ Hk]. by apply Hk.
Qed.

(** Without [-q] and [--quality] the JPEG quality is left as it was,
    and without [-P] and [--png-quality] the PNG quality. *)
Lemma parse_keeps_quality argv :
  ∀ f p f' p',
    Legacy.parseArgs StringToNumber argv f p = Legacy.Proceed f' p' →
    ("-q" ∉ argv → "--quality" ∉ argv → jpegQuality f' = jpegQuality f) ∧
    ("-P" ∉ argv → "--png-quality" ∉ argv → pngQuality f' = pngQuality f).
Proof.
  induction argv as [argv IH] using (induction_ltof1 _ (@length string)).
  unfold ltof in IH. intros f p f' p'.
  destruct argv as [|arg rest]; cbn [Legacy.parseArgs]; [by intros [= <- <-]|].
  assert (Hrest : ∀ s, s ∉ arg :: rest → s ≠ arg ∧ s ∉ rest).
  { intros s. rewrite not_elem_of_cons. tauto. }
  assert (Hstep : ∀ f0,
    Legacy.parseArgs StringToNumber rest f0 p = Legacy.Proceed f' p' →
    jpegQuality f0 = jpegQuality f → pngQuality f0 = pngQuality f →
    ("-q" ∉ arg :: rest → "--quality" ∉ arg :: rest → jpegQuality f' = jpegQuality f) ∧
    ("-P" ∉ arg :: rest → "--png-quality" ∉ arg :: rest → pngQuality f' = pngQuality f)).
  { intros f0 Hk Hj Hp. apply IH in Hk as [Ha Hb]; [|cbn; lia].
    split; intros [_ H1]%Hrest [_ H2]%Hrest; [rewrite <- Hj|rewrite <- Hp]; auto. }
  destruct (Str.startsWith "-" arg).
  2: { intros Hk. apply IH in Hk as [Ha Hb]; [|cbn; lia].
       split; intros [_ H1]%Hrest [_ H2]%Hrest; auto. }
  destruct (decide (arg = "-q" ∨ arg = "--quality")) as [Hq|Hq].
  { intros Hk. split; [|].
    - intros [H1 _]%Hrest [H2 _]%Hrest. by destruct Hq.
    - destruct rest as [|v rest'].
      + by apply case_quality_Proceed in Hk as (_ & [= <- _]).
      + apply case_quality_Proceed in Hk as (_ & Hk).
        apply IH in Hk as [_ Hb]; [|cbn; lia].
        intros [_ H1]%Hrest [_ H2]%Hrest.
        apply not_elem_of_cons in H1 as [_ H1], H2 as [_ H2]. by apply Hb. }
  destruct (decide (arg = "-P" ∨ arg = "--png-quality")) as [HP|HP].
  { intros Hk. split; [|].
    - destruct rest as [|v rest'].
      + by apply case_png_quality_Proceed in Hk as (_ & [= <- _]).
      + apply case_png_quality_Proceed in Hk as (_ & Hk).
        apply IH in Hk as [Ha _]; [|cbn; lia].
        intros [_ H1]%Hrest [_ H2]%Hrest.
        apply not_elem_of_cons in H1 as [_ H1], H2 as [_ H2]. by apply Ha.
    - intros [H1 _]%Hrest [H2 _]%Hrest. by destruct HP. }
  repeat case_decide; try done; intros Hk; by apply (Hstep _ Hk).
Qed.

(** Summary for the hand-written loop: what the parser lets through
    has both qualities in range; a quality out of range ends the
    script with an error before anything else is done; [-P] sets
    [compressPNG]; the defaults are 75 and 80. *)
Lemma legacy_config_resolution argv f p :
  Legacy.parseArgs StringToNumber argv Legacy.defaults [] = Legacy.Proceed f p →
  in_range f ∧
  ("-q" ∉ argv → "--quality" ∉ argv → jpegQuality f = Js.of_Z 75) ∧
  ("-P" ∉ argv → "--png-quality" ∉ argv → pngQuality f = Js.of_Z 80).
Proof.
  intros H. split.
  - apply (parse_invariant _ _ _ _ _ H), defaults_in_range.
  - apply (parse_keeps_quality _ _ _ _ _ H).
Qed.

Lemma legacy_exit_before_processing w argv code lines :
  Legacy.parseArgs StringToNumber argv Legacy.defaults [] = Legacy.Exit code lines →
  ending (Legacy.program StringToNumber w argv) = Exited code ∧
  trace (final (Legacy.program StringToNumber w argv)) = [] ∧
  out (final (Legacy.program StringToNumber w argv)) = initial_out w.
Proof.
  intros H. unfold Legacy.program. rewrite H. cbn [ending final].
  split; [done|].
  assert (∀ st, trace (foldl (λ st l, print l st) st lines) = trace st
                ∧ out (foldl (λ st l, print l st) st lines) = out st) as Hfold.
  { clear H. induction lines as [|l lines IH]; intros st; [done|]. cbn [foldl].
    destruct (IH (print l st)) as [-> ->]. done. }
  destruct (Hfold (initial_state w)) as [-> ->]. done.
Qed.
End Legacy.

Section Commander.
Variable StringToNumber : string → Js.number.

Lemma parseIntegerInRange_ok raw val :
  Commander.parseIntegerInRange StringToNumber 1 100 raw = inr val →
  Js.in_1_100 val ∧ Js.isInteger val = true.
Proof.
  unfold Commander.parseIntegerInRange.
  destruct (negb _ || _ || _) eqn:E; [done|]. intros [= <-].
  rewrite !orb_false_iff, negb_false_iff in E. destruct E as [[Hi H1] H2].
  split; [|done]. apply in_1_100_iff. split; [|done].
  by destruct (StringToNumber raw).
Qed.

(** What [commander] lets through has both qualities in range, and
    [compressPng] is set by [--compress-png] alone. *)
Lemma parse_options_invariant os :
  ∀ opts opts',
    Commander.parse_options StringToNumber os opts = inr opts' →
    (in_range (Commander.flags_of opts) → in_range (Commander.flags_of opts')) ∧
    (Commander.Opts.compressPng opts' = true
     ↔ Commander.Opts.compressPng opts = true ∨ Commander.OptCompressPng ∈ os) ∧
    ((∀ raw, Commander.OptQuality raw ∉ os) →
     Commander.Opts.quality opts' = Commander.Opts.quality opts) ∧
    ((∀ raw, Commander.OptPngQuality raw ∉ os) →
     Commander.Opts.pngQuality opts' = Commander.Opts.pngQuality opts).
Proof.
  induction os as [|o os IH]; intros opts opts'; cbn [Commander.parse_options].
  - intros [= <-]. split; [done|]. split; [|done].
    split; [by left|]. intros [?|H]; [done|]. by apply elem_of_nil in H.
  - destruct (Commander.apply_occurrence StringToNumber o opts) as [e|opts1] eqn:E;
      [done|].
    intros H. apply IH in H as (Ha & Hb & Hc & Hd).
    assert (Hne : ∀ x : Commander.Occurrence, x ∉ o :: os → x ≠ o ∧ x ∉ os).
    { intros x. rewrite not_elem_of_cons. tauto. }
    unfold Commander.apply_occurrence in E.
    assert (Hother : ∀ o' : Commander.Occurrence,
              o' ≠ Commander.OptCompressPng →
              Commander.Opts.compressPng opts1 = Commander.Opts.compressPng opts →
              Commander.Opts.compressPng opts' = true
              ↔ Commander.Opts.compressPng opts = true
                ∨ Commander.OptCompressPng ∈ o' :: os).
    { intros o' Ho' Heq. rewrite Hb, Heq, elem_of_cons. split.
      - intros [?|?]; [by left|right; by right].
      - intros [?|[?|?]]; [by left|done|by right]. }
    destruct o as [raw| |raw| |].
    + destruct (Commander.parseIntegerInRange _ _ _ raw) as [e|v] eqn:Ep; [done|].
      injection E as <-. apply parseIntegerInRange_ok in Ep as [Hv _].
      split; [intros [_ ?]; apply Ha; by split|].
      split; [by apply Hother|].
      split; [intros Hq; by destruct (Hne _ (Hq raw)) as [? _]|].
      intros Hq. rewrite Hd; [done|]. intros r. by destruct (Hne _ (Hq r)).
    + injection E as <-. split; [exact Ha|].
      split; [rewrite Hb; cbn; split; intros _; [right|left]; [by left|done]|].
      split; intros Hq; [rewrite Hc|rewrite Hd]; try done;
        intros r; by destruct (Hne _ (Hq r)).
    + destruct (Commander.parseIntegerInRange _ _ _ raw) as [e|v] eqn:Ep; [done|].
      injection E as <-. apply parseIntegerInRange_ok in Ep as [Hv _].
      split; [intros [? _]; apply Ha; by split|].
      split; [by apply Hother|].
      split; [|intros Hq; by destruct (Hne _ (Hq raw)) as [? _]].
      intros Hq. rewrite Hc; [done|]. intros r. by destruct (Hne _ (Hq r)).
    + injection E as <-. split; [exact Ha|].
      split; [by apply Hother|].
      split; intros Hq; [rewrite Hc|rewrite Hd]; try done;
        intros r; by destruct (Hne _ (Hq r)).
    + injection E as <-. split; [exact Ha|].
      split; [by apply Hother|].
      split; intros Hq; [rewrite Hc|rewrite Hd]; try done;
        intros r; by destruct (Hne _ (Hq r)).
Qed.
End Commander.
End CliFacts.

Module CompletionFacts.
Import Path Rt Spec PathFacts StrFacts FsFacts StepFacts WalkFacts TreeFacts Claims.




Section Generic.
Variable w : World.
Variable cfg : Config.
Variable handler : path → string → M unit.
Variable handler_ext : path → string → string.
Hypothesis handler_step : ∀ filePath ext st,
  FileStep w cfg filePath (handler_ext filePath ext) st (handler filePath ext st).




End Generic.

End CompletionFacts.

Module Divergence.
Import Path Rt Spec CliFacts.

(** In the revision built on [commander], [compressPNG] is set by
    [--compress-png] and by nothing else. *)
Lemma commander_compress_only_by_flag StringToNumber os options :
  Commander.parse_options StringToNumber os Commander.declared_defaults = inr options →
  compressPNG (Commander.flags_of options) = true ↔ Commander.OptCompressPng ∈ os.
Proof.
  intros H. apply parse_options_invariant in H as (_ & Hb & _).
  cbn [compressPNG Commander.flags_of]. rewrite orb_false_r, Hb.
  cbn [Commander.Opts.compressPng Commander.declared_defaults]. split; [|by right].
  by intros [?|?].
Qed.

(** Summary for the revision built on [commander]: what the parser lets
    through has both qualities in range and integral, and the defaults
    are 75 and 80. *)
Lemma commander_config_resolution StringToNumber os options :
  Commander.parse_options StringToNumber os Commander.declared_defaults = inr options →
  in_range (Commander.flags_of options) ∧
  ((∀ raw, Commander.OptQuality raw ∉ os) →
   jpegQuality (Commander.flags_of options) = Js.of_Z 75) ∧
  ((∀ raw, Commander.OptPngQuality raw ∉ os) →
   pngQuality (Commander.flags_of options) = Js.of_Z 80).
Proof.
  intros H. apply parse_options_invariant in H as (Ha & _ & Hc & Hd).
  split; [|split].
  - apply Ha. split; apply in_1_100_iff; by cbn.
  - intros Hq. cbn [jpegQuality Commander.flags_of]. by rewrite Hc.
  - intros Hq. cbn [pngQuality Commander.flags_of]. by rewrite Hd.
Qed.

(** C6.  On [-P 60] the revision built on [commander] stores the PNG
    quality 60 and leaves [compressPNG] unset, so that a PNG is still
    encoded lossless, although its own help text says that [-P] implies
    [--compress-png]; the hand-written loop sets [compressPNG] on the
    same arguments. *)
Theorem png_quality_leaves_compress_unset :
  ∃ options,
    Commander.parse_options decimal_number [Commander.OptPngQuality "60"]
      Commander.declared_defaults = inr options ∧
    pngQuality (Commander.flags_of options) = Js.of_Z 60 ∧
    compressPNG (Commander.flags_of options) = false ∧
    Commander.encoder_of
      {| flags := Commander.flags_of options;
         srcDir := ["home"; "input"]; destDir := ["home"; "output"] |}
      ["home"; "input"; "a.png"]
    = ToPng {| png_quality := None; png_palette := None;
               png_compressionLevel := Some 9%N;
               png_adaptiveFiltering := Some true |} ∧
    ∃ f posArgs,
      Legacy.parseArgs decimal_number ["-P"; "60"] Legacy.defaults []
        = Legacy.Proceed f posArgs ∧
      compressPNG f = true ∧
      pngQuality f = Js.of_Z 60.
Proof.
  eexists. split; [reflexivity|]. split; [reflexivity|]. split; [reflexivity|].
  split; [reflexivity|]. eexists _, _. split; [reflexivity|]. by split.
Qed.
(** With [--rename], [a.jpg] is the first supported file below the
    top-level folder [input] of the input directory [/home/input], yet
    it is written as [input-2.jpg]: [b.jpg], which lies directly in the
    input directory, has drawn the index 1 under the same name, that of
    the input directory.  Both revisions do so. *)
Lemma rename_counter_shared :
  renameFiles (flags Sample.config) = true ∧
  files_of [] Sample.same_name_entries = [["b.jpg"]; ["input"; "a.jpg"]] ∧
  Legacy.processDir Sample.same_name_world Sample.config (srcDir Sample.config)
    Sample.same_name_entries Sample.same_name_start
  = Ok tt Sample.same_name_walked ∧
  new_lines Sample.same_name_start Sample.same_name_walked
  = [LogDone ["b.jpg"] ["input-1.jpg"] (StatusJpeg (Js.of_Z 75)) ", renamed";
     LogDone ["input"; "a.jpg"] ["input"; "input-2.jpg"]
             (StatusJpeg (Js.of_Z 75)) ", renamed"] ∧
  new_lines Sample.same_name_start
    (final_state (Commander.processDirectory Sample.same_name_world Sample.config
                    (srcDir Sample.config) Sample.same_name_entries
                    Sample.same_name_start))
  = new_lines Sample.same_name_start Sample.same_name_walked ∧
  out Sample.same_name_walked !! ["home"; "output"; "input"; "input-1.jpg"] = None ∧
  is_Some (out Sample.same_name_walked
             !! ["home"; "output"; "input"; "input-2.jpg"]) ∧
  ¬ ∃ status note,
      new_lines Sample.same_name_start Sample.same_name_walked !! 1%nat
      = Some (LogDone ["input"; "a.jpg"] ["input"; "input-1.jpg"] status note).
Proof.
  split; [reflexivity|]. split; [reflexivity|].
  split; [by vm_compute|]. split; [by vm_compute|].
  split; [by vm_compute|]. split; [by vm_compute|].
  split; [by vm_compute; eexists|].
  intros (status & note & H). vm_compute in H. discriminate H.
Qed.
End Divergence.

Module Witnesses.
Import Path Rt Spec Claims WalkClaims PrepFacts ProgramFacts FailureFacts.






Lemma rename_indices_witness :
  valid_tree Sample.entries = true ∧
  counters Sample.prepared = ∅ ∧
  walk_of Sample.world Sample.config Sample.entries Sample.prepared
    (Ok tt Sample.walked) ∧
  length (new_lines Sample.prepared Sample.walked)
  = length (files_of [] Sample.entries) ∧
  ∀ i f line,
    files_of [] Sample.entries !! i = Some f →
    new_lines Sample.prepared Sample.walked !! i = Some line →
    (∃ e, line = LogFailed (srcDir Sample.config ++ f) e)
    ∨ ∃ base status note,
        line = LogDone f (dirname f ++ [base +:+ Legacy.destExt_of (ext_of f)])
                       status note ∧
        if renameFiles (flags Sample.config)
        then base = top_folder Sample.config f +:+ "-"
                    +:+ pretty (rank Sample.config (files_of [] Sample.entries) i f)
        else last_portion f = base +:+ extname_name (last_portion f).
Proof.
  assert (H1 : valid_tree Sample.entries = true) by reflexivity.
  assert (H2 : counters Sample.prepared = ∅) by (vm_compute; reflexivity).
  assert (H3 : walk_of Sample.world Sample.config Sample.entries Sample.prepared
                 (Ok tt Sample.walked)).
  { left. vm_compute. reflexivity. }
  split; [exact H1|]. split; [exact H2|]. split; [exact H3|].
  exact (rename_indices Sample.world Sample.config Sample.entries
           Sample.prepared Sample.walked H1 H2 H3).
Defined.

Lemma pipeline_order_witness :
  run_of decimal_number Sample.world Sample.argv Sample.command_line Sample.run ∧
  trace (final Sample.run) !! 4%nat = Some (EvMetadata ["home"; "input"; "a.PNG"]) ∧
  is_transcode_event (EvMetadata ["home"; "input"; "a.PNG"]) ∧
  ∃ cfg,
    resolved decimal_number Sample.world Sample.argv Sample.command_line
      Sample.run cfg ∧
    prepared_before Sample.world cfg Sample.run 4.
Proof.
  assert (H1 : run_of decimal_number Sample.world Sample.argv Sample.command_line
                 Sample.run) by (by left).
  assert (H2 : trace (final Sample.run) !! 4%nat
               = Some (EvMetadata ["home"; "input"; "a.PNG"]))
    by (vm_compute; reflexivity).
  assert (H3 : is_transcode_event (EvMetadata ["home"; "input"; "a.PNG"]))
    by (left; eexists; reflexivity).
  split; [exact H1|]. split; [exact H2|]. split; [exact H3|].
  exact (pipeline_order decimal_number Sample.world Sample.argv Sample.command_line
           Sample.run 4 _ H1 H2 H3).
Defined.

End Witnesses.

Module PromptFacts.
Import Path Rt Spec.

Example trim_ex1 : Prompt.trim "  yes " = "yes".
Proof. vm_compute. reflexivity. Qed.
Example trim_ex2 :
  Prompt.trim (Prompt.bytes [194; 160; 121; 32; 110; 226; 128; 168; 9]) = "y n".
Proof. vm_compute. reflexivity. Qed.

Lemma same_lower (a c : ascii) :
  c = "y"%char ∨ c = "e"%char ∨ c = "s"%char →
  Prompt.same true a c = bool_decide (Str.lower_ascii a = c).
Proof.
  intros [->|[->| ->]];
    destruct a as [[] [] [] [] [] [] [] []]; vm_compute; reflexivity.
Qed.

Lemma test_from_anchored ic (p : Prompt.Pattern) (s : string) :
  Prompt.test_from ic (Prompt.Seq Prompt.AtStart p) false s = false.
Proof. induction s as [|a s IH]; [done|]. cbn. exact IH. Qed.

Lemma test_yes (s : string) :
  Prompt.test true Prompt.yes_pattern s = true
  ↔ Str.toLowerCase s = "y" ∨ Str.toLowerCase s = "yes".
Proof.
  unfold Prompt.test, Prompt.yes_pattern.
  destruct s as [|a s]; [cbn; split; [done|by intros [?|?]]|].
  cbn [Prompt.test_from]. rewrite test_from_anchored.
  cbn [Prompt.matches fst snd flat_map app].
  rewrite same_lower by auto. cbn [Str.toLowerCase].
  destruct (bool_decide_reflect (Str.lower_ascii a = "y"%char)) as [->|Ha];
    [|cbn; split; [done|intros [[=]|[=]]; done]].
  destruct s as [|b s]; [cbn; split; [by left|done]|].
  cbn [Prompt.matches fst snd flat_map app Str.toLowerCase].
  rewrite same_lower by auto.
  destruct (bool_decide_reflect (Str.lower_ascii b = "e"%char)) as [->|Hb];
    [|cbn; split; [done|intros [[=]|[=]]; done]].
  destruct s as [|c s]; [cbn; split; [done|intros [[=]|[=]]]|].
  cbn [Prompt.matches fst snd flat_map app Str.toLowerCase].
  rewrite same_lower by auto.
  destruct (bool_decide_reflect (Str.lower_ascii c = "s"%char)) as [->|Hc];
    [|cbn; split; [done|intros [[=]|[=]]; done]].
  destruct s as [|d s]; [cbn; split; [by right|done]|].
  cbn. split; [done|intros [[=]|[=]]].
Qed.

(** X1.  [askYesNo] answers yes exactly when the answer, without the
    white space around it, is [y] or [yes] in any mix of upper and
    lower case; the empty answer is a no, and so is an answer that
    only starts with [yes]. *)
Theorem askYesNo_accepts (answer : string) :
  (Prompt.askYesNo answer = true
   ↔ Str.toLowerCase (Prompt.trim answer) ∈ ["y"; "yes"]) ∧
  Prompt.askYesNo "" = false ∧
  Prompt.askYesNo "  YeS " = true ∧
  Prompt.askYesNo "yes please" = false.
Proof.
  split; [|by vm_compute].
  unfold Prompt.askYesNo. rewrite test_yes.
  rewrite elem_of_cons, list_elem_of_singleton. done.
Qed.
End PromptFacts.

Module CliMore.
Import Path Rt Spec CliFacts.

Section Legacy.
Variable StringToNumber : string → Js.number.

(** The loop reads its arguments from left to right: a list of
    arguments that it gets through can be followed by more, and the
    loop goes on from the flags and operands it has. *)
Lemma parseArgs_app pre :
  ∀ rest f p f1 p1,
    Legacy.parseArgs StringToNumber pre f p = Legacy.Proceed f1 p1 →
    Legacy.parseArgs StringToNumber (pre ++ rest) f p
    = Legacy.parseArgs StringToNumber rest f1 p1.
Proof.
  induction pre as [pre IH] using (induction_ltof1 _ (@length string)).
  unfold ltof in IH. intros rest f p f1 p1.
  destruct pre as [|arg pre']; cbn [Legacy.parseArgs app].
  { by intros [= <- <-]. }
  destruct (Str.startsWith "-" arg); [|apply IH; cbn; lia].
  repeat case_decide.
  - destruct pre' as [|v pre'']; cbn [app].
    + intros (Hv & _)%case_quality_Proceed. by apply accepted_in_range in Hv.
    + intros (Hv & Hk)%case_quality_Proceed.
      apply accepted_in_range in Hv. unfold Legacy.case_quality. rewrite Hv.
      apply IH; [cbn; lia|done].
  - destruct pre' as [|v pre'']; cbn [app].
    + intros (Hv & _)%case_png_quality_Proceed. by apply accepted_in_range in Hv.
    + intros (Hv & Hk)%case_png_quality_Proceed.
      apply accepted_in_range in Hv. unfold Legacy.case_png_quality. rewrite Hv.
      apply IH; [cbn; lia|done].
  - apply IH; cbn; lia.
  - apply IH; cbn; lia.
  - apply IH; cbn; lia.
  - done.
  - done.
Qed.

Lemma parse_operands argv :
  ∀ f p f' p',
    "-q" ∉ argv → "--quality" ∉ argv → "-P" ∉ argv → "--png-quality" ∉ argv →
    Legacy.parseArgs StringToNumber argv f p = Legacy.Proceed f' p' →
    p' = p ++ filter (λ a, Str.startsWith "-" a = false) argv.
Proof.
  induction argv as [|arg rest IH]; intros f p f' p' H1 H2 H3 H4;
    cbn [Legacy.parseArgs].
  { intros [= <- <-]. by rewrite app_nil_r. }
  apply not_elem_of_cons in H1 as [H1 H1'], H2 as [H2 H2'],
    H3 as [H3 H3'], H4 as [H4 H4'].
  destruct (Str.startsWith "-" arg) eqn:Hd.
  - rewrite filter_cons_False by (by rewrite Hd).
    repeat case_decide; try (by apply IH); try done.
    + by destruct H.
    + by destruct H0.
  - rewrite filter_cons_True by done. intros Hk.
    apply IH in Hk; [|done..]. by rewrite Hk, <- app_assoc.
Qed.

(** X3.  An option that the loop does not know, and [-h] or
    [--help], end the run at once with the exit status 0, as soon as
    the loop reaches them: the help text is printed, after the line
    [Unknown option: ...] for an option that is not known, and
    nothing is read, created or deleted. *)
Theorem unknown_option_exits (w : World) (pre : list string) (arg : string)
    (rest : list string) (f : Flags) (p : list string) :
  Legacy.parseArgs StringToNumber pre Legacy.defaults [] = Legacy.Proceed f p →
  Str.startsWith "-" arg = true →
  arg ∉ ["-q"; "--quality"; "-P"; "--png-quality"; "--compress-png";
         "--rename"; "--force-delete"] →
  let run := Legacy.program StringToNumber w (pre ++ arg :: rest) in
  ending run = Exited 0 ∧
  trace (final run) = [] ∧
  out (final run) = initial_out w ∧
  ∃ help,
    console (final run)
    = (if decide (arg = "-h" ∨ arg = "--help") then []
       else [LogErr ("Unknown option: " +:+ arg)]) ++ [LogOut help].
Proof.
  intros Hpre Hdash Hno run.
  assert (Hp : Legacy.parseArgs StringToNumber (pre ++ arg :: rest)
                 Legacy.defaults []
               = Legacy.showHelp
                   (if decide (arg = "-h" ∨ arg = "--help") then []
                    else [LogErr ("Unknown option: " +:+ arg)])).
  { rewrite (parseArgs_app _ _ _ _ _ _ Hpre). cbn [Legacy.parseArgs].
    rewrite Hdash. rewrite !not_elem_of_cons in Hno.
    destruct Hno as (?&?&?&?&?&?&?&_).
    destruct (decide (arg = "-q" ∨ arg = "--quality")) as [[?|?]|_]; [done..|].
    destruct (decide (arg = "-P" ∨ arg = "--png-quality")) as [[?|?]|_];
      [done..|].
    rewrite !decide_False by done.
    by destruct (decide (arg = "-h" ∨ arg = "--help")). }
  destruct (legacy_exit_before_processing StringToNumber w _ _ _ Hp)
    as (He & Ht & Ho).
  split; [exact He|]. split; [exact Ht|]. split; [exact Ho|].
  exists Legacy.usage. subst run. unfold Legacy.program. rewrite Hp.
  unfold Legacy.showHelp. cbn [final]. by case_decide.
Qed.

(** X4.  When none of the options that take a value is given, the
    operands are the arguments that do not start with a dash, in
    their order and wherever they stand among the options: the first
    is the input directory and the second the output directory,
    resolved against the working directory, and [input] and [output]
    stand in for the ones that are missing. *)
Theorem legacy_directories (cwd : path) (argv : list string) (f : Flags)
    (p : list string) :
  "-q" ∉ argv → "--quality" ∉ argv → "-P" ∉ argv → "--png-quality" ∉ argv →
  Legacy.parseArgs StringToNumber argv Legacy.defaults [] = Legacy.Proceed f p →
  let operands := filter (λ a, Str.startsWith "-" a = false) argv in
  srcDir (Legacy.config cwd f p)
  = resolve cwd (default "input" (operands !! 0%nat)) ∧
  destDir (Legacy.config cwd f p)
  = resolve cwd (default "output" (operands !! 1%nat)) ∧
  (operands = [] →
   srcDir (Legacy.config cwd f p) = cwd ++ ["input"] ∧
   destDir (Legacy.config cwd f p) = cwd ++ ["output"]).
Proof.
  intros H1 H2 H3 H4 Hp operands.
  apply parse_operands in Hp; [|done..]. cbn [app] in Hp. fold operands in Hp.
  subst p. split; [done|]. split; [done|]. by intros ->.
Qed.

(** X5.  The value of [-q] or [-P] is taken by the hand-written loop
    exactly when it is a finite number from 1 to 100, and is stored
    as it is; the revision built on [commander] takes it exactly
    when it is, in addition, an integer, and fails with one fixed
    message otherwise.  So every value the second takes, the first
    takes too, as the same number. *)
Theorem quality_values (raw : string) (f : Flags) (p : list string) :
  let val := StringToNumber raw in
  (∀ v, Commander.parseIntegerInRange StringToNumber 1 100 raw = inr v
        ↔ v = val ∧ Js.in_1_100 val ∧ Js.isInteger val = true) ∧
  (∀ e, Commander.parseIntegerInRange StringToNumber 1 100 raw = inl e →
        e = JsError "Value must be an integer between 1 and 100") ∧
  (Legacy.parseArgs StringToNumber ["-q"; raw] f p
   = Legacy.Proceed (Legacy.set_jpegQuality val f) p ↔ Js.in_1_100 val) ∧
  (Legacy.parseArgs StringToNumber ["-P"; raw] f p
   = Legacy.Proceed (Legacy.set_pngQuality val f) p ↔ Js.in_1_100 val).
Proof.
  intros val. split; [|split; [|split]].
  - intros v. unfold Commander.parseIntegerInRange. fold val.
    rewrite in_1_100_iff. unfold Js.gt.
    destruct (Js.isInteger val) eqn:Hi, (Js.lt val (Js.of_Z 1)) eqn:H1,
      (Js.lt (Js.of_Z 100) val) eqn:H2; cbn [negb orb];
      (split; [try done; intros [= <-]|intros (-> & (Hf & ? & ?) & ?); try done]).
    split; [done|]. split; [|done]. split; [|done].
    destruct val as [| |q]; done.
  - intros e. unfold Commander.parseIntegerInRange.
    destruct (_ || _); [|done]. by intros [= <-].
  - cbn [Legacy.parseArgs]. rewrite decide_True by (by left).
    cbn [Str.startsWith]. rewrite decide_True by done.
    unfold Legacy.case_quality, Legacy.Number. fold val.
    rewrite <- accepted_in_range.
    destruct (Legacy.rejected val); split; done.
  - cbn [Legacy.parseArgs]. rewrite decide_False by (by intros [?|?]).
    rewrite decide_True by (by left).
    cbn [Str.startsWith]. rewrite decide_True by done.
    unfold Legacy.case_png_quality, Legacy.Number. fold val.
    rewrite <- accepted_in_range.
    destruct (Legacy.rejected val); split; done.
Qed.

End Legacy.

Lemma unknown_option_exits_witness :
  Legacy.parseArgs decimal_number ["--rename"] Legacy.defaults []
  = Legacy.Proceed (Legacy.set_renameFiles Legacy.defaults) [] ∧
  Str.startsWith "-" "--fast" = true ∧
  ("--fast" ∉ ["-q"; "--quality"; "-P"; "--png-quality"; "--compress-png";
               "--rename"; "--force-delete"]) ∧
  let run := Legacy.program decimal_number Sample.world
               (["--rename"] ++ "--fast" :: ["photos"]) in
  ending run = Exited 0 ∧
  trace (final run) = [] ∧
  out (final run) = initial_out Sample.world ∧
  ∃ help,
    console (final run)
    = (if decide ("--fast" = "-h" ∨ "--fast" = "--help") then []
       else [LogErr ("Unknown option: " +:+ "--fast")]) ++ [LogOut help].
Proof.
  assert (H1 : Legacy.parseArgs decimal_number ["--rename"] Legacy.defaults []
               = Legacy.Proceed (Legacy.set_renameFiles Legacy.defaults) [])
    by reflexivity.
  assert (H2 : Str.startsWith "-" "--fast" = true) by reflexivity.
  assert (H3 : "--fast" ∉ ["-q"; "--quality"; "-P"; "--png-quality";
                           "--compress-png"; "--rename"; "--force-delete"]).
  { rewrite !not_elem_of_cons. repeat split; try done. apply not_elem_of_nil. }
  split; [exact H1|]. split; [exact H2|]. split; [exact H3|].
  exact (unknown_option_exits decimal_number Sample.world ["--rename"] "--fast"
           ["photos"] _ _ H1 H2 H3).
Defined.

Lemma legacy_directories_witness :
  ("-q" ∉ ["--rename"; "photos"; "--force-delete"]) ∧
  ("--quality" ∉ ["--rename"; "photos"; "--force-delete"]) ∧
  ("-P" ∉ ["--rename"; "photos"; "--force-delete"]) ∧
  ("--png-quality" ∉ ["--rename"; "photos"; "--force-delete"]) ∧
  Legacy.parseArgs decimal_number ["--rename"; "photos"; "--force-delete"]
    Legacy.defaults []
  = Legacy.Proceed
      (Legacy.set_forceDelete (Legacy.set_renameFiles Legacy.defaults))
      ["photos"] ∧
  let f := Legacy.set_forceDelete (Legacy.set_renameFiles Legacy.defaults) in
  let operands := filter (λ a, Str.startsWith "-" a = false)
                    ["--rename"; "photos"; "--force-delete"] in
  srcDir (Legacy.config ["home"] f ["photos"])
  = resolve ["home"] (default "input" (operands !! 0%nat)) ∧
  destDir (Legacy.config ["home"] f ["photos"])
  = resolve ["home"] (default "output" (operands !! 1%nat)) ∧
  (operands = [] →
   srcDir (Legacy.config ["home"] f ["photos"]) = ["home"] ++ ["input"] ∧
   destDir (Legacy.config ["home"] f ["photos"]) = ["home"] ++ ["output"]).
Proof.
  assert (Hn : ∀ s, s ≠ "--rename" → s ≠ "photos" → s ≠ "--force-delete" →
                    s ∉ ["--rename"; "photos"; "--force-delete"]).
  { intros s ? ? ?. rewrite !not_elem_of_cons. repeat split; try done.
    apply not_elem_of_nil. }
  assert (H1 : "-q" ∉ ["--rename"; "photos"; "--force-delete"]) by by apply Hn.
  assert (H2 : "--quality" ∉ ["--rename"; "photos"; "--force-delete"])
    by by apply Hn.
  assert (H3 : "-P" ∉ ["--rename"; "photos"; "--force-delete"]) by by apply Hn.
  assert (H4 : "--png-quality" ∉ ["--rename"; "photos"; "--force-delete"])
    by by apply Hn.
  assert (H5 : Legacy.parseArgs decimal_number
                 ["--rename"; "photos"; "--force-delete"] Legacy.defaults []
               = Legacy.Proceed
                   (Legacy.set_forceDelete (Legacy.set_renameFiles Legacy.defaults))
                   ["photos"]) by reflexivity.
  split; [exact H1|]. split; [exact H2|]. split; [exact H3|]. split; [exact H4|].
  split; [exact H5|].
  exact (legacy_directories decimal_number ["home"] _ _ _ H1 H2 H3 H4 H5).
Defined.

(** X7.  The revision built on [commander] reads the two directories
    from [program.args], which holds only the operands that were
    typed: the defaults declared with [.argument] are not among them.
    With fewer than two operands [path.resolve] is called on
    [undefined] and throws a type error while the script is loaded;
    nothing is printed, created or deleted. *)
Theorem commander_needs_operands (StringToNumber : string → Js.number)
    (w : World) (cl : Commander.CommandLine) (options : Commander.Opts.Options) :
  Commander.parse_options StringToNumber (Commander.occurrences cl)
    Commander.declared_defaults = inr options →
  (length (Commander.args cl) < 2)%nat →
  let run := Commander.program StringToNumber w cl in
  (∃ msg, ending run = Crashed (TypeError msg)) ∧
  final run = initial_state w.
Proof.
  intros Hp Hl run. subst run. unfold Commander.program. rewrite Hp.
  destruct (Commander.args cl) as [|a [|b l]]; cbn in Hl |- *; [eauto..|lia].
Qed.

Lemma commander_needs_operands_witness :
  Commander.parse_options decimal_number (Commander.occurrences Cases.one_operand)
    Commander.declared_defaults
  = inr {| Commander.Opts.quality := Js.of_Z 75;
           Commander.Opts.compressPng := false;
           Commander.Opts.pngQuality := Js.of_Z 80;
           Commander.Opts.rename := true;
           Commander.Opts.forceDelete := false |} ∧
  (length (Commander.args Cases.one_operand) < 2)%nat ∧
  let run := Commander.program decimal_number Sample.world Cases.one_operand in
  (∃ msg, ending run = Crashed (TypeError msg)) ∧
  final run = initial_state Sample.world.
Proof.
  assert (H1 : Commander.parse_options decimal_number
                 (Commander.occurrences Cases.one_operand)
                 Commander.declared_defaults
               = inr {| Commander.Opts.quality := Js.of_Z 75;
                        Commander.Opts.compressPng := false;
                        Commander.Opts.pngQuality := Js.of_Z 80;
                        Commander.Opts.rename := true;
                        Commander.Opts.forceDelete := false |}) by reflexivity.
  assert (H2 : (length (Commander.args Cases.one_operand) < 2)%nat)
    by (cbn; lia).
  split; [exact H1|]. split; [exact H2|].
  exact (commander_needs_operands decimal_number Sample.world Cases.one_operand
           _ H1 H2).
Defined.

(** X8.  When the input directory does not exist, a run of either
    revision whose command line was resolved prints the one line that
    names the directory and ends with the exit status 1; nothing is
    read, created or deleted, not even with [--force-delete]. *)
Theorem missing_input_untouched (StringToNumber : string → Js.number)
    (w : World) (argv : list string) (cl : Commander.CommandLine) (run : Run)
    (cfg : Config) :
  input w = SrcMissing →
  resolved StringToNumber w argv cl run cfg →
  ending run = Exited 1 ∧
  console (final run) = [LogInputMissing (srcDir cfg)] ∧
  trace (final run) = [] ∧
  out (final run) = initial_out w.
Proof.
  intros Hi [(-> & f & p & Hp & ->)|(-> & options & src & dest & Hp & Hs & Hd & ->)].
  - unfold Legacy.program. rewrite Hp, Hi. done.
  - unfold Commander.program, Commander.main. rewrite Hp, Hs, Hd.
    cbn [input]. rewrite Hi. done.
Qed.

Lemma missing_input_untouched_witness :
  input Cases.no_input = SrcMissing ∧
  resolved decimal_number Cases.no_input Sample.argv Sample.command_line
    (Legacy.program decimal_number Cases.no_input Sample.argv)
    (Legacy.config ["home"] (flags Sample.config) []) ∧
  let run := Legacy.program decimal_number Cases.no_input Sample.argv in
  let cfg := Legacy.config ["home"] (flags Sample.config) [] in
  ending run = Exited 1 ∧
  console (final run) = [LogInputMissing (srcDir cfg)] ∧
  trace (final run) = [] ∧
  out (final run) = initial_out Cases.no_input.
Proof.
  assert (H1 : input Cases.no_input = SrcMissing) by reflexivity.
  assert (H2 : resolved decimal_number Cases.no_input Sample.argv
                 Sample.command_line
                 (Legacy.program decimal_number Cases.no_input Sample.argv)
                 (Legacy.config ["home"] (flags Sample.config) [])).
  { left. split; [reflexivity|]. eexists _, _. split; reflexivity. }
  split; [exact H1|]. split; [exact H2|].
  exact (missing_input_untouched decimal_number Cases.no_input Sample.argv
           Sample.command_line _ _ H1 H2).
Defined.

End CliMore.

Module OptionFacts.
Import Path Rt Spec CliFacts.

Section Commander.
Variable StringToNumber : string → Js.number.

(** The value [raw] passes [parseIntegerInRange(1, 100)]. *)
Lemma parseIntegerInRange_iff (raw : string) :
  (∃ v, Commander.parseIntegerInRange StringToNumber 1 100 raw = inr v)
  ↔ Js.in_1_100 (StringToNumber raw) ∧ Js.isInteger (StringToNumber raw) = true.
Proof.
  unfold Commander.parseIntegerInRange. rewrite in_1_100_iff. unfold Js.gt.
  destruct (Js.isInteger (StringToNumber raw)) eqn:Hi,
    (Js.lt (StringToNumber raw) (Js.of_Z 1)) eqn:H1,
    (Js.lt (Js.of_Z 100) (StringToNumber raw)) eqn:H2; cbn [negb orb];
    (split; [intros [v Hv]; try done|intros ((Hf & ? & ?) & ?); try done]).
  - split; [|done]. split; [|done]. by destruct (StringToNumber raw).
  - by eexists.
Qed.

Lemma parseIntegerInRange_value (raw : string) v :
  Commander.parseIntegerInRange StringToNumber 1 100 raw = inr v →
  v = StringToNumber raw.
Proof.
  unfold Commander.parseIntegerInRange. destruct (_ || _); [done|].
  by intros [= <-].
Qed.

Lemma parse_options_app os1 os2 opts :
  Commander.parse_options StringToNumber (os1 ++ os2) opts
  = match Commander.parse_options StringToNumber os1 opts with
    | inl e => inl e
    | inr opts' => Commander.parse_options StringToNumber os2 opts'
    end.
Proof.
  revert opts. induction os1 as [|o os1 IH]; intros opts; [done|].
  cbn [app Commander.parse_options].
  destruct (Commander.apply_occurrence StringToNumber o opts); [done|apply IH].
Qed.

Lemma parse_options_ok os :
  ∀ opts,
    (∃ opts', Commander.parse_options StringToNumber os opts = inr opts')
    ↔ ∀ raw, Commander.OptQuality raw ∈ os ∨ Commander.OptPngQuality raw ∈ os →
             Js.in_1_100 (StringToNumber raw)
             ∧ Js.isInteger (StringToNumber raw) = true.
Proof.
  induction os as [|o os IH]; intros opts; cbn [Commander.parse_options].
  { split; [|by eexists]. intros _ raw [H|H]; by apply elem_of_nil in H. }
  assert (Hcons : ∀ P : string → Prop,
    (∀ raw, Commander.OptQuality raw ∈ o :: os
            ∨ Commander.OptPngQuality raw ∈ o :: os → P raw)
    ↔ (∀ raw, o = Commander.OptQuality raw ∨ o = Commander.OptPngQuality raw →
              P raw)
      ∧ (∀ raw, Commander.OptQuality raw ∈ os ∨ Commander.OptPngQuality raw ∈ os →
                P raw)).
  { intros P. split.
    - intros H. split; intros raw [Hr|Hr]; apply H;
        rewrite !elem_of_cons; auto.
    - intros [H1 H2] raw. rewrite !elem_of_cons.
      intros [[Hr|Hr]|[Hr|Hr]]; auto. }
  rewrite Hcons.
  destruct o as [raw| |raw| |]; cbn [Commander.apply_occurrence].
  - pose proof (parseIntegerInRange_iff raw) as Hraw.
    destruct (Commander.parseIntegerInRange StringToNumber 1 100 raw) as [e|v].
    + split; [by intros [? ?]|]. intros [H _].
      assert (Hv : ∃ v, @inl Error Js.number e = inr v)
        by (apply Hraw, (H raw); by left).
      by destruct Hv.
    + rewrite IH. split; [|by intros [_ ?]]. intros H. split; [|done].
      intros r [[= <-]|[=]]. apply Hraw. by eexists.
  - rewrite IH. split; [|by intros [_ ?]]. intros H. split; [|done].
    by intros r [[=]|[=]].
  - pose proof (parseIntegerInRange_iff raw) as Hraw.
    destruct (Commander.parseIntegerInRange StringToNumber 1 100 raw) as [e|v].
    + split; [by intros [? ?]|]. intros [H _].
      assert (Hv : ∃ v, @inl Error Js.number e = inr v)
        by (apply Hraw, (H raw); by right).
      by destruct Hv.
    + rewrite IH. split; [|by intros [_ ?]]. intros H. split; [|done].
      intros r [[=]|[= <-]]. apply Hraw. by eexists.
  - rewrite IH. split; [|by intros [_ ?]]. intros H. split; [|done].
    by intros r [[=]|[=]].
  - rewrite IH. split; [|by intros [_ ?]]. intros H. split; [|done].
    by intros r [[=]|[=]].
Qed.

Lemma parse_options_flags os :
  ∀ opts opts',
    Commander.parse_options StringToNumber os opts = inr opts' →
    (Commander.Opts.rename opts' = true
     ↔ Commander.Opts.rename opts = true ∨ Commander.OptRename ∈ os) ∧
    (Commander.Opts.forceDelete opts' = true
     ↔ Commander.Opts.forceDelete opts = true ∨ Commander.OptForceDelete ∈ os).
Proof.
  induction os as [|o os IH]; intros opts opts'; cbn [Commander.parse_options].
  { intros [= <-]. split; (split; [by left|intros [?|H]; [done|]]);
      by apply elem_of_nil in H. }
  destruct (Commander.apply_occurrence StringToNumber o opts) as [e|o1] eqn:E;
    [done|].
  intros [H1 H2]%IH. rewrite H1, H2, !elem_of_cons.
  destruct o as [raw| |raw| |]; cbn [Commander.apply_occurrence] in E;
    try (destruct (Commander.parseIntegerInRange _ _ _ _); [done|]);
    injection E as <-; cbn; split; split; try tauto;
    intros [?|[?|?]]; auto; done.
Qed.

(** X6.  In the revision built on [commander] the options are
    taken exactly when every value given for [-q] and [-P], also one
    that a later occurrence overrides, is an integer from 1 to 100.
    Then the last value given for an option is the one that is
    used, and [--rename] and [--force-delete] are set exactly when
    they occur. *)
Theorem commander_values (os : list Commander.Occurrence) :
  ((∃ options, Commander.parse_options StringToNumber os
                 Commander.declared_defaults = inr options)
   ↔ ∀ raw, Commander.OptQuality raw ∈ os ∨ Commander.OptPngQuality raw ∈ os →
            Js.in_1_100 (StringToNumber raw)
            ∧ Js.isInteger (StringToNumber raw) = true) ∧
  ∀ options,
    Commander.parse_options StringToNumber os Commander.declared_defaults
    = inr options →
    (∀ os1 raw os2,
       os = os1 ++ Commander.OptQuality raw :: os2 →
       (∀ r, Commander.OptQuality r ∉ os2) →
       jpegQuality (Commander.flags_of options) = StringToNumber raw) ∧
    (∀ os1 raw os2,
       os = os1 ++ Commander.OptPngQuality raw :: os2 →
       (∀ r, Commander.OptPngQuality r ∉ os2) →
       pngQuality (Commander.flags_of options) = StringToNumber raw) ∧
    (renameFiles (Commander.flags_of options) = true
     ↔ Commander.OptRename ∈ os) ∧
    (forceDelete (Commander.flags_of options) = true
     ↔ Commander.OptForceDelete ∈ os).
Proof.
  split; [apply parse_options_ok|]. intros options Hp.
  split; [|split].
  - intros os1 raw os2 -> Hno. rewrite parse_options_app in Hp.
    destruct (Commander.parse_options StringToNumber os1 _) as [e|o1]; [done|].
    cbn [Commander.parse_options Commander.apply_occurrence] in Hp.
    destruct (Commander.parseIntegerInRange StringToNumber 1 100 raw)
      as [e|v] eqn:Hv; [done|].
    apply parseIntegerInRange_value in Hv as ->.
    apply parse_options_invariant in Hp as (_ & _ & Hq & _).
    cbn [jpegQuality Commander.flags_of]. by rewrite Hq.
  - intros os1 raw os2 -> Hno. rewrite parse_options_app in Hp.
    destruct (Commander.parse_options StringToNumber os1 _) as [e|o1]; [done|].
    cbn [Commander.parse_options Commander.apply_occurrence] in Hp.
    destruct (Commander.parseIntegerInRange StringToNumber 1 100 raw)
      as [e|v] eqn:Hv; [done|].
    apply parseIntegerInRange_value in Hv as ->.
    apply parse_options_invariant in Hp as (_ & _ & _ & Hq).
    cbn [pngQuality Commander.flags_of]. by rewrite Hq.
  - apply parse_options_flags in Hp as [H1 H2].
    cbn [renameFiles forceDelete Commander.flags_of]. rewrite H1, H2. cbn.
    split; (split; [by intros [?|?]|by right]).
Qed.
End Commander.
End OptionFacts.

Module NameFacts.
Import Path Rt Spec PathFacts StrFacts.

Lemma is_dot_lower (c : ascii) : Str.is_dot (Str.lower_ascii c) = Str.is_dot c.
Proof. destruct c as [[] [] [] [] [] [] [] []]; reflexivity. Qed.

Lemma toLowerCase_app (a b : string) :
  Str.toLowerCase (a +:+ b) = Str.toLowerCase a +:+ Str.toLowerCase b.
Proof.
  induction a as [|c a IH]; [done|].
  change (String (Str.lower_ascii c) (Str.toLowerCase (a +:+ b))
          = String (Str.lower_ascii c) (Str.toLowerCase a +:+ Str.toLowerCase b)).
  by rewrite IH.
Qed.

Lemma split_last_dot_lower (s : string) :
  Str.split_last_dot (Str.toLowerCase s)
  = (λ be, (Str.toLowerCase be.1, Str.toLowerCase be.2)) <$> Str.split_last_dot s.
Proof.
  induction s as [|c s IH]; [done|]. cbn [Str.toLowerCase Str.split_last_dot].
  rewrite IH, is_dot_lower.
  destruct (Str.split_last_dot s) as [[b e]|]; [done|]. cbn.
  by destruct (Str.is_dot c).
Qed.

Lemma toLowerCase_dots (s : string) : Str.toLowerCase s = ".." ↔ s = "..".
Proof.
  split; [|by intros ->].
  destruct s as [|a [|b [|c s]]]; try done. cbn. intros [= Ha Hb]. f_equal.
  - pose proof (is_dot_lower a) as H. rewrite Ha in H.
    unfold Str.is_dot in H. symmetry in H. by apply bool_decide_eq_true in H.
  - f_equal. pose proof (is_dot_lower b) as H. rewrite Hb in H.
    unfold Str.is_dot in H. symmetry in H. by apply bool_decide_eq_true in H.
Qed.

(** The extension of a name in lower case is the extension of the
    name in lower case. *)
Lemma extname_lower (name : string) :
  extname_name (Str.toLowerCase name) = Str.toLowerCase (extname_name name).
Proof.
  unfold extname_name. rewrite split_last_dot_lower.
  destruct (Str.split_last_dot name) as [[b e]|]; [|done]. cbn.
  destruct (decide (b = "")) as [->|Hb]; [done|].
  rewrite decide_False by (by intros ?%toLowerCase_empty).
  destruct (decide (name = "..")) as [->|Hn]; [by rewrite decide_True|].
  rewrite decide_False; [done|].
  intros H. apply Hn. by apply (proj1 (toLowerCase_dots name)).
Qed.

Lemma split_last_dot_ext (b e : string) :
  Str.split_last_dot e = None →
  Str.split_last_dot (b +:+ String "." e) = Some (b, String "." e).
Proof.
  intros He. induction b as [|c b IH].
  - change (Str.split_last_dot (String "." e) = Some ("", String "." e)).
    cbn [Str.split_last_dot]. by rewrite He.
  - change (Str.split_last_dot (String c (b +:+ String "." e))
            = Some (String c b, String "." e)).
    cbn [Str.split_last_dot]. by rewrite IH.
Qed.

Lemma extname_supported (b ext : string) :
  b ≠ "" → ext ∈ SUPPORTED_EXT → extname_name (b +:+ ext) = ext.
Proof.
  intros Hb He. apply supported_iff in He.
  assert (∃ e, ext = String "." e ∧ Str.split_last_dot e = None
               ∧ (3 ≤ String.length e)%nat) as (e & -> & Hn & Hl).
  { rewrite !elem_of_cons in He.
    destruct He as [->|[->|[->|[->|[->|[->|[->|[->|He]]]]]]]];
      [eexists; split; [reflexivity|]; split; [reflexivity|]; cbn; lia..|].
    by apply elem_of_nil in He. }
  unfold extname_name. rewrite split_last_dot_ext by done.
  rewrite decide_False by done. rewrite decide_False; [done|].
  intros H. apply (f_equal String.length) in H.
  rewrite StrFacts.length_app in H. cbn in H. lia.
Qed.

(** X11.  The walker hands a regular file to the transcoder exactly
    when its name is a stem that is not empty followed by one of the
    eight extensions, in any mix of upper and lower case: [a.PNG] and
    [x.tar.jpeg] are processed, while a file that is only called
    [.png], and [a.png.txt], are skipped. *)
Theorem supported_names (name : string) :
  supported name
  ↔ ∃ stem ext, name = stem +:+ ext ∧ stem ≠ "" ∧
                Str.toLowerCase ext
                ∈ [".jpg"; ".jpeg"; ".png"; ".webp"; ".tiff"; ".gif"; ".avif"; ".bmp"].
Proof.
  unfold supported. split.
  - intros Hs. pose proof (supported_nonempty _ Hs) as Hne.
    assert (He : extname_name name ≠ "") by (by intros H; rewrite H in Hne).
    destruct (extname_split _ He) as (b & Hb & Hn).
    exists b, (extname_name name). split; [done|]. split; [done|].
    by apply supported_iff.
  - intros (stem & ext & -> & Hs & He). apply supported_iff in He.
    rewrite <- extname_lower, toLowerCase_app.
    rewrite extname_supported; [done| |done].
    by intros ?%toLowerCase_empty.
Qed.

Example supported_ex1 : supported "a.PNG" ∧ supported "x.tar.jpeg".
Proof. split; by vm_compute. Qed.
Example supported_ex2 : ¬ supported ".png" ∧ ¬ supported "a.png.txt".
Proof. split; by vm_compute. Qed.
End NameFacts.

Module StepMore.
Import Path Rt Spec PathFacts StrFacts FsFacts StepFacts Claims Frame.

Lemma dest_not_root cfg filePath ext idx :
  Legacy.destPath_of cfg filePath ext idx ≠ [].
Proof.
  intros H. pose proof (destPath_last cfg filePath ext idx) as Hl.
  rewrite H in Hl. cbn in Hl. symmetry in Hl.
  unfold Legacy.destExt_of in Hl.
  destruct (Legacy.newBase_of cfg filePath idx); case_decide; done.
Qed.

Lemma not_prefix_dirname (p : path) : p ≠ [] → ¬ p `prefix_of` dirname p.
Proof.
  intros Hp H%prefix_length. unfold dirname in H.
  destruct p as [|s p] using rev_ind; [done|].
  rewrite removelast_last, List.length_app in H. cbn in H. lia.
Qed.

Lemma is_dir_mkdirs (p dest : path) (m : gmap path Node) :
  ¬ dest `prefix_of` p → is_dir (mkdirs p m) dest = is_dir m dest.
Proof. intros H. unfold is_dir. by rewrite lookup_mkdirs, decide_False. Qed.

Lemma is_dir_true (m : gmap path Node) (p : path) :
  is_dir m p = true ↔ m !! p = Some Dir.
Proof. unfold is_dir. destruct (m !! p) as [[|c]|]; split; done. Qed.

Lemma mkdir_cause (m : gmap path Node) (p q : path) :
  find (is_file m) (prefixes p) = Some q →
  mkdir_error (if decide (q = p) then EEXIST p else ENOTDIR q)
  ∧ ∃ q c, q `prefix_of` p ∧ m !! q = Some (File c).
Proof.
  intros (Hq & c & Hc)%find_is_file_Some. split; [|by exists q, c].
  case_decide; [exists p|exists q]; auto.
Qed.

Ltac attempt_skeleton :=
  eexists _, _; split; [reflexivity|]; state_simpl;
  split; [reflexivity|]; split; [reflexivity|].

Ltac failed_with cause :=
  attempt_skeleton; left; eexists; split; [reflexivity|]; split; [cause|].

Lemma legacy_attempt w cfg filePath ext st :
  Attempt w cfg filePath ext st (Legacy.optimiseImage w cfg filePath ext st).
Proof.
  unfold Attempt, Legacy.optimiseImage, Legacy.optimiseImage_body, drawn, bumped,
    Legacy.nextIndex.
  unfold_run.
  destruct (renameFiles (flags cfg)) eqn:Hr; state_simpl.
  all: match goal with |- context [Legacy.destPath_of _ _ _ ?i] =>
         pose proof (dest_not_root cfg filePath ext i) as Hroot;
         set (dest := Legacy.destPath_of cfg filePath ext i) in * end.
  all: destruct (metadata_of w filePath) as [e|meta] eqn:Hm; state_simpl.
  all: try (failed_with ltac:(by left); by left).
  all: destruct (find (is_file (out st)) (prefixes (dirname dest))) as [q|] eqn:Hf;
    state_simpl.
  all: try (failed_with ltac:(right; left; by eapply mkdir_cause); by left).
  all: pose proof (find_is_file_None _ _ Hf) as Hclear.
  all: rewrite is_dir_mkdirs by (by apply not_prefix_dirname).
  all: destruct (is_dir (out st) dest) eqn:Hd; state_simpl.
  all: try (failed_with ltac:(right; right; left; split; [done|by apply is_dir_true]);
            by right).
  all: unfold is_dir at 1; rewrite mkdirs_self; cbn [negb].
  all: destruct (encode_error w (Legacy.pipeline_of cfg filePath ext meta))
         as [e|] eqn:He; state_simpl.
  all: try (failed_with ltac:(right; right; right; by exists meta); by right).
  all: attempt_skeleton; right; eexists meta, _, _; split; [reflexivity|].
  all: split; [|by split].
  all: split; [done|]; split; [|by exists meta].
  all: intros Hk%is_dir_true; congruence.
Qed.

Lemma commander_attempt w cfg filePath st :
  Attempt w cfg filePath (Commander.sourceExt_of filePath) st
          (Commander.optimiseImage w cfg filePath st).
Proof.
  unfold Attempt, Commander.optimiseImage, Commander.optimiseImage_body, drawn,
    bumped, Commander.getNextIndex.
  unfold_run. change (Commander.topFolder_of cfg filePath)
    with (Legacy.top_of cfg filePath).
  destruct (renameFiles (flags cfg)) eqn:Hr; state_simpl.
  all: rewrite !commander_destination.
  all: match goal with |- context [Legacy.destPath_of _ _ _ ?i] =>
         pose proof (dest_not_root cfg filePath (Commander.sourceExt_of filePath) i)
           as Hroot;
         set (dest := Legacy.destPath_of cfg filePath
                        (Commander.sourceExt_of filePath) i) in * end.
  all: destruct (find (is_file (out st)) (prefixes (dirname dest))) as [q|] eqn:Hf;
    state_simpl.
  all: try (failed_with ltac:(right; left; by eapply mkdir_cause); by left).
  all: pose proof (find_is_file_None _ _ Hf) as Hclear.
  all: destruct (metadata_of w filePath) as [e|meta] eqn:Hm; state_simpl.
  all: try (failed_with ltac:(by left); by right).
  all: rewrite !commander_pipeline.
  all: rewrite is_dir_mkdirs by (by apply not_prefix_dirname).
  all: destruct (is_dir (out st) dest) eqn:Hd; state_simpl.
  all: try (failed_with ltac:(right; right; left; split; [done|by apply is_dir_true]);
            by right).
  all: unfold is_dir at 1; rewrite mkdirs_self; cbn [negb].
  all: destruct (encode_error w (Legacy.pipeline_of cfg filePath
                   (Commander.sourceExt_of filePath) meta)) as [e|] eqn:He;
    state_simpl.
  all: try (failed_with ltac:(right; right; right; by exists meta); by right).
  all: attempt_skeleton; right; eexists meta, _, _; split; [reflexivity|].
  all: split; [|by split].
  all: split; [done|]; split; [|by exists meta].
  all: intros Hk%is_dir_true; congruence.
Qed.
Lemma sourceExt_rel cfg r name :
  Commander.sourceExt_of (srcDir cfg ++ r ++ [name])
  = Str.toLowerCase (extname_name name).
Proof.
  unfold Commander.sourceExt_of, extname. by rewrite app_assoc, last_portion_snoc.
Qed.

Lemma commander_dest_rel cfg r name idx :
  Commander.destinationPath_of cfg (srcDir cfg ++ r ++ [name]) idx
  = Legacy.destPath_of cfg (srcDir cfg ++ r ++ [name])
      (Str.toLowerCase (extname_name name)) idx.
Proof. by rewrite commander_destination, sourceExt_rel. Qed.
End StepMore.

Module WalkRule.
Import Path Rt Spec PathFacts StrFacts FsFacts StepFacts WalkFacts.

(** A rule for properties of the walk that hold whether it returns or
    throws: a relation between the state at the start and the outcome
    that passes through sequencing, under a condition on the state
    that the relation keeps, holds of the walk when it holds of its
    calls. *)
Section Rule.
Variable cfg : Config.
Variable handler : path → string → M unit.
Variable P : State → Prop.
Variable R : State → Outcome unit → Prop.
Hypothesis R_refl : ∀ st, P st → R st (Ok tt st).
Hypothesis R_trans : ∀ st st1 o, P st → R st (Ok tt st1) → R st1 o → R st o.
Hypothesis P_kept : ∀ st st1, P st → R st (Ok tt st1) → P st1.
Hypothesis R_mkdir : ∀ d st,
  Forall valid_name d → P st → R st (fs_mkdir (destDir cfg ++ d) st).
Hypothesis R_readdir : ∀ p st, P st → R st (fs_readdir_in p st).
Lemma rule_bind (m k : M unit) st :
  P st → R st (m st) → (∀ st1, P st1 → R st1 (k st1)) → R st ((m >>> k) st).
Proof.
  intros HP Hm Hk. unfold bind.
  destruct (m st) as [[] st1|e st1] eqn:E; [|done].
  eapply R_trans; [done|exact Hm|]. apply Hk. by eapply P_kept.
Qed.

Lemma rule_forEach (f : Entry → M unit) es :
  Forall (λ e, ∀ st, P st → R st (f e st)) es →
  ∀ st, P st → R st (forEach f es st).
Proof.
  induction 1 as [|e es He _ IH]; intros st HP; [by apply R_refl|].
  apply (rule_bind (f e) (forEach f es)); auto.
Qed.

(** The rule with a fact [Q] about the place of an entry that passes
    from a directory to its entries: the transcoder is only called
    for files of which [Q] holds. *)
Section Located.
Variable Q : list string → Entry → Prop.
Hypothesis Q_sub : ∀ rel name sub e,
  Q rel (EntDir name sub) → e ∈ sub → Q (rel ++ [name]) e.
Hypothesis R_located : ∀ rel name st,
  Q rel (EntFile name) → Forall valid_name rel → supported name → P st →
  R st (handler (srcDir cfg ++ rel ++ [name])
                (Str.toLowerCase (extname_name name)) st).

Lemma located_walkEntry e :
  ∀ rel st,
    Q rel e → valid_entry e = true → Forall valid_name rel → P st →
    R st (Walk.walkEntry cfg handler (srcDir cfg ++ rel) e st).
Proof.
  induction e as [name|name sub IH|name] using Entry_nested_ind;
    intros rel st HQ Hv Hrel HP.
  - rewrite walkEntry_file.
    pose proof (valid_entry_name _ Hv) as Hn. cbn [entry_name] in Hn.
    rewrite join_valid by (by apply Forall_singleton).
    destruct (decide (supported name)); [|by apply R_refl].
    rewrite <- app_assoc. by apply R_located.
  - rewrite walkEntry_dir.
    pose proof (valid_entry_name _ Hv) as Hn. cbn [entry_name] in Hn.
    assert (Hrel' : Forall valid_name (rel ++ [name])).
    { apply Forall_app. split; [done|]. by apply Forall_singleton. }
    rewrite !(join_valid (srcDir cfg ++ rel) [name])
      by (by apply Forall_singleton).
    rewrite <- app_assoc, relative_app. rewrite join_valid by done.
    apply rule_bind; [done|by apply R_mkdir|]. intros st1 HP1.
    apply rule_bind; [done|by apply R_readdir|]. intros st2 HP2.
    apply rule_forEach; [|done].
    pose proof (valid_entry_sub _ _ Hv) as Hsub.
    rewrite Forall_forall in IH, Hsub. apply Forall_forall.
    intros e He st3 HP3. apply IH; eauto.
  - by apply R_refl.
Qed.

Lemma located_walkDir es st :
  (∀ e, e ∈ es → Q [] e) → valid_tree es = true → P st →
  R st (Walk.walkDir cfg handler (srcDir cfg) es st).
Proof.
  intros HQ Hv HP. unfold Walk.walkDir.
  apply rule_bind; [done|by apply R_readdir|]. intros st1 HP1.
  apply rule_forEach; [|done]. apply Forall_forall. intros e He st2 HP2.
  rewrite <- (app_nil_r (srcDir cfg)).
  apply located_walkEntry; [by apply HQ| |done|done].
  unfold valid_tree in Hv. rewrite forallb_forall in Hv.
  apply Hv. by apply list_elem_of_In.
Qed.
End Located.

Hypothesis R_handler : ∀ rel name st,
  Forall valid_name rel → supported name → P st →
  R st (handler (srcDir cfg ++ rel ++ [name])
                (Str.toLowerCase (extname_name name)) st).

Lemma rule_walkEntry e :
  ∀ rel st,
    valid_entry e = true → Forall valid_name rel → P st →
    R st (Walk.walkEntry cfg handler (srcDir cfg ++ rel) e st).
Proof.
  intros rel st. by apply (located_walkEntry (λ _ _, True)); auto.
Qed.

Lemma rule_walkDir es st :
  valid_tree es = true → P st →
  R st (Walk.walkDir cfg handler (srcDir cfg) es st).
Proof. by apply (located_walkDir (λ _ _, True)); auto. Qed.
End Rule.
End WalkRule.

Module FrameFacts.
Import Path Rt Spec PathFacts StrFacts FsFacts StepFacts WalkFacts Claims Frame.
Import StepMore WalkRule.

Lemma rooted_kept cfg st o :
  rooted cfg (out st) → Contained cfg st o → rooted cfg (out (final_state o)).
Proof. intros Hr [_ Hd] q Hq. apply Hd. by apply Hr. Qed.

Lemma Contained_refl cfg st : Contained cfg st (Ok tt st).
Proof. by split. Qed.

Lemma Contained_trans cfg st st1 o :
  Contained cfg st (Ok tt st1) → Contained cfg st1 o → Contained cfg st o.
Proof.
  intros [H1 H2] [H3 H4]. cbn [final_state] in *. split.
  - intros k Hk. by rewrite H3, H1.
  - auto.
Qed.

(** Creating a directory below the output directory changes nothing
    outside it. *)
Lemma mkdirs_outside (cfg : Config) (d : list string) (m : gmap path Node) (k : path) :
  rooted cfg m → ¬ destDir cfg `prefix_of` k →
  mkdirs (destDir cfg ++ d) m !! k = m !! k.
Proof.
  intros Hr Hk. rewrite lookup_mkdirs. case_decide as Hp; [|done].
  destruct (prefix_weak_total k (destDir cfg) (destDir cfg ++ d)) as [H|H];
    [done|by apply prefix_app_r|by rewrite Hr|done].
Qed.

Lemma Contained_mkdir cfg d st :
  rooted cfg (out st) → Contained cfg st (fs_mkdir (destDir cfg ++ d) st).
Proof.
  intros Hr. unfold fs_mkdir. state_simpl.
  destruct (find _ _); cbn [final_state]; state_simpl; [by split|].
  split; [intros k Hk; by apply mkdirs_outside|intros k; apply mkdirs_dir].
Qed.

Lemma Contained_attempt w cfg rel name ext st o :
  Forall valid_name rel → rooted cfg (out st) →
  Attempt w cfg (srcDir cfg ++ rel ++ [name]) ext st o →
  Contained cfg st o.
Proof.
  intros Hrel Hr (st' & line & -> & _ & _ & Hcase). cbn zeta in Hcase.
  rewrite destPath_dirname in Hcase by done.
  rewrite destPath_shape in Hcase by done.
  unfold Contained. cbn [final_state].
  destruct Hcase as [(e & _ & _ & [->| [-> _]])
                    |(meta & status & note & _ & (_ & Hnd & _) & _ & ->)].
  - by split.
  - split; [intros k Hk; by apply mkdirs_outside|intros k; apply mkdirs_dir].
  - split.
    + intros k Hk. rewrite lookup_insert_ne; [by apply mkdirs_outside|].
      intros <-. apply Hk. by apply prefix_app_r.
    + intros k Hd. rewrite lookup_insert_ne; [by apply mkdirs_dir|].
      by intros <-.
Qed.

Lemma handlers_attempt w cfg filePath ext st :
  (∃ ext', Attempt w cfg filePath ext' st (Legacy.optimiseImage w cfg filePath ext st)) ∧
  (∃ ext', Attempt w cfg filePath ext' st (Commander.optimiseImage w cfg filePath st)).
Proof.
  split; eexists; [apply legacy_attempt|apply commander_attempt].
Qed.

Lemma walk_of_generic w cfg es st o :
  walk_of w cfg es st o →
  ∃ handler,
    o = Walk.walkDir cfg handler (srcDir cfg) es st ∧
    ∀ filePath ext st1, ∃ ext', Attempt w cfg filePath ext' st1 (handler filePath ext st1).
Proof.
  intros [->| ->].
  - exists (Legacy.optimiseImage w cfg). split; [done|].
    intros. eexists. apply legacy_attempt.
  - exists (λ fullPath _, Commander.optimiseImage w cfg fullPath). split; [done|].
    intros. eexists. apply commander_attempt.
Qed.

Lemma walk_Contained w cfg es st o :
  valid_tree es = true → rooted cfg (out st) → walk_of w cfg es st o →
  Contained cfg st o.
Proof.
  intros Hv Hr (handler & -> & Hh)%walk_of_generic.
  apply (rule_walkDir cfg handler (λ s, rooted cfg (out s)) (Contained cfg));
    [ intros; apply Contained_refl
    | intros; by eapply Contained_trans
    | intros s s1 HP HR; by apply (rooted_kept cfg s (Ok tt s1))
    | intros d s _ HP; by apply Contained_mkdir
    | intros p s _; by split
    | | done | done ].
  intros rel name s Hrel _ HP.
  destruct (Hh (srcDir cfg ++ rel ++ [name])
              (Str.toLowerCase (extname_name name)) s) as [ext' Ha].
  by eapply Contained_attempt.
Qed.

(** X15.  Started in a tree where the output directory and the
    directories above it exist, the walk of either revision, whether
    it returns or throws, leaves every path outside the output
    directory as it was and removes no directory. *)
Theorem walk_contained w cfg es st o :
  valid_tree es = true →
  rooted cfg (out st) →
  walk_of w cfg es st o →
  (∀ k, ¬ destDir cfg `prefix_of` k → out (final_state o) !! k = out st !! k) ∧
  (∀ k, out st !! k = Some Dir → out (final_state o) !! k = Some Dir).
Proof. intros Hv Hr Hw. by apply (walk_Contained w cfg es). Qed.

Lemma walk_contained_witness :
  valid_tree Sample.entries = true ∧
  rooted Sample.config (out Sample.prepared) ∧
  walk_of Sample.world Sample.config Sample.entries Sample.prepared
    (Ok tt Sample.walked) ∧
  (∀ k, ¬ destDir Sample.config `prefix_of` k →
        out (final_state (Ok tt Sample.walked)) !! k = out Sample.prepared !! k) ∧
  (∀ k, out Sample.prepared !! k = Some Dir →
        out (final_state (Ok tt Sample.walked)) !! k = Some Dir).
Proof.
  assert (H1 : valid_tree Sample.entries = true) by reflexivity.
  assert (H2 : rooted Sample.config (out Sample.prepared)).
  { intros q Hq%prefixes_spec. cbn in Hq.
    rewrite !elem_of_cons in Hq.
    destruct Hq as [->|[->|[->|Hq]]]; [by vm_compute..|].
    by apply elem_of_nil in Hq. }
  assert (H3 : walk_of Sample.world Sample.config Sample.entries Sample.prepared
                 (Ok tt Sample.walked)).
  { left. vm_compute. reflexivity. }
  split; [exact H1|]. split; [exact H2|]. split; [exact H3|].
  exact (walk_contained Sample.world Sample.config Sample.entries
           Sample.prepared (Ok tt Sample.walked) H1 H2 H3).
Defined.



End FrameFacts.

Module DestFacts.
Import Path Rt Spec PathFacts StrFacts FsFacts StepFacts WalkFacts Claims.
Import TreeFacts WalkClaims StepMore.

Lemma append_inj_suffix (a b e1 e2 : string) :
  String.length e1 = String.length e2 →
  a +:+ e1 = b +:+ e2 → a = b ∧ e1 = e2.
Proof.
  revert b. induction a as [|c a IH]; intros [|d b] Hl H.
  - done.
  - change (e1 = String d (b +:+ e2)) in H. subst e1. cbn in Hl.
    rewrite StrFacts.length_app in Hl. lia.
  - change (String c (a +:+ e1) = e2) in H. subst e2. cbn in Hl.
    rewrite StrFacts.length_app in Hl. lia.
  - change (String c (a +:+ e1) = String d (b +:+ e2)) in H.
    injection H as -> H. by destruct (IH b Hl H) as [-> ->].
Qed.

Lemma append_inj_prefix (a x y : string) : a +:+ x = a +:+ y → x = y.
Proof.
  induction a as [|c a IH]; [done|].
  change (String c (a +:+ x) = String c (a +:+ y) → x = y). intros [= H]. auto.
Qed.

Lemma append_assoc (a b c : string) : (a +:+ b) +:+ c = a +:+ (b +:+ c).
Proof.
  induction a as [|x a IH]; [done|].
  change (String x ((a +:+ b) +:+ c) = String x (a +:+ (b +:+ c))). by rewrite IH.
Qed.

Lemma destExt_length ext : String.length (Legacy.destExt_of ext) = 4%nat.
Proof. unfold Legacy.destExt_of. by case_decide. Qed.

Lemma destExt_eq ext1 ext2 :
  Legacy.destExt_of ext1 = Legacy.destExt_of ext2 ↔ (ext1 = ".png" ↔ ext2 = ".png").
Proof. unfold Legacy.destExt_of. repeat case_decide; split; try done; tauto. Qed.

Lemma newBase_plain cfg r name idx :
  renameFiles (flags cfg) = false →
  Legacy.newBase_of cfg (srcDir cfg ++ r ++ [name]) idx
  = basename_name name (extname_name name).
Proof.
  intros Hr. unfold Legacy.newBase_of, Legacy.baseName_of, basename_ext, extname.
  by rewrite Hr, app_assoc, last_portion_snoc.
Qed.

(** X13.  Without [--rename], two files of the input tree are written
    to the same destination exactly when they lie in the same
    directory, have the same name up to the extension, and are both
    PNG or both not: [a.jpg] and [a.webp] of one directory both go to
    [a.jpg], while [a.png] has a file of its own.  Both revisions
    compute this destination. *)
Theorem same_destination cfg r1 n1 r2 n2 :
  renameFiles (flags cfg) = false →
  Forall valid_name r1 → Forall valid_name r2 →
  let ext n := Str.toLowerCase (extname_name n) in
  let dest r n := Legacy.destPath_of cfg (srcDir cfg ++ r ++ [n]) (ext n) None in
  (dest r1 n1 = dest r2 n2
   ↔ r1 = r2 ∧
     basename_name n1 (extname_name n1) = basename_name n2 (extname_name n2) ∧
     (ext n1 = ".png" ↔ ext n2 = ".png")) ∧
  Commander.destinationPath_of cfg (srcDir cfg ++ r1 ++ [n1]) None = dest r1 n1.
Proof.
  intros Hr H1 H2 ext dest. split; [|apply commander_dest_rel].
  subst dest. cbn beta. rewrite !destPath_shape, !newBase_plain by done.
  rewrite <- destExt_eq. split.
  - intros H%app_inv_head. apply app_inj_tail in H as [-> H].
    apply append_inj_suffix in H; [by destruct H|by rewrite !destExt_length].
  - intros (-> & -> & ->). done.
Qed.

Lemma same_destination_witness :
  renameFiles (flags Cases.keep_names) = false ∧
  Forall valid_name ["sub"] ∧ Forall valid_name ["sub"] ∧
  let ext n := Str.toLowerCase (extname_name n) in
  let dest r n :=
    Legacy.destPath_of Cases.keep_names (srcDir Cases.keep_names ++ r ++ [n])
      (ext n) None in
  (dest ["sub"] "a.jpg" = dest ["sub"] "a.webp"
   ↔ ["sub"] = ["sub"] ∧
     basename_name "a.jpg" (extname_name "a.jpg")
     = basename_name "a.webp" (extname_name "a.webp") ∧
     (ext "a.jpg" = ".png" ↔ ext "a.webp" = ".png")) ∧
  Commander.destinationPath_of Cases.keep_names
    (srcDir Cases.keep_names ++ ["sub"] ++ ["a.jpg"]) None
  = dest ["sub"] "a.jpg".
Proof.
  assert (H1 : renameFiles (flags Cases.keep_names) = false) by reflexivity.
  assert (H2 : Forall valid_name ["sub"]).
  { apply Forall_singleton. by vm_compute. }
  split; [exact H1|]. split; [exact H2|]. split; [exact H2|].
  exact (same_destination Cases.keep_names ["sub"] "a.jpg" ["sub"] "a.webp"
           H1 H2 H2).
Defined.

Lemma filter_take_lt {A} (P : A → Prop) `{!∀ x, Decision (P x)} (l : list A)
    (i j : nat) (x : A) :
  (i < j)%nat → l !! i = Some x → P x →
  (length (filter P (take i l)) < length (filter P (take j l)))%nat.
Proof.
  intros Hij Hx HP.
  replace j with (S i + (j - S i))%nat by lia.
  rewrite <- take_take_drop, (take_S_r _ _ _ Hx), !filter_app, !List.length_app.
  rewrite filter_cons_True, filter_nil by done. cbn. lia.
Qed.

(** The line of the [i]-th supported file of a walk with [--rename]
    that started with fresh counters. *)
Lemma renamed_line w cfg es st st' i f line :
  valid_tree es = true → counters st = ∅ → renameFiles (flags cfg) = true →
  walk_of w cfg es st (Ok tt st') →
  files_of [] es !! i = Some f →
  new_lines st st' !! i = Some line →
  (∃ e, line = LogFailed (srcDir cfg ++ f) e)
  ∨ ∃ status note,
      line = LogDone f
               (dirname f ++ [(top_folder cfg f +:+ "-"
                               +:+ pretty (rank cfg (files_of [] es) i f))
                              +:+ Legacy.destExt_of (ext_of f)])
               status note.
Proof.
  intros Hv Hc Hren Hw Hf Hline.
  destruct (walk_walked _ _ _ _ _ Hv Hw) as (lines & evs & Hl & _ & Hr & _).
  rewrite Hl in Hline.
  pose proof (Reports_index _ _ _ _ _ Hr i f line Hf Hline) as Hrep.
  assert (Hin : f ∈ files_of [] es) by (by eapply list_elem_of_lookup_2).
  destruct (files_of_valid _ _ Hv Hin) as (r & name & -> & Hrv & Hs).
  destruct Hrep as [?|(status & note & ->)]; [by left|right].
  rewrite relative_app, destPath_shape, relative_app by done.
  rewrite dirname_snoc. eexists status, note. do 3 f_equal.
  unfold Legacy.newBase_of. rewrite Hren. cbn [render_index].
  rewrite Hc, counter_or_1_empty.
  rewrite top_of_rel by done. do 3 f_equal.
  unfold rank. rewrite Nat2N.inj_succ, <- N.add_1_l. do 3 f_equal.
  apply filter_length_ext. intros g Hg.
  assert (Hgin : g ∈ files_of [] es) by (by eapply subseteq_take).
  destruct (files_of_valid _ _ Hv Hgin) as (r' & name' & -> & Hrv' & _).
  by rewrite top_of_rel.
Qed.

Lemma renamed_lt w cfg es st st' i j si di ti ni sj dj tj nj :
  valid_tree es = true → counters st = ∅ → renameFiles (flags cfg) = true →
  walk_of w cfg es st (Ok tt st') →
  (i < j)%nat →
  new_lines st st' !! i = Some (LogDone si di ti ni) →
  new_lines st st' !! j = Some (LogDone sj dj tj nj) →
  di ≠ dj.
Proof.
  intros Hv Hc Hren Hw Hij Hi Hj Heq.
  destruct (walk_walked _ _ _ _ _ Hv Hw) as (lines & evs & Hl & _ & Hr & _).
  pose proof (Reports_length _ _ _ _ _ Hr) as Hlen. rewrite <- Hl in Hlen.
  destruct (lookup_lt_is_Some_2 (files_of [] es) i) as [fi Hfi].
  { rewrite <- Hlen. by eapply lookup_lt_Some. }
  destruct (lookup_lt_is_Some_2 (files_of [] es) j) as [fj Hfj].
  { rewrite <- Hlen. by eapply lookup_lt_Some. }
  destruct (renamed_line _ _ _ _ _ _ _ _ Hv Hc Hren Hw Hfi Hi)
    as [(e & [=])|(s1 & n1 & [= -> Hdi _ _])].
  destruct (renamed_line _ _ _ _ _ _ _ _ Hv Hc Hren Hw Hfj Hj)
    as [(e & [=])|(s2 & n2 & [= -> Hdj _ _])].
  rewrite Heq, Hdj in Hdi. apply app_inj_tail in Hdi as [Hdir Hname].
  assert (Htop : top_folder cfg fi = top_folder cfg fj).
  { unfold top_folder. by rewrite Hdir. }
  apply append_inj_suffix in Hname as [Hname _]; [|by rewrite !destExt_length].
  rewrite Htop in Hname.
  apply append_inj_prefix, (append_inj_prefix "-") in Hname.
  apply (inj pretty) in Hname. unfold rank in Hname.
  apply (inj N.of_nat) in Hname. injection Hname as Hname.
  pose proof (filter_take_lt (λ g, top_folder cfg g = top_folder cfg fj)
                (files_of [] es) i j fi Hij Hfi Htop) as Hlt.
  rewrite Htop in Hname. lia.
Qed.

(** X14.  With [--rename], in a walk that starts with fresh counters
    and returns, no two files are reported with the same destination:
    every file that is written has an output file of its own.  This
    holds in both revisions. *)
Theorem renamed_distinct w cfg es st st' i j si di ti ni sj dj tj nj :
  valid_tree es = true → counters st = ∅ → renameFiles (flags cfg) = true →
  walk_of w cfg es st (Ok tt st') →
  i ≠ j →
  new_lines st st' !! i = Some (LogDone si di ti ni) →
  new_lines st st' !! j = Some (LogDone sj dj tj nj) →
  di ≠ dj.
Proof.
  intros Hv Hc Hren Hw Hij Hi Hj.
  destruct (decide (i < j)%nat).
  - by eapply renamed_lt.
  - intros Heq. symmetry in Heq. revert Heq.
    eapply (renamed_lt w cfg es st st' j i); eauto. lia.
Qed.

Lemma renamed_distinct_witness :
  valid_tree Sample.entries = true ∧
  counters Sample.prepared = ∅ ∧
  renameFiles (flags Sample.config) = true ∧
  walk_of Sample.world Sample.config Sample.entries Sample.prepared
    (Ok tt Sample.walked) ∧
  0%nat ≠ 1%nat ∧
  new_lines Sample.prepared Sample.walked !! 0%nat
  = Some (LogDone ["a.PNG"] ["input-1.png"] (StatusPng (Js.of_Z 60)) ", renamed") ∧
  new_lines Sample.prepared Sample.walked !! 1%nat
  = Some (LogDone ["sub"; "b.webp"] ["sub"; "sub-1.jpg"]
                  (StatusJpeg (Js.of_Z 75)) ", renamed") ∧
  ["input-1.png"] ≠ ["sub"; "sub-1.jpg"].
Proof.
  assert (H1 : valid_tree Sample.entries = true) by reflexivity.
  assert (H2 : counters Sample.prepared = ∅) by (vm_compute; reflexivity).
  assert (H3 : renameFiles (flags Sample.config) = true) by reflexivity.
  assert (H4 : walk_of Sample.world Sample.config Sample.entries Sample.prepared
                 (Ok tt Sample.walked)).
  { left. vm_compute. reflexivity. }
  assert (H5 : 0%nat ≠ 1%nat) by lia.
  assert (H6 : new_lines Sample.prepared Sample.walked !! 0%nat
               = Some (LogDone ["a.PNG"] ["input-1.png"] (StatusPng (Js.of_Z 60))
                               ", renamed")) by (vm_compute; reflexivity).
  assert (H7 : new_lines Sample.prepared Sample.walked !! 1%nat
               = Some (LogDone ["sub"; "b.webp"] ["sub"; "sub-1.jpg"]
                               (StatusJpeg (Js.of_Z 75)) ", renamed"))
    by (vm_compute; reflexivity).
  split; [exact H1|]. split; [exact H2|]. split; [exact H3|]. split; [exact H4|].
  split; [exact H5|]. split; [exact H6|]. split; [exact H7|].
  exact (renamed_distinct Sample.world Sample.config Sample.entries
           Sample.prepared Sample.walked 0 1 _ _ _ _ _ _ _ _
           H1 H2 H3 H4 H5 H6 H7).
Defined.
End DestFacts.

Module PrepMore.
Import Path Rt Spec PathFacts StrFacts FsFacts StepFacts WalkFacts Claims PrepFacts.
Import Frame.

Ltac prep_result :=
  eexists; split; [reflexivity|]; unfold new_events, new_lines; state_simpl;
  rewrite <- ?app_assoc, ?drop_app_length; cbn [app].

(** What the preparation does when no regular file is in its way. *)
Lemma prepare_cases w cfg msg st :
  (∀ q c, q `prefix_of` destDir cfg → out st !! q ≠ Some (File c)) →
  ∃ st',
    Prepare.prepare w cfg msg st = Ok tt st' ∧
    counters st' = counters st ∧
    ((wipes w cfg st ∧
      out st' = mkdirs (destDir cfg) (remove_tree (destDir cfg) (out st)) ∧
      new_events st st'
      = [EvReaddir (destDir cfg); EvRm (destDir cfg); EvMkdir (destDir cfg)] ∧
      new_lines st st' = [LogOut msg])
     ∨ (¬ wipes w cfg st ∧
        out st' = mkdirs (destDir cfg) (out st) ∧
        (EvRm (destDir cfg) ∉ new_events st st') ∧
        new_lines st st' = [])).
Proof.
  intros Hfree.
  pose proof (find_is_file_complete _ _ Hfree) as Hfind.
  pose proof (find_after_remove _ _ Hfree) as Hfind'.
  unfold wipes, Prepare.prepare, fs_readdir_out, existsSync. unfold_run.
  destruct (out st !! destDir cfg) as [[|c]|] eqn:Hd.
  - rewrite bool_decide_eq_true_2 by eauto. state_simpl. rewrite Hd. state_simpl.
    destruct (child_names (out st) (destDir cfg)) as [|n l] eqn:Hn;
      cbn [length Nat.ltb Nat.leb].
    + state_simpl. rewrite Hfind. prep_result. rewrite drop_all.
      split; [done|]. right.
      split; [intros (_ & Hent%has_entries_names & _); by rewrite Hn in Hent|].
      split; [done|]. split; [not_rm|done].
    + assert (Hent : has_entries (out st) (destDir cfg)).
      { apply has_entries_names. by rewrite Hn. }
      destruct (forceDelete (flags cfg)) eqn:Hforce;
        [|destruct (confirm w) eqn:Hconf]; state_simpl.
      * rewrite Hfind'. prep_result. split; [done|]. left. auto 10.
      * rewrite Hfind'. prep_result. split; [done|]. left. auto 10.
      * rewrite Hfind. prep_result. rewrite drop_all. split; [done|]. right.
        split; [intros (_ & _ & [?|?]); done|].
        split; [done|]. split; [not_rm|done].
  - by destruct (Hfree (destDir cfg) c).
  - rewrite bool_decide_eq_false_2 by (by intros [? ?]). state_simpl.
    rewrite Hfind. prep_result. rewrite drop_all. split; [done|]. right.
    split; [by intros ([? ?] & _)|]. split; [done|]. split; [not_rm|done].
Qed.



(** X2.  Without [--force-delete], and with no regular file in the
    way, the answer typed at the prompt decides: the output directory
    is removed exactly when it exists with at least one entry and the
    answer, without the white space around it, is [y] or [yes] in any
    mix of cases.  With any other answer, the empty one included,
    everything that was in the tree is still there; with [y] or [yes]
    nothing is left below the output directory. *)
Theorem answer_decides w cfg st o answer :
  prepare_of (Prompt.answering w answer) cfg st o →
  (∀ q c, q `prefix_of` destDir cfg → out st !! q ≠ Some (File c)) →
  forceDelete (flags cfg) = false →
  ∃ st',
    o = Ok tt st' ∧
    (EvRm (destDir cfg) ∈ new_events st st'
     ↔ is_Some (out st !! destDir cfg) ∧ has_entries (out st) (destDir cfg) ∧
       Str.toLowerCase (Prompt.trim answer) ∈ ["y"; "yes"]) ∧
    (EvRm (destDir cfg) ∉ new_events st st' →
     ∀ k n, out st !! k = Some n → out st' !! k = Some n) ∧
    (EvRm (destDir cfg) ∈ new_events st st' →
     ∀ k, destDir cfg `prefix_of` k → k ≠ destDir cfg → out st' !! k = None).
Proof.
  intros Ho Hfree Hforce. apply prepare_of_generic in Ho as [msg ->].
  assert (Hyes : confirm (Prompt.answering w answer) = true
                 ↔ Str.toLowerCase (Prompt.trim answer) ∈ ["y"; "yes"]).
  { cbn [confirm Prompt.answering]. unfold Prompt.askYesNo.
    rewrite PromptFacts.test_yes, elem_of_cons, list_elem_of_singleton. done. }
  destruct (prepare_cases (Prompt.answering w answer) cfg msg st Hfree)
    as (st' & -> & _ & [((Hs & He & Hc) & Ho & Hev & _)|(Hnw & Ho & Hev & _)]).
  - exists st'. split; [done|]. rewrite Hev.
    destruct Hc as [Hc|Hc]; [congruence|]. apply Hyes in Hc.
    split; [split; [done|intros _; right; by left]|]. split.
    + intros Hn. destruct Hn. right. by left.
    + intros _ k Hk Hne. rewrite Ho. by apply wiped_below.
  - exists st'. split; [done|]. split; [|split].
    + split; [done|]. intros (Hs & He & Hy). destruct Hnw.
      split; [done|]. split; [done|]. right. by apply Hyes.
    + intros _ k n Hk. rewrite Ho. by apply mkdirs_keeps.
    + done.
Qed.

Lemma answer_decides_witness :
  prepare_of (Prompt.answering Sample.world "") Cases.ask_first Sample.start
    (Commander.prepareOutput (Prompt.answering Sample.world "") Cases.ask_first
       Sample.start) ∧
  (∀ q c, q `prefix_of` destDir Cases.ask_first →
          out Sample.start !! q ≠ Some (File c)) ∧
  forceDelete (flags Cases.ask_first) = false ∧
  ∃ st',
    Commander.prepareOutput (Prompt.answering Sample.world "") Cases.ask_first
      Sample.start = Ok tt st' ∧
    (EvRm (destDir Cases.ask_first) ∈ new_events Sample.start st'
     ↔ is_Some (out Sample.start !! destDir Cases.ask_first) ∧
       has_entries (out Sample.start) (destDir Cases.ask_first) ∧
       Str.toLowerCase (Prompt.trim "") ∈ ["y"; "yes"]) ∧
    (EvRm (destDir Cases.ask_first) ∉ new_events Sample.start st' →
     ∀ k n, out Sample.start !! k = Some n → out st' !! k = Some n) ∧
    (EvRm (destDir Cases.ask_first) ∈ new_events Sample.start st' →
     ∀ k, destDir Cases.ask_first `prefix_of` k → k ≠ destDir Cases.ask_first →
          out st' !! k = None).
Proof.
  assert (H1 : prepare_of (Prompt.answering Sample.world "") Cases.ask_first
                 Sample.start
                 (Commander.prepareOutput (Prompt.answering Sample.world "")
                    Cases.ask_first Sample.start)) by (by right).
  assert (H2 : ∀ q c, q `prefix_of` destDir Cases.ask_first →
                      out Sample.start !! q ≠ Some (File c)).
  { intros q c Hq%prefixes_spec. cbn in Hq. rewrite !elem_of_cons in Hq.
    destruct Hq as [->|[->|[->|Hq]]]; [by vm_compute..|].
    by apply elem_of_nil in Hq. }
  assert (H3 : forceDelete (flags Cases.ask_first) = false) by reflexivity.
  split; [exact H1|]. split; [exact H2|]. split; [exact H3|].
  exact (answer_decides Sample.world Cases.ask_first Sample.start _ "" H1 H2 H3).
Defined.

(** X9.  When the input path exists but is not a directory, a run of
    either revision whose command line was resolved still prepares the
    output directory first, and removes what was in it when the flag
    or the user says so; only then does reading the input fail, and
    the run ends with that error, uncaught in the hand-written
    revision and reported as fatal with the exit status 1 in the
    other. *)
Theorem input_not_directory (StringToNumber : string → Js.number) (w : World)
    (argv : list string) (cl : Commander.CommandLine) (run : Run) (cfg : Config) :
  input w = SrcNotDir →
  resolved StringToNumber w argv cl run cfg →
  (∀ q c, q `prefix_of` destDir cfg → initial_out w !! q ≠ Some (File c)) →
  ∃ st1,
    prepare_of w cfg (initial_state w) (Ok tt st1) ∧
    out (final run) = out st1 ∧
    new_events st1 (final run) = [EvReaddir (srcDir cfg)] ∧
    (ending run = Crashed (ENOTDIR (srcDir cfg))
     ∨ ending run = Exited 1 ∧
       last (console (final run)) = Some (LogFatal (ENOTDIR (srcDir cfg)))) ∧
    (wipes w cfg (initial_state w) →
     ∀ k, destDir cfg `prefix_of` k → k ≠ destDir cfg → out (final run) !! k = None).
Proof.
  intros Hi Hres Hfree.
  assert (Hwiped : ∀ st1 msg,
    Prepare.prepare w cfg msg (initial_state w) = Ok tt st1 →
    wipes w cfg (initial_state w) →
    ∀ k, destDir cfg `prefix_of` k → k ≠ destDir cfg → out st1 !! k = None).
  { intros st1 msg Hp Hw k Hk Hne.
    destruct (prepare_cases w cfg msg (initial_state w) Hfree)
      as (st' & Hp' & _ & [(_ & Ho & _)|(Hnw & _)]); [|done].
    rewrite Hp in Hp'. injection Hp' as <-. rewrite Ho. by apply wiped_below. }
  destruct Hres as [(-> & f & p & Hp & ->)
                   |(-> & options & src & dest & Hp & Hs & Hd & ->)].
  - unfold Legacy.program. rewrite Hp, Hi. unfold Legacy.pipeline. rewrite Hi.
    change (Legacy.prepareOutput w ?c) with
      (Prepare.prepare w c "Previous optimised images deleted.").
    set (cfg := Legacy.config (cwd w) f p) in *.
    destruct (prepare_cases w cfg "Previous optimised images deleted."
                (initial_state w) Hfree) as (st1 & Hprep & _ & _).
    unfold_run. rewrite !Hprep. cbn [ending final].
    exists st1. split; [by left|]. state_simpl. split; [done|].
    split; [unfold new_events; state_simpl; by rewrite drop_app_length|].
    split; [by left|]. by eapply Hwiped.
  - unfold Commander.program. rewrite Hp, Hs, Hd.
    unfold Commander.main, Commander.main_body. cbn [input]. rewrite Hi.
    change (Commander.prepareOutput w ?c) with
      (Prepare.prepare w c "Previous optimized images deleted.").
    set (cfg := {| flags := Commander.flags_of options; srcDir := src;
                   destDir := dest |}) in *.
    destruct (prepare_cases w cfg "Previous optimized images deleted."
                (initial_state w) Hfree) as (st1 & Hprep & _ & _).
    unfold_run. rewrite !Hprep. cbn [ending final].
    exists st1. split; [by right|]. state_simpl. split; [done|].
    split; [unfold new_events; state_simpl; by rewrite drop_app_length|].
    split; [right; split; [done|]; by rewrite last_snoc|]. by eapply Hwiped.
Qed.

Lemma input_not_directory_witness :
  input Cases.file_input = SrcNotDir ∧
  resolved decimal_number Cases.file_input Sample.argv Sample.command_line
    (Legacy.program decimal_number Cases.file_input Sample.argv)
    Sample.config ∧
  (∀ q c, q `prefix_of` destDir Sample.config →
          initial_out Cases.file_input !! q ≠ Some (File c)) ∧
  let run := Legacy.program decimal_number Cases.file_input Sample.argv in
  ∃ st1,
    prepare_of Cases.file_input Sample.config (initial_state Cases.file_input)
      (Ok tt st1) ∧
    out (final run) = out st1 ∧
    new_events st1 (final run) = [EvReaddir (srcDir Sample.config)] ∧
    (ending run = Crashed (ENOTDIR (srcDir Sample.config))
     ∨ ending run = Exited 1 ∧
       last (console (final run))
       = Some (LogFatal (ENOTDIR (srcDir Sample.config)))) ∧
    (wipes Cases.file_input Sample.config (initial_state Cases.file_input) →
     ∀ k, destDir Sample.config `prefix_of` k → k ≠ destDir Sample.config →
          out (final run) !! k = None).
Proof.
  assert (H1 : input Cases.file_input = SrcNotDir) by reflexivity.
  assert (H2 : resolved decimal_number Cases.file_input Sample.argv
                 Sample.command_line
                 (Legacy.program decimal_number Cases.file_input Sample.argv)
                 Sample.config).
  { left. split; [reflexivity|]. eexists _, _. split; reflexivity. }
  assert (H3 : ∀ q c, q `prefix_of` destDir Sample.config →
                      initial_out Cases.file_input !! q ≠ Some (File c)).
  { intros q c Hq%prefixes_spec. cbn in Hq. rewrite !elem_of_cons in Hq.
    destruct Hq as [->|[->|[->|Hq]]]; [by vm_compute..|].
    by apply elem_of_nil in Hq. }
  split; [exact H1|]. split; [exact H2|]. split; [exact H3|].
  exact (input_not_directory decimal_number Cases.file_input Sample.argv
           Sample.command_line _ _ H1 H2 H3).
Defined.
End PrepMore.

Module AgreeFacts.
Import Path Rt Spec PathFacts StrFacts FsFacts StepFacts WalkFacts Claims PrepFacts.
Import Frame StepMore WalkRule FrameFacts.

Lemma Agree_bind (m1 m2 k1 k2 : M unit) s1 s2 :
  Agree (m1 s1) (m2 s2) →
  (∀ t1 t2, m1 s1 = Ok tt t1 → m2 s2 = Ok tt t2 → Agree (k1 t1) (k2 t2)) →
  Agree ((m1 >>> k1) s1) ((m2 >>> k2) s2).
Proof.
  intros Ha Hk. unfold bind.
  destruct (m1 s1) as [[] t1|e1 t1], (m2 s2) as [[] t2|e2 t2]; try done.
  - by apply Hk.
  - by destruct Ha as (_ & _ & _ & ?).
  - by destruct Ha as (_ & _ & _ & ?).
Qed.

Lemma mkdirs_noop (p : path) (m : gmap path Node) :
  (∀ q, q `prefix_of` p → m !! q = Some Dir) → mkdirs p m = m.
Proof.
  intros H. apply map_eq. intros k. rewrite lookup_mkdirs.
  case_decide; [by rewrite H|done].
Qed.

Lemma ready_clear (cfg : Config) (r : list string) (m : gmap path Node) :
  ready cfg r m → find (is_file m) (prefixes (destDir cfg ++ r)) = None.
Proof.
  intros H. apply find_is_file_complete. intros q c Hq. by rewrite (H q Hq).
Qed.

Lemma ready_rooted (cfg : Config) (r : list string) (m : gmap path Node) :
  ready cfg r m → rooted cfg m.
Proof.
  intros H q Hq. apply H. etrans; [done|]. by apply prefix_app_r.
Qed.

Lemma ready_kept (cfg : Config) (r : list string) (m m' : gmap path Node) :
  ready cfg r m → (∀ k, m !! k = Some Dir → m' !! k = Some Dir) → ready cfg r m'.
Proof. intros H Hd q Hq. by apply Hd, H. Qed.

Lemma ready_mkdirs (cfg : Config) (r : list string) (m : gmap path Node) :
  ready cfg r (mkdirs (destDir cfg ++ r) m).
Proof. intros q Hq. rewrite lookup_mkdirs. by rewrite decide_True. Qed.

Ltac agree_simpl Ho Hc Hfind Hnoop :=
  repeat (progress (state_simpl; cbn [final_state thrown negb];
                    rewrite <- ?Ho, <- ?Hc, ?Hfind, ?Hnoop)).

Ltac agree_leaf Hl :=
  split; [done|]; split; [done|]; split; [|done];
  rewrite !fmap_app, Hl; try done.

(** In a state where the directory of the destination is there, the
    two transcoders do the same. *)
Lemma handlers_agree w cfg r name s1 s2 :
  Forall valid_name r →
  ready cfg r (out s1) →
  Agree (Ok tt s1) (Ok tt s2) →
  Agree (Legacy.optimiseImage w cfg (srcDir cfg ++ r ++ [name])
           (Str.toLowerCase (extname_name name)) s1)
        (Commander.optimiseImage w cfg (srcDir cfg ++ r ++ [name]) s2).
Proof.
  intros Hr Hready (Ho & Hc & Hl & _). cbn [final_state] in Ho, Hc, Hl.
  pose proof (ready_clear _ _ _ Hready) as Hfind.
  pose proof (mkdirs_noop _ _ Hready) as Hnoop.
  unfold Agree, Legacy.optimiseImage, Legacy.optimiseImage_body, Legacy.nextIndex,
    Commander.optimiseImage, Commander.optimiseImage_body, Commander.getNextIndex.
  unfold_run.
  change (Commander.topFolder_of cfg ?f) with (Legacy.top_of cfg f).
  destruct (renameFiles (flags cfg)) eqn:Hren.
  all: agree_simpl Ho Hc Hfind Hnoop.
  all: rewrite !commander_dest_rel, !destPath_dirname by done.
  all: agree_simpl Ho Hc Hfind Hnoop.
  all: match goal with |- context [metadata_of ?w ?p] =>
         destruct (metadata_of w p) as [e|meta] end.
  all: agree_simpl Ho Hc Hfind Hnoop.
  all: try (by agree_leaf Hl).
  all: rewrite !commander_pipeline, !sourceExt_rel.
  all: match goal with |- context [if is_dir ?m ?d then _ else _] =>
         destruct (is_dir m d) end.
  all: agree_simpl Ho Hc Hfind Hnoop.
  all: try (by agree_leaf Hl).
  all: match goal with |- context [negb (is_dir ?m ?d)] =>
         destruct (is_dir m d) end.
  all: agree_simpl Ho Hc Hfind Hnoop.
  all: try (by agree_leaf Hl).
  all: match goal with |- context [encode_error ?w ?p] =>
         destruct (encode_error w p) end.
  all: agree_simpl Ho Hc Hfind Hnoop.
  all: try (by agree_leaf Hl).
  all: agree_leaf Hl.
  all: cbn [fmap list_fmap wording].
  all: unfold Legacy.status_of, Commander.status_of; rewrite ?sourceExt_rel.
  all: repeat case_decide; try done; by destruct (compressPNG (flags cfg)).
Qed.

Lemma Agree_states s1 s2 t1 t2 :
  Agree (Ok tt s1) (Ok tt s2) →
  out t1 = out s1 → counters t1 = counters s1 → console t1 = console s1 →
  out t2 = out s2 → counters t2 = counters s2 → console t2 = console s2 →
  Agree (Ok tt t1) (Ok tt t2).
Proof.
  intros (Ho & Hc & Hl & _) H1 H2 H3 H4 H5 H6. unfold Agree. cbn [final_state] in *.
  by rewrite H1, H2, H3, H4, H5, H6.
Qed.

Lemma mkdir_agree p s1 s2 :
  Agree (Ok tt s1) (Ok tt s2) → Agree (fs_mkdir p s1) (fs_mkdir p s2).
Proof.
  intros (Ho & Hc & Hl & _). cbn [final_state] in *. unfold Agree, fs_mkdir.
  state_simpl. rewrite <- Ho. destruct (find _ _); cbn [final_state thrown];
    state_simpl; by rewrite <- ?Ho.
Qed.

Lemma readdir_agree p s1 s2 :
  Agree (Ok tt s1) (Ok tt s2) → Agree (fs_readdir_in p s1) (fs_readdir_in p s2).
Proof. intros H. by eapply Agree_states. Qed.

(** The walk of the hand-written revision keeps every directory. *)
Lemma legacy_entry_contained w cfg e rel st :
  valid_entry e = true → Forall valid_name rel → rooted cfg (out st) →
  Contained cfg st (Legacy.processEntry w cfg (srcDir cfg ++ rel) e st).
Proof.
  intros Hv Hrel Hr. rewrite legacy_walk.
  apply (rule_walkEntry cfg (Legacy.optimiseImage w cfg)
           (λ s, rooted cfg (out s)) (Contained cfg));
    [ intros; apply Contained_refl
    | intros; by eapply Contained_trans
    | intros s s1 HP HR; by apply (rooted_kept cfg s (Ok tt s1))
    | intros d s _ HP; by apply Contained_mkdir
    | intros p s _; by split
    | | done | done | done ].
  intros rel' name s Hrel' _ HP. eapply Contained_attempt; [done..|].
  apply legacy_attempt.
Qed.

Section Walks.
Variable w : World.
Variable cfg : Config.

Lemma forEach_agree (rel : list string) (es : list Entry) dir :
  Forall (λ e, valid_entry e = true ∧
               ∀ s1 s2, ready cfg rel (out s1) → Agree (Ok tt s1) (Ok tt s2) →
                        Agree (Legacy.processEntry w cfg dir e s1)
                              (Commander.processEntry w cfg dir e s2)) es →
  (∀ e s1 t1, e ∈ es → ready cfg rel (out s1) →
              Legacy.processEntry w cfg dir e s1 = Ok tt t1 →
              ready cfg rel (out t1)) →
  ∀ s1 s2, ready cfg rel (out s1) → Agree (Ok tt s1) (Ok tt s2) →
           Agree (forEach (Legacy.processEntry w cfg dir) es s1)
                 (forEach (Commander.processEntry w cfg dir) es s2).
Proof.
  induction 1 as [|e es [Hv He] _ IH]; intros Hkeep s1 s2 Hr Ha; [done|].
  apply (Agree_bind (Legacy.processEntry w cfg dir e) _
           (forEach (Legacy.processEntry w cfg dir) es)
           (forEach (Commander.processEntry w cfg dir) es)).
  - by apply He.
  - intros t1 t2 E1 E2. apply IH.
    + intros e' s t He' Hs Ht. eapply Hkeep; [by right|done..].
    + eapply Hkeep; [by left|done..].
    + specialize (He s1 s2 Hr Ha). by rewrite E1, E2 in He.
Qed.

Lemma entries_agree e :
  ∀ rel s1 s2,
    valid_entry e = true → Forall valid_name rel →
    ready cfg rel (out s1) → Agree (Ok tt s1) (Ok tt s2) →
    Agree (Legacy.processEntry w cfg (srcDir cfg ++ rel) e s1)
          (Commander.processEntry w cfg (srcDir cfg ++ rel) e s2).
Proof.
  induction e as [name|name sub IH|name] using Entry_nested_ind;
    intros rel s1 s2 Hv Hrel Hr Ha.
  - rewrite legacy_walk, commander_walk, !walkEntry_file.
    pose proof (valid_entry_name _ Hv) as Hn. cbn [entry_name] in Hn.
    rewrite join_valid by (by apply Forall_singleton).
    destruct (decide (supported name)); [|done].
    rewrite <- app_assoc. by apply handlers_agree.
  - rewrite legacy_walk, commander_walk, !walkEntry_dir.
    rewrite <- legacy_walk, <- commander_walk.
    pose proof (valid_entry_name _ Hv) as Hn. cbn [entry_name] in Hn.
    assert (Hrel' : Forall valid_name (rel ++ [name])).
    { apply Forall_app. split; [done|]. by apply Forall_singleton. }
    rewrite !(join_valid (srcDir cfg ++ rel) [name])
      by (by apply Forall_singleton).
    rewrite <- app_assoc, relative_app. rewrite join_valid by done.
    apply Agree_bind; [by apply mkdir_agree|]. intros t1 t2 E1 E2.
    assert (Hr1 : ready cfg (rel ++ [name]) (out t1)).
    { unfold fs_mkdir in E1. destruct (find _ _); [done|].
      injection E1 as <-. state_simpl. apply ready_mkdirs. }
    assert (Ha1 : Agree (Ok tt t1) (Ok tt t2)).
    { pose proof (mkdir_agree (destDir cfg ++ rel ++ [name]) s1 s2 Ha) as H.
      by rewrite E1, E2 in H. }
    apply Agree_bind; [by apply readdir_agree|]. intros u1 u2 [= <-] [= <-].
    pose proof (valid_entry_sub _ _ Hv) as Hsub.
    apply (forEach_agree (rel ++ [name])).
    + rewrite Forall_forall in IH, Hsub. apply Forall_forall.
      intros e He. split; [by apply Hsub|]. intros. apply IH; auto.
    + intros e s t He Hs Ht. rewrite Forall_forall in Hsub.
      pose proof (legacy_entry_contained w cfg e (rel ++ [name]) s
                    (Hsub e He) Hrel' (ready_rooted _ _ _ Hs)) as [_ Hd].
      rewrite Ht in Hd. by eapply ready_kept.
    + done.
    + by eapply Agree_states.
  - done.
Qed.
End Walks.

Lemma Agree_refl st : Agree (Ok tt st) (Ok tt st).
Proof. done. Qed.

Lemma prepare_agree w cfg m1 m2 s1 s2 :
  Agree (Ok tt s1) (Ok tt s2) →
  Agree (Prepare.prepare w cfg m1 s1) (Prepare.prepare w cfg m2 s2).
Proof.
  intros (Ho & Hc & Hl & _). cbn [final_state] in *.
  unfold Agree, Prepare.prepare, fs_readdir_out, existsSync. unfold_run.
  state_simpl. rewrite <- !Ho.
  destruct (bool_decide _); state_simpl; rewrite <- ?Ho.
  2: { destruct (find _ _); cbn [final_state thrown]; state_simpl;
       by rewrite <- ?Ho. }
  destruct (out s1 !! destDir cfg) as [[|c]|]; cbn [final_state thrown];
    state_simpl; rewrite <- ?Ho; [|done..].
  destruct (0 <? _)%nat; state_simpl; rewrite <- ?Ho.
  2: { destruct (find _ _); cbn [final_state thrown]; state_simpl;
       by rewrite <- ?Ho. }
  destruct (forceDelete (flags cfg)); [|destruct (confirm w)]; state_simpl;
    rewrite <- ?Ho.
  all: destruct (find _ _); cbn [final_state thrown]; state_simpl;
    rewrite <- ?Ho, ?fmap_app, ?Hl; done.
Qed.

Lemma bind_Ok (m k : M unit) st st1 :
  (m >>> k) st = Ok tt st1 → ∃ s, m st = Ok tt s ∧ k s = Ok tt st1.
Proof.
  unfold bind. destruct (m st) as [[] s|e s]; [|done]. intros H. by exists s.
Qed.

Lemma prepare_rooted w cfg msg st st1 :
  Prepare.prepare w cfg msg st = Ok tt st1 → rooted cfg (out st1).
Proof.
  unfold Prepare.prepare. intros (s & _ & H)%bind_Ok. revert H.
  unfold fs_mkdir. destruct (find _ _); [done|]. intros [= <-]. state_simpl.
  intros q Hq. rewrite lookup_mkdirs. by rewrite decide_True.
Qed.

(** X18.  For the same configuration, in the same world and from the
    same state, the two revisions leave the same output tree and the
    same counters, end the same way (both return, or both throw the
    same error) and print the same lines up to the wording of their
    fixed texts: from the preparation of the output directory to the
    last line, they differ only in what they write to the console and
    in the order of the calls. *)
Theorem revisions_agree w cfg st :
  (∀ es, input w = SrcDir es → valid_tree es = true) →
  let oa := Legacy.pipeline w cfg st in
  let ob := Commander.main_body w cfg st in
  out (final_state oa) = out (final_state ob) ∧
  counters (final_state oa) = counters (final_state ob) ∧
  wording <$> console (final_state oa) = wording <$> console (final_state ob) ∧
  thrown oa = thrown ob.
Proof.
  intros Hv oa ob. subst oa ob. unfold Legacy.pipeline, Commander.main_body.
  change (Legacy.prepareOutput w cfg) with
    (Prepare.prepare w cfg "Previous optimised images deleted.").
  change (Commander.prepareOutput w cfg) with
    (Prepare.prepare w cfg "Previous optimized images deleted.").
  apply Agree_bind; [apply prepare_agree, Agree_refl|]. intros t1 t2 E1 E2.
  assert (Ha : Agree (Ok tt t1) (Ok tt t2)).
  { pose proof (prepare_agree w cfg "Previous optimised images deleted."
                  "Previous optimized images deleted." st st (Agree_refl st)) as H.
    by rewrite E1, E2 in H. }
  assert (Hr : ready cfg [] (out t1)).
  { apply prepare_rooted in E1. intros q Hq. rewrite app_nil_r in Hq. by apply E1. }
  assert (Hmid :
    Agree (match input w with
           | SrcDir entries => Legacy.processDir w cfg (srcDir cfg) entries
           | _ => fs_readdir_in (srcDir cfg) >>> throw (ENOTDIR (srcDir cfg))
           end t1)
          (match input w with
           | SrcDir entries => Commander.processDirectory w cfg (srcDir cfg) entries
           | _ => fs_readdir_in (srcDir cfg) >>> throw (ENOTDIR (srcDir cfg))
           end t2)).
  { destruct (input w) as [| |es] eqn:Hi.
    - apply Agree_bind; [by apply readdir_agree|]. intros u1 u2 [= <-] [= <-].
      destruct Ha as (? & ? & ? & _). by unfold Agree, throw.
    - apply Agree_bind; [by apply readdir_agree|]. intros u1 u2 [= <-] [= <-].
      destruct Ha as (? & ? & ? & _). by unfold Agree, throw.
    - specialize (Hv es eq_refl).
      unfold Legacy.processDir, Commander.processDirectory.
      apply Agree_bind; [by apply readdir_agree|]. intros u1 u2 [= <-] [= <-].
      unfold valid_tree in Hv. rewrite forallb_forall in Hv.
      apply (forEach_agree w cfg []).
      + apply Forall_forall. intros e He.
        assert (Hve : valid_entry e = true) by (by apply Hv, list_elem_of_In).
        split; [done|]. intros s1 s2 Hs Hs'.
        rewrite <- (app_nil_r (srcDir cfg)). by apply entries_agree.
      + intros e s t He Hs Ht.
        assert (Hve : valid_entry e = true) by (by apply Hv, list_elem_of_In).
        pose proof (legacy_entry_contained w cfg e [] s Hve (Forall_nil_2 _)
                      (ready_rooted _ _ _ Hs)) as [_ Hd].
        rewrite app_nil_r, Ht in Hd. by eapply ready_kept.
      + done.
      + by eapply Agree_states. }
  apply Agree_bind; [exact Hmid|]. intros u1 u2 E3 E4. rewrite E3, E4 in Hmid.
  destruct Hmid as (Ho & Hc & Hl & _). cbn [final_state] in Ho, Hc, Hl.
  unfold Agree, modify. cbn [final_state thrown]. state_simpl.
  by rewrite !fmap_app, Hl.
Qed.

Lemma revisions_agree_witness :
  (∀ es, input Sample.world = SrcDir es → valid_tree es = true) ∧
  let oa := Legacy.pipeline Sample.world Sample.config Sample.start in
  let ob := Commander.main_body Sample.world Sample.config Sample.start in
  out (final_state oa) = out (final_state ob) ∧
  counters (final_state oa) = counters (final_state ob) ∧
  wording <$> console (final_state oa) = wording <$> console (final_state ob) ∧
  thrown oa = thrown ob.
Proof.
  assert (H1 : ∀ es, input Sample.world = SrcDir es → valid_tree es = true).
  { intros es [= <-]. reflexivity. }
  split; [exact H1|].
  exact (revisions_agree Sample.world Sample.config Sample.start H1).
Defined.
End AgreeFacts.

Module DoneFacts.
Import Path Rt Spec PathFacts StrFacts FsFacts StepFacts WalkFacts Claims PrepFacts.
Import Frame StepMore WalkRule FrameFacts.
















End DoneFacts.

Module RunFacts.
Import Path Rt Spec PathFacts StrFacts FsFacts StepFacts WalkFacts Claims PrepFacts.
Import Frame StepMore WalkRule FrameFacts AgreeFacts PrepMore CompletionFacts.

(** Outside the output directory the preparation changes nothing but
    to create the directories above it that are missing. *)
Lemma prepare_frame w cfg msg st k :
  ¬ destDir cfg `prefix_of` k →
  out (final_state (Prepare.prepare w cfg msg st)) !! k = out st !! k
  ∨ (out st !! k = None ∧ k `prefix_of` destDir cfg ∧
     out (final_state (Prepare.prepare w cfg msg st)) !! k = Some Dir).
Proof.
  intros Hk.
  assert (Hmk : ∀ s,
    out s !! k = out st !! k →
    out (final_state (fs_mkdir (destDir cfg) s)) !! k = out st !! k
    ∨ (out st !! k = None ∧ k `prefix_of` destDir cfg ∧
       out (final_state (fs_mkdir (destDir cfg) s)) !! k = Some Dir)).
  { intros s Hs. unfold fs_mkdir. state_simpl.
    destruct (find _ _) eqn:Hf; cbn [final_state]; state_simpl; [by left|].
    rewrite lookup_mkdirs. case_decide as Hp; [|by left].
    pose proof (find_is_file_None _ _ Hf k) as Hnf.
    destruct (out s !! k) as [[|c]|] eqn:E.
    - left. by rewrite <- Hs.
    - by destruct (Hnf c).
    - right. by rewrite <- Hs. }
  assert (∃ pre : M unit,
    Prepare.prepare w cfg msg st
    = match pre st with
      | Ok _ s => fs_mkdir (destDir cfg) s
      | Throw e s => Throw e s
      end ∧ out (final_state (pre st)) !! k = out st !! k) as (pre & -> & Hpre).
  { eexists. split; [reflexivity|].
    unfold fs_readdir_out, existsSync. unfold_run. state_simpl.
    destruct (bool_decide _); [|done].
    destruct (out st !! destDir cfg) as [[|c]|]; [|done..].
    destruct (0 <? _)%nat; [|done].
    destruct (forceDelete (flags cfg)); [|destruct (confirm w)];
      cbn [final_state]; state_simpl; try done.
    all: by rewrite lookup_remove_tree, decide_False. }
  destruct (pre st) as [[] s|e s]; cbn [final_state] in Hpre.
  - by apply Hmk.
  - by left.
Qed.

Lemma pipeline_frame w cfg msg (mid : M unit) line st0 k :
  ¬ destDir cfg `prefix_of` k →
  (∀ s, rooted cfg (out s) → out (final_state (mid s)) !! k = out s !! k) →
  let o := (Prepare.prepare w cfg msg >>> mid >>> modify (print line)) st0 in
  out (final_state o) !! k = out st0 !! k
  ∨ (out st0 !! k = None ∧ k `prefix_of` destDir cfg ∧
     out (final_state o) !! k = Some Dir).
Proof.
  intros Hk Hmid o. subst o.
  pose proof (prepare_frame w cfg msg st0 k Hk) as Hp.
  unfold bind, modify.
  destruct (Prepare.prepare w cfg msg st0) as [[] t1|e t1] eqn:E;
    cbn [final_state] in Hp; [|done].
  apply prepare_rooted in E. specialize (Hmid t1 E).
  destruct (mid t1) as [[] t2|e t2];
    cbn [final_state] in *; state_simpl; by rewrite Hmid.
Qed.

Lemma input_frame w cfg (walk : list Entry → M unit) s k :
  (∀ es, input w = SrcDir es → out (final_state (walk es s)) !! k = out s !! k) →
  out (final_state (match input w with
                    | SrcDir entries => walk entries
                    | _ => fs_readdir_in (srcDir cfg) >>> throw (ENOTDIR (srcDir cfg))
                    end s)) !! k = out s !! k.
Proof. intros H. destruct (input w); [done..|by apply H]. Qed.

(** X16.  A run of either revision either leaves the whole tree as it
    was, or has resolved its command line and then, outside the output
    directory, changes nothing except that it creates the directories
    above the output directory that are missing: nothing outside the
    output directory is ever deleted or overwritten. *)
Theorem run_contained (StringToNumber : string → Js.number) (w : World)
    (argv : list string) (cl : Commander.CommandLine) (run : Run) :
  run_of StringToNumber w argv cl run →
  (∀ es, input w = SrcDir es → valid_tree es = true) →
  out (final run) = initial_out w
  ∨ ∃ cfg,
      resolved StringToNumber w argv cl run cfg ∧
      ∀ k, ¬ destDir cfg `prefix_of` k →
           out (final run) !! k = initial_out w !! k
           ∨ (initial_out w !! k = None ∧ k `prefix_of` destDir cfg ∧
              out (final run) !! k = Some Dir).
Proof.
  intros [->| ->] Hv.
  - assert (Hres : ∀ f p,
      Legacy.parseArgs StringToNumber argv Legacy.defaults [] = Legacy.Proceed f p →
      resolved StringToNumber w argv cl (Legacy.program StringToNumber w argv)
        (Legacy.config (cwd w) f p)).
    { intros f p Hp. left. split; [done|]. by exists f, p. }
    set (R := resolved StringToNumber w argv cl
                (Legacy.program StringToNumber w argv)) in *.
    destruct (Legacy.parseArgs StringToNumber argv Legacy.defaults [])
      as [f p|code lines] eqn:Hp.
    2: { left. by apply (CliFacts.legacy_exit_before_processing _ w) in Hp
           as (_ & _ & ?). }
    unfold Legacy.program. rewrite Hp.
    assert (Hcase : input w = SrcMissing ∨ input w ≠ SrcMissing)
      by (destruct (input w); [by left|by right..]).
    destruct Hcase as [Hi|Hi]; [left; by rewrite Hi|].
    right. exists (Legacy.config (cwd w) f p). split; [by apply Hres|].
    intros k Hk.
    pose proof (pipeline_frame w (Legacy.config (cwd w) f p)
                  "Previous optimised images deleted."
                  (match input w with
                   | SrcDir entries =>
                       Legacy.processDir w (Legacy.config (cwd w) f p)
                         (srcDir (Legacy.config (cwd w) f p)) entries
                   | _ => fs_readdir_in (srcDir (Legacy.config (cwd w) f p)) >>>
                          throw (ENOTDIR (srcDir (Legacy.config (cwd w) f p)))
                   end)
                  (LogFinished "Done! Optimised images are in:"
                     (destDir (Legacy.config (cwd w) f p)))
                  (initial_state w) k Hk) as Hframe.
    cbn zeta in Hframe.
    change (Prepare.prepare w ?c "Previous optimised images deleted." >>> ?m)
      with (Legacy.pipeline w c) in Hframe.
    assert (Hout : out (final (match input w with
                               | SrcMissing =>
                                   {| ending := Exited 1;
                                      final := print (LogInputMissing
                                                 (srcDir (Legacy.config (cwd w) f p)))
                                                 (initial_state w) |}
                               | _ => match Legacy.pipeline w
                                              (Legacy.config (cwd w) f p)
                                              (initial_state w) with
                                      | Ok _ st => {| ending := Finished; final := st |}
                                      | Throw e st =>
                                          {| ending := Crashed e; final := st |}
                                      end
                               end))
                   = out (final_state (Legacy.pipeline w (Legacy.config (cwd w) f p)
                                         (initial_state w)))).
    { destruct (input w); [done|..];
        by destruct (Legacy.pipeline _ _ _) as [[] ?|? ?]. }
    rewrite Hout. apply Hframe. intros s Hs. apply input_frame. intros es Hes.
    eapply walk_Contained; [by apply Hv|done|by left|done].
  - assert (Hres : ∀ options src dest,
      Commander.parse_options StringToNumber (Commander.occurrences cl)
        Commander.declared_defaults = inr options →
      Commander.resolve_raw (cwd w) (Commander.args cl !! 0%nat) = inr src →
      Commander.resolve_raw (cwd w) (Commander.args cl !! 1%nat) = inr dest →
      resolved StringToNumber w argv cl (Commander.program StringToNumber w cl)
        {| flags := Commander.flags_of options; srcDir := src; destDir := dest |}).
    { intros options src dest Hp Hs Hd. right. split; [done|].
      by exists options, src, dest. }
    set (R := resolved StringToNumber w argv cl
                (Commander.program StringToNumber w cl)) in *.
    unfold Commander.program.
    destruct (Commander.parse_options _ _ _) as [e|options] eqn:Hp; [by left|].
    destruct (Commander.resolve_raw _ (_ !! 0%nat)) as [e|src] eqn:Hsrc;
      [by left|].
    destruct (Commander.resolve_raw _ (_ !! 1%nat)) as [e|dest] eqn:Hdest;
      [by left|].
    set (cfg := {| flags := Commander.flags_of options; srcDir := src;
                   destDir := dest |}).
    unfold Commander.main.
    assert (Hcase : input w = SrcMissing ∨ input w ≠ SrcMissing)
      by (destruct (input w); [by left|by right..]).
    destruct Hcase as [Hi|Hi]; [left; by rewrite Hi|].
    right. exists cfg. split; [by apply Hres|]. intros k Hk.
    pose proof (pipeline_frame w cfg "Previous optimized images deleted."
                  (match input w with
                   | SrcDir entries =>
                       Commander.processDirectory w cfg (srcDir cfg) entries
                   | _ => fs_readdir_in (srcDir cfg) >>> throw (ENOTDIR (srcDir cfg))
                   end)
                  (LogFinished "✅ Done! Optimized images are in:" (destDir cfg))
                  (initial_state w) k Hk) as Hframe.
    cbn zeta in Hframe.
    change (Prepare.prepare w ?c "Previous optimized images deleted." >>> ?m)
      with (Commander.main_body w c) in Hframe.
    assert (Hout : out (final (match input w with
                               | SrcMissing =>
                                   {| ending := Exited 1;
                                      final := print (LogInputMissing (srcDir cfg))
                                                 (initial_state w) |}
                               | _ => match Commander.main_body w cfg
                                              (initial_state w) with
                                      | Ok _ st => {| ending := Finished; final := st |}
                                      | Throw e st =>
                                          {| ending := Exited 1;
                                             final := print (LogFatal e) st |}
                                      end
                               end))
                   = out (final_state (Commander.main_body w cfg (initial_state w)))).
    { destruct (input w); [done|..];
        by destruct (Commander.main_body _ _ _) as [[] ?|? ?]. }
    rewrite Hout. apply Hframe. intros s Hs. apply input_frame. intros es Hes.
    eapply walk_Contained; [by apply Hv|done|by right|done].
Qed.

Lemma run_contained_witness :
  run_of decimal_number Sample.world Sample.argv Sample.command_line Sample.run ∧
  (∀ es, input Sample.world = SrcDir es → valid_tree es = true) ∧
  (out (final Sample.run) = initial_out Sample.world
   ∨ ∃ cfg,
       resolved decimal_number Sample.world Sample.argv Sample.command_line
         Sample.run cfg ∧
       ∀ k, ¬ destDir cfg `prefix_of` k →
            out (final Sample.run) !! k = initial_out Sample.world !! k
            ∨ (initial_out Sample.world !! k = None ∧ k `prefix_of` destDir cfg ∧
               out (final Sample.run) !! k = Some Dir)).
Proof.
  assert (H1 : run_of decimal_number Sample.world Sample.argv Sample.command_line
                 Sample.run) by (by left).
  assert (H2 : ∀ es, input Sample.world = SrcDir es → valid_tree es = true).
  { intros es [= <-]. reflexivity. }
  split; [exact H1|]. split; [exact H2|].
  exact (run_contained decimal_number Sample.world Sample.argv Sample.command_line
           Sample.run H1 H2).
Defined.




End RunFacts.

Module SoundFacts.
Import Path Rt Spec PathFacts StrFacts FsFacts StepFacts WalkFacts Claims.
Import TreeFacts WalkClaims Frame StepMore WalkRule FrameFacts.











End SoundFacts.
